(** * KiloMan: the simulation core of [components/GameCanvas.tsx]

    A shallow embedding of the per-tick handlers that the component
    registers on the Matter.js engine (the two [beforeUpdate] handlers, the
    [collisionStart] handler and the [afterUpdate] handler), of the window
    key listeners, and of the two small React effects that mirror props and
    state into refs.

    Conventions.
    - A JavaScript [number] is a rational [Q]: comparisons, negation and
      assignment are exact on doubles, rounding and NaN are not modelled.
    - A [Matter.Body] object is a record; object identity ([===]) is
      equality of the Matter id, which the engine hands out once per body.
    - A React ref [fooRef.current] is the field [fooRef] of the state [Sim].
    - [Math.sin] and [Math.hypot] are not rational functions: the handlers
      take them from a [MathEnv] supplied with each tick.
    - Matter.js itself is not modelled.  What the engine does between the
      callbacks is an arbitrary change of the positions, velocities and
      forces of the bodies ([physics]); what it reports (ray hits,
      collision pairs) is an input of the callback.
    - A run is a list of events: key events, prop changes, the engine
      callbacks of a tick in any order and number, and React updates.  A
      React update renders and then runs the effect that mirrors
      [gameState] into [gameStateRef], with no tick in between. *)

From Stdlib Require Import QArith Qminmax Qabs Qround Qpower Lqa.
From stdpp Require Import gmap strings list fin_maps.

(** ** JavaScript numbers *)

Module Num.
Definition gtb (a b : Q) : bool := negb (Qle_bool a b).
Definition ltb (a b : Q) : bool := gtb b a.
End Num.

(** [const clamp = (v, min, max) => Math.max(min, Math.min(v, max))] *)
Definition clamp (v min max : Q) : Q := Qmax min (Qmin v max).

(** ** The part of Matter.js the component touches *)

Module Matter.
Record Vector := mkVector { x : Q; y : Q }.

Record Body := mkBody {
  id : Z;
  label : string;
  isSensor : bool;
  mass : Q;
  frictionAir : Q;
  position : Vector;
  velocity : Vector;
  force : Vector
}.

(** [Matter.Body.setVelocity(body, v)] *)
Definition setVelocity (body : Body) (v : Vector) : Body :=
  mkBody (id body) (label body) (isSensor body) (mass body)
         (frictionAir body) (position body) v (force body).

(** [Matter.Body.applyForce(body, body.position, f)]: the force is
    accumulated and only integrated by the next engine step. *)
Definition applyForce (body : Body) (f : Vector) : Body :=
  mkBody (id body) (label body) (isSensor body) (mass body)
         (frictionAir body) (position body) (velocity body)
         (mkVector (x (force body) + x f) (y (force body) + y f)).

(** A collision pair as delivered with [collisionStart]. *)
Record Pair := mkPair { bodyA : Body; bodyB : Body }.
End Matter.

Abbreviation Body := Matter.Body.
Abbreviation Vector := Matter.Vector.

(** ** Component types *)

Inductive GameState := playing | gameOver | won.

#[global] Instance GameState_eq_dec : EqDecision GameState.
Proof. solve_decision. Defined.

(** [type PatrolDirection = 1 | -1] (also the type of [playerFacingRef]). *)
Inductive PatrolDirection := dirPlus | dirMinus.

Definition dirValue (d : PatrolDirection) : Q :=
  match d with dirPlus => 1 | dirMinus => -1 end.

Inductive MonsterAIKind := patrol | flying.

Record MonsterAIState := mkMonsterAI {
  kind : MonsterAIKind;
  originX : Q;
  originY : Q;
  range : Q;
  speed : Q;
  dir : PatrolDirection;
  chaseRadius : option Q;
  hoverAmp : option Q;
  hoverFreq : option Q
}.

Record PlatformAI := mkPlatformAI {
  pOriginX : Q;
  pRange : Q;
  pSpeed : Q;
  pDir : PatrolDirection
}.

(** ** Props and the jump-strength effect *)

Record GameCanvasProps := mkProps {
  propJumpStrength : option Q;
  propJumpHeight : option Q
}.

(** Destructuring default [jumpStrength = 22]. *)
Definition jumpStrengthParam (p : GameCanvasProps) : Q :=
  default 22%Q (propJumpStrength p).

(** [typeof jumpHeight === 'number' ? jumpHeight : jumpStrength] *)
Definition effectiveJumpStrength (p : GameCanvasProps) : Q :=
  match propJumpHeight p with
  | Some h => h
  | None => jumpStrengthParam p
  end.

(** ** The state of one mounted component

    [gameState] is the React state variable and [gameStateQueue] the calls
    of [setGameState] that React has accepted but not rendered yet; every
    other field ending in [Ref] is the [.current] of the ref of that name.
    [playerRef] holds the torso and [playerHeadRef] the head; both are set
    once by the set-up code and never cleared, so they are plain bodies.
    [world] lists the ids of the bodies in [engine.world], [nextId] is
    Matter's id counter and [projectileMass] the mass Matter derives for
    the projectile shape. *)

Record Sim := mkSim {
  gameState : GameState;
  gameStateQueue : list GameState;
  gameStateRef : GameState;
  keysRef : gmap string bool;
  jumpStrengthRef : Q;
  jumpWasDownRef : bool;
  playerGroundedRef : bool;
  playerFacingRef : PatrolDirection;
  playerRef : Body;
  playerHeadRef : Body;
  monstersRef : list Body;
  monsterAIRef : gmap Z MonsterAIState;
  monsterStyleSeedRef : gmap Z Z;
  projectilesRef : list Body;
  movingPlatformRef : Body;
  movingPlatformAIRef : PlatformAI;
  world : list Z;
  nextId : Z;
  projectileMass : Q
}.

(** Field updates. *)

Definition set_gameState (v : GameState) (s : Sim) : Sim :=
  mkSim v (gameStateQueue s) (gameStateRef s) (keysRef s)
    (jumpStrengthRef s) (jumpWasDownRef s) (playerGroundedRef s)
    (playerFacingRef s) (playerRef s) (playerHeadRef s) (monstersRef s)
    (monsterAIRef s) (monsterStyleSeedRef s) (projectilesRef s)
    (movingPlatformRef s) (movingPlatformAIRef s) (world s) (nextId s)
    (projectileMass s).

Definition set_gameStateQueue (v : list GameState) (s : Sim) : Sim :=
  mkSim (gameState s) v (gameStateRef s) (keysRef s) (jumpStrengthRef s)
    (jumpWasDownRef s) (playerGroundedRef s) (playerFacingRef s)
    (playerRef s) (playerHeadRef s) (monstersRef s) (monsterAIRef s)
    (monsterStyleSeedRef s) (projectilesRef s) (movingPlatformRef s)
    (movingPlatformAIRef s) (world s) (nextId s) (projectileMass s).

Definition set_gameStateRef (v : GameState) (s : Sim) : Sim :=
  mkSim (gameState s) (gameStateQueue s) v (keysRef s) (jumpStrengthRef s)
    (jumpWasDownRef s) (playerGroundedRef s) (playerFacingRef s)
    (playerRef s) (playerHeadRef s) (monstersRef s) (monsterAIRef s)
    (monsterStyleSeedRef s) (projectilesRef s) (movingPlatformRef s)
    (movingPlatformAIRef s) (world s) (nextId s) (projectileMass s).

Definition set_keysRef (v : gmap string bool) (s : Sim) : Sim :=
  mkSim (gameState s) (gameStateQueue s) (gameStateRef s) v
    (jumpStrengthRef s) (jumpWasDownRef s) (playerGroundedRef s)
    (playerFacingRef s) (playerRef s) (playerHeadRef s) (monstersRef s)
    (monsterAIRef s) (monsterStyleSeedRef s) (projectilesRef s)
    (movingPlatformRef s) (movingPlatformAIRef s) (world s) (nextId s)
    (projectileMass s).

Definition set_jumpStrengthRef (v : Q) (s : Sim) : Sim :=
  mkSim (gameState s) (gameStateQueue s) (gameStateRef s) (keysRef s) v
    (jumpWasDownRef s) (playerGroundedRef s) (playerFacingRef s)
    (playerRef s) (playerHeadRef s) (monstersRef s) (monsterAIRef s)
    (monsterStyleSeedRef s) (projectilesRef s) (movingPlatformRef s)
    (movingPlatformAIRef s) (world s) (nextId s) (projectileMass s).

Definition set_jumpWasDownRef (v : bool) (s : Sim) : Sim :=
  mkSim (gameState s) (gameStateQueue s) (gameStateRef s) (keysRef s)
    (jumpStrengthRef s) v (playerGroundedRef s) (playerFacingRef s)
    (playerRef s) (playerHeadRef s) (monstersRef s) (monsterAIRef s)
    (monsterStyleSeedRef s) (projectilesRef s) (movingPlatformRef s)
    (movingPlatformAIRef s) (world s) (nextId s) (projectileMass s).

Definition set_playerGroundedRef (v : bool) (s : Sim) : Sim :=
  mkSim (gameState s) (gameStateQueue s) (gameStateRef s) (keysRef s)
    (jumpStrengthRef s) (jumpWasDownRef s) v (playerFacingRef s)
    (playerRef s) (playerHeadRef s) (monstersRef s) (monsterAIRef s)
    (monsterStyleSeedRef s) (projectilesRef s) (movingPlatformRef s)
    (movingPlatformAIRef s) (world s) (nextId s) (projectileMass s).

Definition set_playerFacingRef (v : PatrolDirection) (s : Sim) : Sim :=
  mkSim (gameState s) (gameStateQueue s) (gameStateRef s) (keysRef s)
    (jumpStrengthRef s) (jumpWasDownRef s) (playerGroundedRef s) v
    (playerRef s) (playerHeadRef s) (monstersRef s) (monsterAIRef s)
    (monsterStyleSeedRef s) (projectilesRef s) (movingPlatformRef s)
    (movingPlatformAIRef s) (world s) (nextId s) (projectileMass s).

Definition set_playerRef (v : Body) (s : Sim) : Sim :=
  mkSim (gameState s) (gameStateQueue s) (gameStateRef s) (keysRef s)
    (jumpStrengthRef s) (jumpWasDownRef s) (playerGroundedRef s)
    (playerFacingRef s) v (playerHeadRef s) (monstersRef s)
    (monsterAIRef s) (monsterStyleSeedRef s) (projectilesRef s)
    (movingPlatformRef s) (movingPlatformAIRef s) (world s) (nextId s)
    (projectileMass s).

Definition set_monstersRef (v : list Body) (s : Sim) : Sim :=
  mkSim (gameState s) (gameStateQueue s) (gameStateRef s) (keysRef s)
    (jumpStrengthRef s) (jumpWasDownRef s) (playerGroundedRef s)
    (playerFacingRef s) (playerRef s) (playerHeadRef s) v (monsterAIRef s)
    (monsterStyleSeedRef s) (projectilesRef s) (movingPlatformRef s)
    (movingPlatformAIRef s) (world s) (nextId s) (projectileMass s).

Definition set_monsterAIRef (v : gmap Z MonsterAIState) (s : Sim) : Sim :=
  mkSim (gameState s) (gameStateQueue s) (gameStateRef s) (keysRef s)
    (jumpStrengthRef s) (jumpWasDownRef s) (playerGroundedRef s)
    (playerFacingRef s) (playerRef s) (playerHeadRef s) (monstersRef s) v
    (monsterStyleSeedRef s) (projectilesRef s) (movingPlatformRef s)
    (movingPlatformAIRef s) (world s) (nextId s) (projectileMass s).

Definition set_monsterStyleSeedRef (v : gmap Z Z) (s : Sim) : Sim :=
  mkSim (gameState s) (gameStateQueue s) (gameStateRef s) (keysRef s)
    (jumpStrengthRef s) (jumpWasDownRef s) (playerGroundedRef s)
    (playerFacingRef s) (playerRef s) (playerHeadRef s) (monstersRef s)
    (monsterAIRef s) v (projectilesRef s) (movingPlatformRef s)
    (movingPlatformAIRef s) (world s) (nextId s) (projectileMass s).

Definition set_projectilesRef (v : list Body) (s : Sim) : Sim :=
  mkSim (gameState s) (gameStateQueue s) (gameStateRef s) (keysRef s)
    (jumpStrengthRef s) (jumpWasDownRef s) (playerGroundedRef s)
    (playerFacingRef s) (playerRef s) (playerHeadRef s) (monstersRef s)
    (monsterAIRef s) (monsterStyleSeedRef s) v (movingPlatformRef s)
    (movingPlatformAIRef s) (world s) (nextId s) (projectileMass s).

Definition set_movingPlatformRef (v : Body) (s : Sim) : Sim :=
  mkSim (gameState s) (gameStateQueue s) (gameStateRef s) (keysRef s)
    (jumpStrengthRef s) (jumpWasDownRef s) (playerGroundedRef s)
    (playerFacingRef s) (playerRef s) (playerHeadRef s) (monstersRef s)
    (monsterAIRef s) (monsterStyleSeedRef s) (projectilesRef s) v
    (movingPlatformAIRef s) (world s) (nextId s) (projectileMass s).

Definition set_movingPlatformAIRef (v : PlatformAI) (s : Sim) : Sim :=
  mkSim (gameState s) (gameStateQueue s) (gameStateRef s) (keysRef s)
    (jumpStrengthRef s) (jumpWasDownRef s) (playerGroundedRef s)
    (playerFacingRef s) (playerRef s) (playerHeadRef s) (monstersRef s)
    (monsterAIRef s) (monsterStyleSeedRef s) (projectilesRef s)
    (movingPlatformRef s) v (world s) (nextId s) (projectileMass s).

Definition set_world (v : list Z) (s : Sim) : Sim :=
  mkSim (gameState s) (gameStateQueue s) (gameStateRef s) (keysRef s)
    (jumpStrengthRef s) (jumpWasDownRef s) (playerGroundedRef s)
    (playerFacingRef s) (playerRef s) (playerHeadRef s) (monstersRef s)
    (monsterAIRef s) (monsterStyleSeedRef s) (projectilesRef s)
    (movingPlatformRef s) (movingPlatformAIRef s) v (nextId s)
    (projectileMass s).

Definition set_nextId (v : Z) (s : Sim) : Sim :=
  mkSim (gameState s) (gameStateQueue s) (gameStateRef s) (keysRef s)
    (jumpStrengthRef s) (jumpWasDownRef s) (playerGroundedRef s)
    (playerFacingRef s) (playerRef s) (playerHeadRef s) (monstersRef s)
    (monsterAIRef s) (monsterStyleSeedRef s) (projectilesRef s)
    (movingPlatformRef s) (movingPlatformAIRef s) (world s) v
    (projectileMass s).

(** ** World constants *)

Definition WORLD_HEIGHT : Q := 600.
Definition GROUND_HEIGHT : Q := 50.
Definition PLAYER_WIDTH : Q := 40.
Definition PLAYER_HEIGHT : Q := 60.
Definition LEVEL_LENGTH : Q := 8000.

(** ** Inputs a tick takes from its environment *)

Record MathEnv := mkMathEnv {
  sin : Q -> Q;
  hypot : Q -> Q -> Q
}.

Record TickInput := mkTickInput {
  rayHits : list Body;      (* bodies hit by [Matter.Query.ray], in order *)
  timestamp : Q;            (* [engine.timing.timestamp] *)
  gravityAccel : Q;         (* [engine.gravity.y * engine.gravity.scale] *)
  math : MathEnv
}.

(** ** Key listeners *)

(** [keysRef.current[code]] read as a condition: a missing key is falsy. *)
Definition key (s : Sim) (code : string) : bool :=
  default false (keysRef s !! code).

Definition handleKeyDown (code : string) (s : Sim) : Sim :=
  set_keysRef (<[code := true]> (keysRef s)) s.

Definition handleKeyUp (code : string) (s : Sim) : Sim :=
  set_keysRef (<[code := false]> (keysRef s)) s.

(** ** React state and its mirror ref *)

(** [setGameState(v)] called from an engine callback: the update is queued. *)
Definition setGameState (v : GameState) (s : Sim) : Sim :=
  set_gameStateQueue (gameStateQueue s ++ [v]) s.

(** React renders: the queued updates are applied in order. *)
Definition render (s : Sim) : Sim :=
  set_gameStateQueue []
    (set_gameState (foldl (fun _ v => v) (gameState s) (gameStateQueue s)) s).

(** [useEffect(() => { gameStateRef.current = gameState }, [gameState])] *)
Definition syncGameStateRef (s : Sim) : Sim :=
  set_gameStateRef (gameState s) s.

(** A React update that nothing interrupts: the render, then at once the
    effect of that render.  React runs the effect after the commit, and
    the engine can deliver events in between; the schedules below have
    the render and the effect as steps of their own. *)
Definition flush (s : Sim) : Sim := syncGameStateRef (render s).

(** [useEffect(..., [jumpStrength, jumpHeight])] *)
Definition syncJumpStrengthRef (p : GameCanvasProps) (s : Sim) : Sim :=
  set_jumpStrengthRef (effectiveJumpStrength p) s.

(** ** Player controller (first [beforeUpdate] handler) *)

Section PlayerController.
Local Open Scope Q_scope.

Definition createProjectile (s : Sim) : Sim :=
  let player := playerRef s in
  let facing := dirValue (playerFacingRef s) in
  let projectile :=
    Matter.setVelocity
      (Matter.mkBody (nextId s) "projectile" false (projectileMass s) 0.01
         (Matter.mkVector
            (Matter.x (Matter.position player) + facing * PLAYER_WIDTH * 0.6)
            (Matter.y (Matter.position player)))
         (Matter.mkVector 0 0) (Matter.mkVector 0 0))
      (Matter.mkVector (facing * 15) 0) in
  set_projectilesRef (projectilesRef s ++ [projectile])
    (set_world (world s ++ [Matter.id projectile])
       (set_nextId (nextId s + 1)%Z s)).

(** Fire on K: [if (keysRef.current['KeyK']) { createProjectile();
    keysRef.current['KeyK'] = false; }] *)
Definition fireStep (s : Sim) : Sim :=
  if key s "KeyK"
  then let s1 := createProjectile s in
       set_keysRef (<["KeyK" := false]> (keysRef s1)) s1
  else s.

(** [Matter.Query.ray] builds the ray as a temporary rectangle body, which
    takes the next id of Matter's counter at every call. *)
Definition castRay (s : Sim) : Sim := set_nextId (nextId s + 1)%Z s.

(** The predicate of [rayHits.some(...)]. *)
Definition isFooting (s : Sim) (b : Body) : bool :=
  if (Matter.id b =? Matter.id (playerRef s))%Z then false
  else if (Matter.id b =? Matter.id (playerHeadRef s))%Z then false
  else if Matter.isSensor b then false
  else if (Matter.label b =? "monster")%string
          || (Matter.label b =? "boundary")%string then false
  else true.

Definition groundCheck (inp : TickInput) (s : Sim) : bool :=
  existsb (isFooting s) (rayHits inp).

Definition maxRunSpeed : Q := 9.5.
Definition maxAirSpeed : Q := 10.5.
Definition accelPerMass (grounded : bool) : Q :=
  if grounded then 0.0032 else 0.0038.
Definition brakePerMass (grounded : bool) : Q :=
  if grounded then 0.0046 else 0.0018.
Definition maxSpeed (grounded : bool) : Q :=
  if grounded then maxRunSpeed else maxAirSpeed.

Definition axisOf (s : Sim) : Z :=
  let left := key s "ArrowLeft" || key s "KeyA" in
  let right := key s "ArrowRight" || key s "KeyD" in
  ((if right then 1 else 0) + (if left then -1 else 0))%Z.

Definition facingStep (axis : Z) (s : Sim) : Sim :=
  let s1 := if (axis =? 1)%Z then set_playerFacingRef dirPlus s else s in
  let s2 := if (axis =? -1)%Z then set_playerFacingRef dirMinus s1 else s1 in
  if (axis =? 0)%Z then
    let vx := Matter.x (Matter.velocity (playerRef s2)) in
    let s3 := if Num.gtb vx 0.35 then set_playerFacingRef dirPlus s2 else s2 in
    if Num.ltb vx (-0.35) then set_playerFacingRef dirMinus s3 else s3
  else s2.

Definition movementStep (grounded : bool) (axis : Z) (s : Sim) : Sim :=
  let player := playerRef s in
  if negb (axis =? 0)%Z then
    set_playerRef
      (Matter.applyForce player
         (Matter.mkVector
            (inject_Z axis * accelPerMass grounded * Matter.mass player) 0)) s
  else
    let vx := Matter.x (Matter.velocity player) in
    if Num.gtb (Qabs vx) 0.02 then
      set_playerRef
        (Matter.applyForce player
           (Matter.mkVector
              (- vx * brakePerMass grounded * Matter.mass player) 0)) s
    else if grounded then
      set_playerRef
        (Matter.setVelocity player
           (Matter.mkVector 0 (Matter.y (Matter.velocity player)))) s
    else s.

Definition clampStep (grounded : bool) (s : Sim) : Sim :=
  let player := playerRef s in
  let vel := Matter.velocity player in
  if Num.gtb (Matter.x vel) (maxSpeed grounded) then
    set_playerRef
      (Matter.setVelocity player
         (Matter.mkVector (maxSpeed grounded) (Matter.y vel))) s
  else if Num.ltb (Matter.x vel) (- maxSpeed grounded) then
    set_playerRef
      (Matter.setVelocity player
         (Matter.mkVector (- maxSpeed grounded) (Matter.y vel))) s
  else s.

Definition jumpDown (s : Sim) : bool :=
  key s "ArrowUp" || key s "Space" || key s "KeyW".

Definition jumpStep (grounded : bool) (s : Sim) : Sim :=
  let jumpPressed := jumpDown s && negb (jumpWasDownRef s) in
  let s1 := set_jumpWasDownRef (jumpDown s) s in
  if jumpPressed && grounded then
    let player := playerRef s1 in
    set_playerRef
      (Matter.setVelocity player
         (Matter.mkVector (Matter.x (Matter.velocity player))
                          (- jumpStrengthRef s1))) s1
  else s1.

(** Everything the handler does before the jump block. *)
Definition beforeJump (inp : TickInput) (s : Sim) : Sim :=
  let s1 := castRay (fireStep s) in
  let grounded := groundCheck inp s1 in
  let s2 := set_playerGroundedRef grounded s1 in
  let axis := axisOf s2 in
  clampStep grounded (movementStep grounded axis (facingStep axis s2)).

Definition playerController (inp : TickInput) (s : Sim) : Sim :=
  let s1 := castRay (fireStep s) in
  let grounded := groundCheck inp s1 in
  let s2 := set_playerGroundedRef grounded s1 in
  let axis := axisOf s2 in
  let s3 := facingStep axis s2 in
  let s4 := movementStep grounded axis s3 in
  let s5 := clampStep grounded s4 in
  jumpStep grounded s5.
End PlayerController.

(** ** Monster and moving-platform controller (second [beforeUpdate] handler) *)

Section AIController.
Local Open Scope Q_scope.

Definition set_dir (d : PatrolDirection) (ai : MonsterAIState) : MonsterAIState :=
  mkMonsterAI (kind ai) (originX ai) (originY ai) (range ai) (speed ai) d
    (chaseRadius ai) (hoverAmp ai) (hoverFreq ai).

(** The [ai.kind === 'patrol'] branch. *)
Definition patrolStep (ai : MonsterAIState) (monster : Body)
  : MonsterAIState * Body :=
  let half := range ai / 2 in
  let px := Matter.x (Matter.position monster) in
  let ai1 := if Num.ltb px (originX ai - half) then set_dir dirPlus ai else ai in
  let ai2 := if Num.gtb px (originX ai1 + half) then set_dir dirMinus ai1 else ai1 in
  (ai2,
   Matter.setVelocity monster
     (Matter.mkVector (speed ai2 * dirValue (dir ai2))
                      (Matter.y (Matter.velocity monster)))).

(** The [else] branch of the flyer: hover around the origin. *)
Definition hoverVelocity (inp : TickInput) (ai : MonsterAIState)
    (monster : Body) : Vector :=
  let t := timestamp inp in
  let hoverAmp := default 18 (hoverAmp ai) in
  let hoverFreq := default 0.002 (hoverFreq ai) in
  let targetX := originX ai + sin (math inp) (t * 0.001) * 70 in
  let targetY := originY ai + sin (math inp) (t * hoverFreq) * hoverAmp in
  let toX := targetX - Matter.x (Matter.position monster) in
  let toY := targetY - Matter.y (Matter.position monster) in
  Matter.mkVector (clamp (toX * 0.06) (- speed ai) (speed ai))
                  (clamp (toY * 0.06) (- speed ai) (speed ai)).

(** The test [dist > 1 && dist < chaseRadius] of the flyer. *)
Definition chasing (inp : TickInput) (ai : MonsterAIState)
    (player monster : Body) : bool :=
  let chaseRadius := default 320 (chaseRadius ai) in
  let dx := Matter.x (Matter.position player) - Matter.x (Matter.position monster) in
  let dy := Matter.y (Matter.position player) - Matter.y (Matter.position monster) in
  let dist := hypot (math inp) dx dy in
  Num.gtb dist 1 && Num.ltb dist chaseRadius.

(** The [ai.kind === 'flying'] branch. *)
Definition flyingStep (inp : TickInput) (ai : MonsterAIState)
    (player monster : Body) : Body :=
  let monster1 :=
    Matter.applyForce monster
      (Matter.mkVector 0 (- Matter.mass monster * gravityAccel inp)) in
  let dx := Matter.x (Matter.position player) - Matter.x (Matter.position monster) in
  let dy := Matter.y (Matter.position player) - Matter.y (Matter.position monster) in
  let dist := hypot (math inp) dx dy in
  if chasing inp ai player monster then
    let maxV := speed ai in
    Matter.setVelocity monster1
      (Matter.mkVector ((dx / dist) * maxV) ((dy / dist) * maxV))
  else
    Matter.setVelocity monster1 (hoverVelocity inp ai monster).

(** One iteration of [for (const monster of monstersRef.current)]: the
    AI record is mutated in place, so the registry keeps its keys. *)
Definition monsterStep (inp : TickInput) (player : Body)
    (acc : gmap Z MonsterAIState * list Body) (monster : Body)
  : gmap Z MonsterAIState * list Body :=
  match acc.1 !! Matter.id monster with
  | None => (acc.1, acc.2 ++ [monster])
  | Some ai =>
      match kind ai with
      | patrol =>
          let r := patrolStep ai monster in
          (<[Matter.id monster := r.1]> acc.1, acc.2 ++ [r.2])
      | flying =>
          (acc.1, acc.2 ++ [flyingStep inp ai player monster])
      end
  end.

Definition set_pDir (d : PatrolDirection) (ai : PlatformAI) : PlatformAI :=
  mkPlatformAI (pOriginX ai) (pRange ai) (pSpeed ai) d.

Definition platformStep (ai : PlatformAI) (platform : Body)
  : PlatformAI * Body :=
  let half := pRange ai / 2 in
  let px := Matter.x (Matter.position platform) in
  let ai1 := if Num.ltb px (pOriginX ai - half) then set_pDir dirPlus ai else ai in
  let ai2 := if Num.gtb px (pOriginX ai1 + half) then set_pDir dirMinus ai1 else ai1 in
  (ai2,
   Matter.setVelocity platform
     (Matter.mkVector (pSpeed ai2 * dirValue (pDir ai2)) 0)).

Definition aiController (inp : TickInput) (s : Sim) : Sim :=
  let r := foldl (monsterStep inp (playerRef s))
                 (monsterAIRef s, []) (monstersRef s) in
  let s1 := set_monstersRef r.2 (set_monsterAIRef r.1 s) in
  let p := platformStep (movingPlatformAIRef s1) (movingPlatformRef s1) in
  set_movingPlatformRef p.2 (set_movingPlatformAIRef p.1 s1).
End AIController.

(** ** Collision handler ([collisionStart]) *)

Section CollisionStart.
Import Matter.

(** [Matter.World.remove(engine.world, body)] *)
Definition worldRemove (body : Body) (s : Sim) : Sim :=
  set_world (filter (fun i => i ≠ id body) (world s)) s.

(** The body of the projectile-against-monster branch. *)
Definition removeHit (projectile monster : Body) (s : Sim) : Sim :=
  let s1 := worldRemove projectile s in
  let s2 := worldRemove monster s1 in
  let s3 := set_projectilesRef
              (filter (fun p => id p ≠ id projectile) (projectilesRef s2)) s2 in
  let s4 := set_monstersRef
              (filter (fun m => id m ≠ id monster) (monstersRef s3)) s3 in
  let s5 := set_monsterAIRef (delete (id monster) (monsterAIRef s4)) s4 in
  set_monsterStyleSeedRef (delete (id monster) (monsterStyleSeedRef s5)) s5.

Definition same (a b : Body) : bool := (id a =? id b)%Z.

(** The guarded transition [if (gameStateRef.current === 'playing')
    setGameState(v)]. *)
Definition guardedTransition (v : GameState) (s : Sim) : Sim :=
  if decide (gameStateRef s = playing) then setGameState v s else s.

(** The callback of [pairs.forEach]; the closure constants [torso] and
    [head] are the bodies that [playerRef] and [playerHeadRef] hold. *)
Definition handlePair (s : Sim) (pair : Pair) : Sim :=
  let isProjectileA := (label (bodyA pair) =? "projectile")%string in
  let isProjectileB := (label (bodyB pair) =? "projectile")%string in
  let isMonsterA := (label (bodyA pair) =? "monster")%string in
  let isMonsterB := (label (bodyB pair) =? "monster")%string in
  if (isProjectileA && isMonsterB) || (isProjectileB && isMonsterA) then
    let projectile := if isProjectileA then bodyA pair else bodyB pair in
    let monster := if isProjectileA then bodyB pair else bodyA pair in
    removeHit projectile monster s
  else
    let torso := playerRef s in
    let head := playerHeadRef s in
    let isPlayerTorso := same (bodyA pair) torso || same (bodyB pair) torso in
    let isPlayerHead := same (bodyA pair) head || same (bodyB pair) head in
    if isPlayerTorso || isPlayerHead then
      let otherBody :=
        if isPlayerTorso
        then (if same (bodyA pair) torso then bodyB pair else bodyA pair)
        else (if same (bodyA pair) head then bodyB pair else bodyA pair) in
      if (label otherBody =? "spike")%string then guardedTransition gameOver s
      else if (label otherBody =? "monster")%string then guardedTransition gameOver s
      else if (label otherBody =? "goal")%string then guardedTransition won s
      else s
    else s.

Definition collisionStart (pairs : list Pair) (s : Sim) : Sim :=
  foldl handlePair s pairs.
End CollisionStart.

(** ** Clean-up and fall detection ([afterUpdate]) *)

Section AfterUpdate.
Local Open Scope Q_scope.

Definition isOutOfBounds (p : Body) : bool :=
  let px := Matter.x (Matter.position p) in
  let py := Matter.y (Matter.position p) in
  Num.ltb px 0 || Num.gtb px LEVEL_LENGTH
  || Num.ltb py (-200) || Num.gtb py (WORLD_HEIGHT + 200).

(** The [filter] whose callback also removes the body from the world. *)
Definition cleanupProjectiles (s : Sim) : Sim :=
  let gone := filter (fun p => isOutOfBounds p = true) (projectilesRef s) in
  set_projectilesRef
    (filter (fun p => isOutOfBounds p = false) (projectilesRef s))
    (foldl (fun acc p => worldRemove p acc) s gone).

Definition fallCheck (s : Sim) : Sim :=
  if Num.gtb (Matter.y (Matter.position (playerRef s))) (WORLD_HEIGHT + 260)
     && bool_decide (gameStateRef s = playing)
  then setGameState gameOver s
  else s.

(** The camera follow that ends the handler only writes [cameraXRef] and
    the renderer bounds, which nothing in the simulation reads. *)
Definition afterUpdate (s : Sim) : Sim := fallCheck (cleanupProjectiles s).
End AfterUpdate.

(** ** The engine step itself

    Integration and collision response belong to Matter.js.  An engine step
    may move every tracked body: [k] gives the new position, velocity and
    force of a body; ids, labels, sensor flags, masses and air friction
    stay. *)

Definition moveBody (k : Body -> Body) (b : Body) : Body :=
  Matter.mkBody (Matter.id b) (Matter.label b) (Matter.isSensor b)
    (Matter.mass b) (Matter.frictionAir b) (Matter.position (k b))
    (Matter.velocity (k b)) (Matter.force (k b)).

Definition physics (k : Body -> Body) (s : Sim) : Sim :=
  mkSim (gameState s) (gameStateQueue s) (gameStateRef s) (keysRef s)
    (jumpStrengthRef s) (jumpWasDownRef s) (playerGroundedRef s)
    (playerFacingRef s) (moveBody k (playerRef s))
    (moveBody k (playerHeadRef s)) (moveBody k <$> monstersRef s)
    (monsterAIRef s) (monsterStyleSeedRef s)
    (moveBody k <$> projectilesRef s) (moveBody k (movingPlatformRef s))
    (movingPlatformAIRef s) (world s) (nextId s) (projectileMass s).

(** ** Runs

    The events of one mount; [ReactFlush] is the uninterrupted update. *)

Inductive Event :=
| KeyDown (code : string)
| KeyUp (code : string)
| PropsChanged (p : GameCanvasProps)
| BeforeUpdate (inp : TickInput)
| Physics (k : Body -> Body)
| CollisionStart (pairs : list Matter.Pair)
| AfterUpdate
| ReactFlush.

Definition step (s : Sim) (e : Event) : Sim :=
  match e with
  | KeyDown code => handleKeyDown code s
  | KeyUp code => handleKeyUp code s
  | PropsChanged p => syncJumpStrengthRef p s
  | BeforeUpdate inp => aiController inp (playerController inp s)
  | Physics k => physics k s
  | CollisionStart pairs => collisionStart pairs s
  | AfterUpdate => afterUpdate s
  | ReactFlush => flush s
  end.

Definition run (s : Sim) (es : list Event) : Sim := foldl step s es.

(** ** Set-up

    The bodies that the set-up code creates get their id and their mass
    from Matter.js; a [Substrate] records what the engine handed out. *)

Record Substrate := mkSubstrate {
  staticIds : list Z;          (* ground, walls, platforms, spikes, gate, goal *)
  movingPlatformNew : Z * Q;   (* id and mass of each dynamic body *)
  monster1New : Z * Q;
  monster2New : Z * Q;
  monster3New : Z * Q;
  torsoNew : Z * Q;
  headNew : Z * Q;
  firstFreeId : Z;
  circleMass : Q               (* mass of a radius-6 circle of density 0.0001 *)
}.

Module SetUp.
Local Open Scope Q_scope.

(** A body as [Matter.Bodies.rectangle] or [Matter.Bodies.circle] returns
    it: at rest, with the air friction given in the options. *)
Definition newBody (new : Z * Q) (label : string) (frictionAir px py : Q)
  : Body :=
  Matter.mkBody new.1 label false new.2 frictionAir (Matter.mkVector px py)
    (Matter.mkVector 0 0) (Matter.mkVector 0 0).

(** Matter's default for [frictionAir]. *)
Definition defaultFrictionAir : Q := 0.01.

(** [b.frictionAir = Math.max(b.frictionAir ?? 0, 0.02)]; the other
    assignments of [initMonsterPhysics] touch fields that are not
    modelled. *)
Definition initMonsterPhysics (b : Body) : Body :=
  Matter.mkBody (Matter.id b) (Matter.label b) (Matter.isSensor b)
    (Matter.mass b) (Qmax (Matter.frictionAir b) 0.02) (Matter.position b)
    (Matter.velocity b) (Matter.force b).

Definition styleSeed (i : Z) : Z := Z.rem (i * 9301 + 49297) 233280.

Definition monster1 (sub : Substrate) : Body :=
  initMonsterPhysics
    (newBody (monster1New sub) "monster" defaultFrictionAir
       1200 (WORLD_HEIGHT - 80)).
Definition monster2 (sub : Substrate) : Body :=
  initMonsterPhysics
    (newBody (monster2New sub) "monster" defaultFrictionAir
       3350 (WORLD_HEIGHT - 290)).
Definition monster3 (sub : Substrate) : Body :=
  initMonsterPhysics
    (newBody (monster3New sub) "monster" 0.01 5600 (WORLD_HEIGHT - 360)).

Definition monster1AI (sub : Substrate) : MonsterAIState :=
  mkMonsterAI patrol 1200 (Matter.y (Matter.position (monster1 sub)))
    240 2.2 dirPlus None None None.
Definition monster2AI (sub : Substrate) : MonsterAIState :=
  mkMonsterAI patrol 3350 (Matter.y (Matter.position (monster2 sub)))
    180 1.9 dirMinus None None None.
Definition monster3AI : MonsterAIState :=
  mkMonsterAI flying 5600 (WORLD_HEIGHT - 360) 0 2.6 dirPlus
    (Some 340) (Some 22) (Some 0.0022).

Definition playerX : Q := 120.
Definition playerY : Q := WORLD_HEIGHT - GROUND_HEIGHT - PLAYER_HEIGHT / 2.

(** The torso is created at [(playerX, playerY)];
    [Matter.Composites.stack], which calls the callback that returns it,
    then translates it by half its width and half its height (40 by
    [PLAYER_HEIGHT * 0.6]).  The head is added to the composite afterwards
    and is not translated. *)
Definition torso (sub : Substrate) : Body :=
  newBody (torsoNew sub) "Rectangle Body" 0.003
    (playerX + PLAYER_WIDTH * 0.5) (playerY + PLAYER_HEIGHT * 0.6 * 0.5).
Definition head (sub : Substrate) : Body :=
  newBody (headNew sub) "Circle Body" 0.003 playerX
    (playerY - PLAYER_HEIGHT * 0.4).
Definition movingPlatform (sub : Substrate) : Body :=
  newBody (movingPlatformNew sub) "movingPlatform" 0.02 3600
    (WORLD_HEIGHT - 320).

(** The state after the mount effects have run, for freshly created refs.
    The order of [world] is immaterial: it is only filtered. *)
Definition initial (props : GameCanvasProps) (sub : Substrate) : Sim :=
  let m1 := monster1 sub in
  let m2 := monster2 sub in
  let m3 := monster3 sub in
  let seeds0 : gmap Z Z := ∅ in
  let seeds1 := <[Matter.id m1 := styleSeed (Matter.id m1)]> seeds0 in
  let ai0 : gmap Z MonsterAIState := ∅ in
  let ai1 := <[Matter.id m1 := monster1AI sub]> ai0 in
  let seeds2 := <[Matter.id m2 := styleSeed (Matter.id m2)]> seeds1 in
  let ai2 := <[Matter.id m2 := monster2AI sub]> ai1 in
  let seeds3 := <[Matter.id m3 := styleSeed (Matter.id m3)]> seeds2 in
  let ai3 := <[Matter.id m3 := monster3AI]> ai2 in
  mkSim playing [] playing ∅ (effectiveJumpStrength props) false false
    dirPlus (torso sub) (head sub) [m1; m2; m3] ai3 seeds3 []
    (movingPlatform sub) (mkPlatformAI 3600 120 1.1 dirPlus)
    (staticIds sub
       ++ [Matter.id (torso sub); Matter.id (head sub);
           Matter.id (movingPlatform sub);
           Matter.id m1; Matter.id m2; Matter.id m3])
    (firstFreeId sub) (circleMass sub).

(** The set-up effect on refs that already hold something, as when it
    runs again after a change of [width] or [height] (its dependencies):
    the clean-up before it clears no ref.  The effect builds a new engine
    and new bodies, assigns [playerRef], [playerHeadRef], [monstersRef],
    [movingPlatformRef] and [movingPlatformAIRef], and calls [set] on the
    two registries, which are the same [Map] objects as before; it does
    not touch [projectilesRef], the keys, the flags, the jump strength or
    the game state. *)
Definition setUp (sub : Substrate) (s : Sim) : Sim :=
  let m1 := monster1 sub in
  let m2 := monster2 sub in
  let m3 := monster3 sub in
  let seeds1 := <[Matter.id m1 := styleSeed (Matter.id m1)]>
                  (monsterStyleSeedRef s) in
  let ai1 := <[Matter.id m1 := monster1AI sub]> (monsterAIRef s) in
  let seeds2 := <[Matter.id m2 := styleSeed (Matter.id m2)]> seeds1 in
  let ai2 := <[Matter.id m2 := monster2AI sub]> ai1 in
  let seeds3 := <[Matter.id m3 := styleSeed (Matter.id m3)]> seeds2 in
  let ai3 := <[Matter.id m3 := monster3AI]> ai2 in
  mkSim (gameState s) (gameStateQueue s) (gameStateRef s) (keysRef s)
    (jumpStrengthRef s) (jumpWasDownRef s) (playerGroundedRef s)
    (playerFacingRef s) (torso sub) (head sub) [m1; m2; m3] ai3 seeds3
    (projectilesRef s) (movingPlatform sub)
    (mkPlatformAI 3600 120 1.1 dirPlus)
    (staticIds sub
       ++ [Matter.id (torso sub); Matter.id (head sub);
           Matter.id (movingPlatform sub);
           Matter.id m1; Matter.id m2; Matter.id m3])
    (firstFreeId sub) (circleMass sub).

(** The refs as [useRef] and [useState] create them, once the two effects
    declared before the set-up effect have run.  The refs that are null
    until the set-up assigns them, and the engine's fields, are taken from
    [rest]; the set-up overwrites them. *)
Definition unmounted (props : GameCanvasProps) (rest : Sim) : Sim :=
  mkSim playing [] playing ∅ (effectiveJumpStrength props) false false
    dirPlus (playerRef rest) (playerHeadRef rest) [] ∅ ∅ []
    (movingPlatformRef rest) (movingPlatformAIRef rest) (world rest)
    (nextId rest) (projectileMass rest).
End SetUp.

Abbreviation initial := SetUp.initial.

(** ** Schedules

    React commits a render and runs the passive effect of that render
    afterwards; the engine can deliver events in between.  The set-up
    effect runs again, after its clean-up, when [width] or [height]
    changes. *)

Inductive Action :=
| Deliver (e : Event)
| Commit
| RunEffect
| SetUpAgain (sub : Substrate).

Definition act (s : Sim) (a : Action) : Sim :=
  match a with
  | Deliver e => step s e
  | Commit => render s
  | RunEffect => syncGameStateRef s
  | SetUpAgain sub => SetUp.setUp sub s
  end.

Definition play (s : Sim) (acts : list Action) : Sim := foldl act s acts.

Definition isSetUpAgain (a : Action) : bool :=
  match a with SetUpAgain _ => true | _ => false end.

(** ** A concrete level instance for closed examples *)

Module Sample.
Import SetUp.
Local Open Scope Q_scope.

(** Ids as Matter numbers them on a first mount: the world composite is 0,
    the 34 static bodies are 1 to 20 and 22 to 35, the moving platform is
    21, the monsters are 36 to 38, torso and head are 39 and 40, the player
    composite and the neck constraint take 41 and 42.  Masses are density
    times the area of the box or disc. *)
Definition sub : Substrate :=
  mkSubstrate
    (Z.of_nat <$> (seq 1 20 ++ seq 22 14)%nat)
    (21%Z, 2.8) (36%Z, 1.6) (37%Z, 1.6) (38%Z, 0.19) (39%Z, 1.44)
    (40%Z, 0.8) 43%Z 0.011.

(** Ids as Matter numbers them when the set-up effect runs again before
    the first tick: the counter stands at 43, the new world composite
    takes it, and every body gets its former id plus 43. *)
Definition again : Substrate :=
  mkSubstrate
    (Z.of_nat <$> (seq 44 20 ++ seq 65 14)%nat)
    (64%Z, 2.8) (79%Z, 1.6) (80%Z, 1.6) (81%Z, 0.19) (82%Z, 1.44)
    (83%Z, 0.8) 86%Z 0.011.

(** The game page passes [jumpStrength = 18] and no [jumpHeight]. *)
Definition props : GameCanvasProps := mkProps (Some 18) None.
Definition start : Sim := initial props sub.

Definition body (i : Z) (l : string) (sensor : bool) (m fa px py : Q)
  : Body :=
  Matter.mkBody i l sensor m fa (Matter.mkVector px py)
    (Matter.mkVector 0 0) (Matter.mkVector 0 0).

(** Three static bodies of the level; only id, label and sensor flag of a
    static body are ever read, its mass is left at 0. *)
Definition spike : Body := body 22 "spike" false 0 0.01 1100 550.
Definition goalSensor : Body := body 35 "goal" true 0 0.01 7740 460.
Definition ground : Body := body 1 "ground" false 0 0.01 450 575.

(** Stand-ins for [Math.hypot] and [Math.sin]: the square root is taken
    on the reduced fraction and is exact whenever the distance is
    rational; the samples keep the engine timestamp at 0, where the sine
    is 0. *)
Definition hypotQ (dx dy : Q) : Q :=
  let q := Qred (dx * dx + dy * dy) in
  Z.sqrt (Qnum q) # Pos.sqrt (Qden q).

Definition mathAtZero : MathEnv := mkMathEnv (fun _ => 0) hypotQ.

(** The ray hits a ground segment; gravity is [1.8 * 0.001]. *)
Definition onGround : TickInput := mkTickInput [ground] 0 0.0018 mathAtZero.

(** What [Matter.Body.update] does at the default 60 Hz step to a body
    that slides on level, frictionless ground (torso and monsters have
    friction 0): the velocity loses its air friction share and gains the
    accumulated force, the position gains the velocity, and the force is
    cleared.  [Qred] only keeps the fractions in lowest terms. *)
Definition slide (b : Body) : Body :=
  let deltaTimeSquared := (1000 / 60) * (1000 / 60) in
  let vx := Qred (Matter.x (Matter.velocity b) * (1 - Matter.frictionAir b)
                  + Matter.x (Matter.force b) / Matter.mass b
                    * deltaTimeSquared) in
  Matter.mkBody (Matter.id b) (Matter.label b) (Matter.isSensor b)
    (Matter.mass b) (Matter.frictionAir b)
    (Matter.mkVector (Qred (Matter.x (Matter.position b) + vx))
                     (Matter.y (Matter.position b)))
    (Matter.mkVector vx (Matter.y (Matter.velocity b)))
    (Matter.mkVector 0 0).

(** [n] engine updates on the ground, without collisions. *)
Definition groundTicks (n : nat) : list Event :=
  mjoin (replicate n [BeforeUpdate onGround; Physics slide; AfterUpdate]).
End Sample.

Module SampleJump.
Import Sample.

(** Running right for one tick, then Space goes down. *)
Definition beforePress : Sim :=
  run start (KeyDown "ArrowRight" :: groundTicks 1 ++ [KeyDown "Space"]).
End SampleJump.

Module SamplePatrol.
Import Sample.

(** Monster 1 one unit to the right of its window [[1080, 1320]]. *)
Definition overshot : Body := body 36 "monster" false 1.6 0.02 1321 520.
End SamplePatrol.

Module SampleHover.
Import Sample.

(** The flyer 100 units left of and below its origin, the player on the
    ground 468 units away: outside the chase radius of 340. *)
Definition strayFlyer : Body := body 38 "monster" false 0.19 0.02 5500 340.
Definition farPlayer : Body :=
  body 39 "Rectangle Body" false 1.44 0.003 5068 520.
End SampleHover.

Module SampleHit.
Import Sample.

(** One projectile has been fired from the start position; the flyer has
    been lured next to the platform patroller. *)
Definition armed : Sim := run start [KeyDown "KeyK"; BeforeUpdate onGround].
Definition projectile : Body :=
  Matter.mkBody 43 "projectile" false 0.011 0.01 (Matter.mkVector 164 538)
    (Matter.mkVector 15 0) (Matter.mkVector 0 0).
Definition patroller : Body := body 37 "monster" false 1.6 0.02 3350 310.
Definition luredFlyer : Body := body 38 "monster" false 0.19 0.02 3390 310.
End SampleHit.

(** ** Camera follow (end of the [afterUpdate] handler) *)

Section Camera.
Local Open Scope Q_scope.

(** [cameraXRef], [viewportWRef] and [viewportHRef]. *)
Record View := mkView {
  cameraXRef : Q;
  viewportWRef : Q;
  viewportHRef : Q
}.

(** [render.bounds]. *)
Record Bounds := mkBounds {
  minX : Q;
  maxX : Q;
  minY : Q;
  maxY : Q
}.

(** [clamp(targetX, levelStartX, Math.max(levelStartX, levelEndX - vw))] *)
Definition clampedTargetX (vw : Q) (player : Body) : Q :=
  let targetX := Matter.x (Matter.position player) - vw / 2 in
  let levelStartX := 0 in
  let levelEndX := LEVEL_LENGTH in
  clamp targetX levelStartX (Qmax levelStartX (levelEndX - vw)).

(** [cameraXRef.current += (clampedTargetX - cameraXRef.current) * 0.14] *)
Definition cameraFollow (v : View) (player : Body) : View :=
  mkView
    (cameraXRef v
     + (clampedTargetX (viewportWRef v) player - cameraXRef v) * 0.14)
    (viewportWRef v) (viewportHRef v).

(** The bounds the handler then writes into the renderer. *)
Definition renderBounds (v : View) : Bounds :=
  mkBounds (cameraXRef v) (cameraXRef v + viewportWRef v)
    (WORLD_HEIGHT - viewportHRef v) WORLD_HEIGHT.

(** The camera over successive ticks, given where the torso is at each. *)
Definition cameraRun (v : View) (players : list Body) : View :=
  foldl cameraFollow v players.

(** The [width] and [height] props, and the size of the browser window. *)
Record ViewportProps := mkViewportProps {
  propWidth : option Q;
  propHeight : option Q
}.
Record Window := mkWindow { innerWidth : Q; innerHeight : Q }.

(** The viewport the set-up effect resolves; [cameraXRef] starts at 0. *)
Definition mountView (vp : ViewportProps) (win : Window) : View :=
  let initialW := match propWidth vp with Some w => w | None => innerWidth win end in
  let initialH := match propHeight vp with Some h => h | None => innerHeight win end in
  mkView 0 initialW initialH.

(** [handleResize], for a mounted renderer. *)
Definition handleResize (vp : ViewportProps) (win : Window) (v : View)
  : View :=
  match propWidth vp, propHeight vp with
  | Some _, Some _ => v
  | _, _ => mkView (cameraXRef v) (innerWidth win) (innerHeight win)
  end.
End Camera.

(** ** Scroll suppression in the window listeners *)

Definition isScrollKey (code : string) : bool :=
  (code =? "ArrowUp")%string || (code =? "ArrowDown")%string
  || (code =? "ArrowLeft")%string || (code =? "ArrowRight")%string
  || (code =? "Space")%string.

(** [isGameActive]: [el] is [None] when [containerRef.current] is null,
    and otherwise says whether the container holds the focus. *)
Definition isGameActive (el : option bool) (s : Sim) : bool :=
  match el with
  | None => true
  | Some focused => focused && bool_decide (gameStateRef s = playing)
  end.

(** Whether [handleKeyDown] and [handleKeyUp] call [preventDefault]. *)
Definition keyPreventsDefault (el : option bool) (code : string) (s : Sim)
  : bool :=
  isScrollKey code && isGameActive el s.

(** Whether [handleTouchMoveOrWheel] calls [preventDefault]. *)
Definition scrollPreventsDefault (el : option bool) (s : Sim) : bool :=
  isGameActive el s.

(** ** Ground tiling of the set-up *)

Section Ground.
Local Open Scope Q_scope.

(** One ground segment: the centre and the width given to
    [Matter.Bodies.rectangle]. *)
Record Segment := mkSegment { segX : Q; segW : Q }.

(** The loop that builds [groundSegments], for a level of [levelLength]
    tiled with segments of [segmentWidth]. *)
Definition groundSegmentsOf (levelLength segmentWidth : Q) : list Segment :=
  let segmentCount := Qceiling (levelLength / segmentWidth) in
  (fun i : nat =>
     mkSegment (inject_Z (Z.of_nat i) * segmentWidth + segmentWidth / 2)
               (segmentWidth + 2))
  <$> seq 0 (Z.to_nat segmentCount).

Definition groundSegments : list Segment := groundSegmentsOf LEVEL_LENGTH 900.

(** [x] lies over the segment. *)
Definition covers (g : Segment) (x : Q) : Prop :=
  segX g - segW g / 2 <= x ∧ x <= segX g + segW g / 2.
End Ground.

(** ** Predicates used to state the properties *)

(** What a handler may do to the game state: leave [gameState] and
    [gameStateRef] alone and append [l] to the queue. *)
Definition enqueues (s s' : Sim) (l : list GameState) : Prop :=
  gameState s' = gameState s
  ∧ gameStateRef s' = gameStateRef s
  ∧ gameStateQueue s' = gameStateQueue s ++ l.

(** The transition a guarded call contributes, given the ref it reads. *)
Definition accepted (ref : GameState) (v : GameState) : list GameState :=
  if decide (ref = playing) then [v] else [].

(** The terminal state a pair asks for, if any: what the callback queues
    for it when nothing is queued and the ref reads [playing]. *)
Definition verdict (s : Sim) (pair : Matter.Pair) : option GameState :=
  let s' := handlePair (set_gameStateQueue [] (set_gameStateRef playing s)) pair in
  head (gameStateQueue s').

(** Everything but the torso, the facing and the ground flag agrees. *)
Definition sameControls (s s' : Sim) : Prop :=
  gameState s' = gameState s
  ∧ gameStateQueue s' = gameStateQueue s
  ∧ gameStateRef s' = gameStateRef s
  ∧ keysRef s' = keysRef s
  ∧ jumpWasDownRef s' = jumpWasDownRef s
  ∧ jumpStrengthRef s' = jumpStrengthRef s
  ∧ playerHeadRef s' = playerHeadRef s
  ∧ Matter.id (playerRef s') = Matter.id (playerRef s)
  ∧ monstersRef s' = monstersRef s
  ∧ monsterAIRef s' = monsterAIRef s
  ∧ monsterStyleSeedRef s' = monsterStyleSeedRef s
  ∧ projectilesRef s' = projectilesRef s
  ∧ nextId s' = nextId s.

(** The mirror ref lags behind the state: it reads [playing] for as long
    as the state is [playing], and nothing queued is [playing]. *)
Definition lagging (s : Sim) : Prop :=
  (gameState s = playing -> gameStateRef s = playing)
  ∧ Forall (fun v => v ≠ playing) (gameStateQueue s).

(** The mirror ref reads a terminal state and nothing is queued. *)
Definition mirrored (s : Sim) : Prop :=
  gameStateRef s ≠ playing ∧ gameStateQueue s = [].

(** The events that run the [beforeUpdate] handlers. *)
Definition isBeforeUpdate (e : Event) : bool :=
  match e with BeforeUpdate _ => true | _ => false end.

(** The ground flag of a tick, as the handler computes it. *)
Definition grounded (inp : TickInput) (s : Sim) : bool := groundCheck inp s.

Definition trackedIds (s : Sim) : gset Z :=
  list_to_set (Matter.id <$> monstersRef s).

(** No id occurs twice in a tracking list, and the id counter is ahead of
    every projectile. *)
Definition trackingUnique (s : Sim) : Prop :=
  NoDup (Matter.id <$> monstersRef s)
  ∧ NoDup (Matter.id <$> projectilesRef s)
  ∧ Forall (fun p => (Matter.id p < nextId s)%Z) (projectilesRef s).

(** The AI registry and the style-seed registry have exactly the ids of
    the tracked monsters as keys. *)
Definition registryConsistent (s : Sim) : Prop :=
  dom (monsterAIRef s) = trackedIds s
  ∧ dom (monsterStyleSeedRef s) = trackedIds s.

(** Every tracked monster has a record in both registries. *)
Definition covered (s : Sim) : Prop :=
  trackedIds s ⊆ dom (monsterAIRef s)
  ∧ trackedIds s ⊆ dom (monsterStyleSeedRef s).

Module SampleFire.
Import Sample.

(** Facing right at the start, Left and K go down before the first tick. *)
Definition turning : Sim := run start [KeyDown "ArrowLeft"; KeyDown "KeyK"].
End SampleFire.

(** ** Predicates for the clean-up, the listeners and the AI records *)

(** The box outside which the clean-up drops a projectile; its edges
    belong to it. *)
Definition inBounds (p : Body) : Prop :=
  (0 <= Matter.x (Matter.position p) <= LEVEL_LENGTH
   ∧ -200 <= Matter.y (Matter.position p) <= WORLD_HEIGHT + 200)%Q.

(** The events that run a key listener. *)
Definition isKeyEvent (e : Event) : bool :=
  match e with KeyDown _ | KeyUp _ => true | _ => false end.

(** Two AI records differ in their direction at most. *)
Definition sameTuning (ai ai0 : MonsterAIState) : Prop :=
  kind ai = kind ai0 ∧ originX ai = originX ai0 ∧ originY ai = originY ai0
  ∧ range ai = range ai0 ∧ speed ai = speed ai0
  ∧ chaseRadius ai = chaseRadius ai0 ∧ hoverAmp ai = hoverAmp ai0
  ∧ hoverFreq ai = hoverFreq ai0.

(** The same contact reported with its two bodies exchanged. *)
Definition swapPair (pair : Matter.Pair) : Matter.Pair :=
  Matter.mkPair (Matter.bodyB pair) (Matter.bodyA pair).

(** What neither controller ever writes on a body. *)
Definition untouched (b : Body) : Z * string * bool * Q * Q * Vector :=
  (Matter.id b, Matter.label b, Matter.isSensor b, Matter.mass b,
   Matter.frictionAir b, Matter.position b).

(** [s'] holds nothing that [s] did not hold: every AI record of [s'] is
    one of [s] up to its direction, every style seed of [s'] is one of
    [s], every monster tracked in [s'] was tracked in [s], and there are
    no more of them. *)
Definition descends (s s' : Sim) : Prop :=
  (forall i ai, monsterAIRef s' !! i = Some ai ->
     exists ai0, monsterAIRef s !! i = Some ai0 ∧ sameTuning ai ai0)
  ∧ monsterStyleSeedRef s' ⊆ monsterStyleSeedRef s
  ∧ trackedIds s' ⊆ trackedIds s
  ∧ (length (monstersRef s') <= length (monstersRef s))%nat.

(** A [keydown], respectively a [keyup], of the key [code]. *)
Definition presses (code : string) (e : Event) : bool :=
  match e with KeyDown c => (c =? code)%string | _ => false end.
Definition releases (code : string) (e : Event) : bool :=
  match e with KeyUp c => (c =? code)%string | _ => false end.

(** The test that opens the pair callback: one body is labelled
    [projectile] and the other [monster]. *)
Definition projectileMeetsMonster (pair : Matter.Pair) : bool :=
  let isProjectileA := (Matter.label (Matter.bodyA pair) =? "projectile")%string in
  let isProjectileB := (Matter.label (Matter.bodyB pair) =? "projectile")%string in
  let isMonsterA := (Matter.label (Matter.bodyA pair) =? "monster")%string in
  let isMonsterB := (Matter.label (Matter.bodyB pair) =? "monster")%string in
  (isProjectileA && isMonsterB) || (isProjectileB && isMonsterA).

(** The props of the latest render among the events, [props] if none. *)
Definition latestProps (props : GameCanvasProps) (es : list Event)
  : GameCanvasProps :=
  foldl (fun p e => match e with PropsChanged q => q | _ => p end) props es.

(** Every tracked monster is labelled [monster] and has the air friction
    of [initMonsterPhysics]; every tracked projectile is labelled
    [projectile]. *)
Definition labelled (s : Sim) : Prop :=
  Forall (fun m => Matter.label m = "monster"
                   ∧ (0.02 <= Matter.frictionAir m)%Q) (monstersRef s)
  ∧ Forall (fun p => Matter.label p = "projectile") (projectilesRef s).

Module SampleChase.
Import Sample.

(** The flyer 100 units left of and below its origin, the torso in the
    air 130 units away: inside the chase radius of 340. *)
Definition nearPlayer : Body :=
  body 39 "Rectangle Body" false 1.44 0.003 5380 290.
Definition tick : TickInput := mkTickInput [] 0 0.0018 mathAtZero.
End SampleChase.

(** * Properties *)

(** ** Comparisons *)

Module NumFacts.
Lemma gtb_true a b : Num.gtb a b = true <-> (b < a)%Q.
Proof.
  unfold Num.gtb. rewrite negb_true_iff, <- not_true_iff_false, Qle_bool_iff.
  split; [apply Qnot_le_lt | apply Qlt_not_le].
Qed.

Lemma gtb_false a b : Num.gtb a b = false <-> (a <= b)%Q.
Proof. unfold Num.gtb. rewrite negb_false_iff. apply Qle_bool_iff. Qed.

Lemma ltb_true a b : Num.ltb a b = true <-> (a < b)%Q.
Proof. apply gtb_true. Qed.

Lemma ltb_false a b : Num.ltb a b = false <-> (b <= a)%Q.
Proof. apply gtb_false. Qed.
End NumFacts.

Example initial_jump : jumpStrengthRef Sample.start = 18%Q.
Proof. reflexivity. Qed.

Example initial_lookup :
  monsterAIRef Sample.start !! 38%Z = Some SetUp.monster3AI.
Proof. vm_compute. reflexivity. Qed.


(** ** The game state and its guard *)

Section GameStateFacts.
Lemma enqueues_refl s : enqueues s s [].
Proof. unfold enqueues. by rewrite app_nil_r. Qed.

Lemma enqueues_trans s1 s2 s3 l1 l2 :
  enqueues s1 s2 l1 -> enqueues s2 s3 l2 -> enqueues s1 s3 (l1 ++ l2).
Proof.
  intros (Ha & Hb & Hc) (Ha' & Hb' & Hc'). unfold enqueues.
  rewrite Ha', Hb', Hc', Hc, Ha, Hb, app_assoc. done.
Qed.

Lemma enqueues_silent s s' :
  gameState s' = gameState s -> gameStateRef s' = gameStateRef s ->
  gameStateQueue s' = gameStateQueue s -> enqueues s s' [].
Proof. intros Ha Hb Hc. unfold enqueues. by rewrite Ha, Hb, Hc, app_nil_r. Qed.

Lemma guardedTransition_enqueues v s :
  enqueues s (guardedTransition v s) (accepted (gameStateRef s) v).
Proof.
  unfold guardedTransition, accepted.
  destruct (decide (gameStateRef s = playing)); [|apply enqueues_refl].
  by unfold enqueues.
Qed.

Lemma removeHit_silent p m s : enqueues s (removeHit p m s) [].
Proof. by apply enqueues_silent. Qed.

Lemma handlePair_enqueues s pair :
  enqueues s (handlePair s pair)
    (match verdict s pair with
     | Some v => accepted (gameStateRef s) v
     | None => []
     end).
Proof.
  unfold verdict, handlePair. cbn [playerRef playerHeadRef set_gameStateQueue
    set_gameStateRef].
  repeat match goal with
  | |- context [if ?b then _ else _] =>
      lazymatch b with
      | decide _ => fail
      | _ => destruct b eqn:?
      end
  end; cbn; try apply removeHit_silent; try apply enqueues_refl;
    apply guardedTransition_enqueues.
Qed.
End GameStateFacts.

(** ** What the player controller leaves alone *)

Ltac split_ifs :=
  repeat match goal with
  | |- context [if ?b then _ else _] => destruct b eqn:?
  end.

Section ControllerFrame.
Lemma sameControls_trans s1 s2 s3 :
  sameControls s1 s2 -> sameControls s2 s3 -> sameControls s1 s3.
Proof.
  unfold sameControls. intros H H'. destruct_and!.
  repeat split; congruence.
Qed.

Lemma facingStep_frame axis s :
  sameControls s (facingStep axis s)
  ∧ playerRef (facingStep axis s) = playerRef s
  ∧ playerGroundedRef (facingStep axis s) = playerGroundedRef s.
Proof. unfold facingStep, sameControls. split_ifs; done. Qed.

Lemma movementStep_frame g axis s :
  sameControls s (movementStep g axis s)
  ∧ playerGroundedRef (movementStep g axis s) = playerGroundedRef s.
Proof. unfold movementStep, sameControls. split_ifs; done. Qed.

Lemma clampStep_frame g s :
  sameControls s (clampStep g s)
  ∧ playerGroundedRef (clampStep g s) = playerGroundedRef s.
Proof. unfold clampStep, sameControls. split_ifs; done. Qed.

Lemma fireStep_player s :
  playerRef (fireStep s) = playerRef s
  ∧ playerHeadRef (fireStep s) = playerHeadRef s
  ∧ jumpWasDownRef (fireStep s) = jumpWasDownRef s
  ∧ jumpStrengthRef (fireStep s) = jumpStrengthRef s.
Proof. unfold fireStep. by destruct (key s "KeyK"). Qed.

Lemma fireStep_gameState s :
  gameState (fireStep s) = gameState s
  ∧ gameStateQueue (fireStep s) = gameStateQueue s
  ∧ gameStateRef (fireStep s) = gameStateRef s.
Proof. unfold fireStep. by destruct (key s "KeyK"). Qed.

Lemma jumpStep_gameState g s :
  gameState (jumpStep g s) = gameState s
  ∧ gameStateQueue (jumpStep g s) = gameStateQueue s
  ∧ gameStateRef (jumpStep g s) = gameStateRef s.
Proof. unfold jumpStep. split_ifs; done. Qed.

Lemma fireStep_registry s :
  monstersRef (fireStep s) = monstersRef s
  ∧ monsterAIRef (fireStep s) = monsterAIRef s
  ∧ monsterStyleSeedRef (fireStep s) = monsterStyleSeedRef s.
Proof. unfold fireStep. by destruct (key s "KeyK"). Qed.

Lemma castRay_nextId s : nextId (castRay s) = (nextId s + 1)%Z.
Proof. done. Qed.

(** The ray only takes an id: the state after the fire block and the ray
    agrees with the state after the fire block on everything else. *)
Lemma rayed_player s :
  playerRef (castRay (fireStep s)) = playerRef s
  ∧ playerHeadRef (castRay (fireStep s)) = playerHeadRef s
  ∧ jumpWasDownRef (castRay (fireStep s)) = jumpWasDownRef s
  ∧ jumpStrengthRef (castRay (fireStep s)) = jumpStrengthRef s.
Proof. exact (fireStep_player s). Qed.

Lemma rayed_gameState s :
  gameState (castRay (fireStep s)) = gameState s
  ∧ gameStateQueue (castRay (fireStep s)) = gameStateQueue s
  ∧ gameStateRef (castRay (fireStep s)) = gameStateRef s.
Proof. exact (fireStep_gameState s). Qed.

Lemma rayed_registry s :
  monstersRef (castRay (fireStep s)) = monstersRef s
  ∧ monsterAIRef (castRay (fireStep s)) = monsterAIRef s
  ∧ monsterStyleSeedRef (castRay (fireStep s)) = monsterStyleSeedRef s.
Proof. exact (fireStep_registry s). Qed.

Lemma jumpStep_registry g s :
  monstersRef (jumpStep g s) = monstersRef s
  ∧ monsterAIRef (jumpStep g s) = monsterAIRef s
  ∧ monsterStyleSeedRef (jumpStep g s) = monsterStyleSeedRef s.
Proof. unfold jumpStep. split_ifs; done. Qed.

(** The movement and clamp block, from the state after the ground check. *)
Lemma jumpStep_tracking g s :
  projectilesRef (jumpStep g s) = projectilesRef s
  ∧ nextId (jumpStep g s) = nextId s.
Proof. unfold jumpStep. split_ifs; done. Qed.

Lemma movement_block_frame g axis s :
  sameControls s
    (clampStep g (movementStep g axis
       (facingStep axis (set_playerGroundedRef g s))))
  ∧ playerGroundedRef
      (clampStep g (movementStep g axis
         (facingStep axis (set_playerGroundedRef g s)))) = g.
Proof.
  set (s2 := set_playerGroundedRef g s).
  assert (sameControls s s2) as H0 by done.
  destruct (facingStep_frame axis s2) as (H1 & _ & G1).
  destruct (movementStep_frame g axis (facingStep axis s2)) as (H2 & G2).
  destruct (clampStep_frame g (movementStep g axis (facingStep axis s2)))
    as (H3 & G3).
  split.
  - eauto using sameControls_trans.
  - by rewrite G3, G2, G1.
Qed.

Lemma playerController_registry inp s :
  monstersRef (playerController inp s) = monstersRef s
  ∧ monsterAIRef (playerController inp s) = monsterAIRef s
  ∧ monsterStyleSeedRef (playerController inp s) = monsterStyleSeedRef s.
Proof.
  unfold playerController. cbn zeta.
  set (g := groundCheck inp (castRay (fireStep s))).
  set (a := axisOf _).
  destruct (movement_block_frame g a (castRay (fireStep s))) as (H & _).
  unfold sameControls in H. destruct_and!.
  set (s5 := clampStep g _) in *.
  destruct (jumpStep_registry g s5) as (J1 & J2 & J3).
  destruct (rayed_registry s) as (F1 & F2 & F3).
  repeat split; congruence.
Qed.

(** Only the fire block of the handler touches the projectile list; the
    id counter is advanced by the fire block and, once, by the ray. *)
Lemma playerController_tracking inp s :
  projectilesRef (playerController inp s) = projectilesRef (fireStep s)
  ∧ nextId (playerController inp s) = (nextId (fireStep s) + 1)%Z.
Proof.
  unfold playerController. cbn zeta.
  set (g := groundCheck inp (castRay (fireStep s))).
  set (a := axisOf _).
  destruct (movement_block_frame g a (castRay (fireStep s))) as (H & _).
  unfold sameControls in H. destruct_and!.
  set (s5 := clampStep g _) in *.
  destruct (jumpStep_tracking g s5) as (J1 & J2).
  split.
  - transitivity (projectilesRef (castRay (fireStep s))); [congruence|done].
  - rewrite <- (castRay_nextId (fireStep s)). congruence.
Qed.

Lemma playerController_frame inp s :
  gameState (playerController inp s) = gameState s
  ∧ gameStateQueue (playerController inp s) = gameStateQueue s
  ∧ gameStateRef (playerController inp s) = gameStateRef s
  ∧ playerHeadRef (playerController inp s) = playerHeadRef s
  ∧ Matter.id (playerRef (playerController inp s)) = Matter.id (playerRef s).
Proof.
  unfold playerController. cbn zeta.
  set (g := groundCheck inp (castRay (fireStep s))).
  set (a := axisOf _).
  destruct (movement_block_frame g a (castRay (fireStep s)))
    as ((H1 & H2 & H3 & _ & _ & _ & H7 & H8 & _) & _).
  set (s5 := clampStep g _) in *.
  destruct (jumpStep_gameState g s5) as (J1 & J2 & J3).
  destruct (rayed_gameState s) as (F1 & F2 & F3).
  destruct (rayed_player s) as (F4 & F5 & _).
  rewrite J1, J2, J3, H1, H2, H3, F1, F2, F3.
  repeat split; try done.
  - transitivity (playerHeadRef s5); [|by rewrite H7].
    unfold jumpStep. split_ifs; done.
  - transitivity (Matter.id (playerRef s5)); [|by rewrite H8, F4].
    unfold jumpStep. split_ifs; done.
Qed.
End ControllerFrame.

Section WriteOnce.
Lemma collisionStart_enqueues pairs : forall s,
  exists l, enqueues s (collisionStart pairs s) l
    ∧ (gameStateRef s ≠ playing -> l = [])
    ∧ Forall (fun v => v ≠ playing) l.
Proof.
  unfold collisionStart.
  induction pairs as [|pair pairs IH]; intros s; cbn [foldl].
  - exists []. split; [apply enqueues_refl | done].
  - pose proof (handlePair_enqueues s pair) as H1.
    destruct (IH (handlePair s pair)) as (l2 & H2 & Hno & Hall).
    eexists. split; [exact (enqueues_trans _ _ _ _ _ H1 H2)|].
    destruct H1 as (_ & Href & _). rewrite Href in Hno. split.
    + intros Hne. rewrite (Hno Hne), app_nil_r.
      unfold accepted. destruct (verdict s pair); [|done].
      by destruct (decide (gameStateRef s = playing)).
    + apply Forall_app. split; [|done].
      unfold verdict, handlePair, accepted, guardedTransition, setGameState.
      cbn [playerRef playerHeadRef set_gameStateQueue set_gameStateRef
           gameStateRef gameStateQueue].
      repeat match goal with
      | |- context [if ?b then _ else _] => destruct b
      end; cbn; repeat constructor; done.
Qed.

Lemma worldRemove_silent b s : enqueues s (worldRemove b s) [].
Proof. by apply enqueues_silent. Qed.

Lemma worldRemove_all_silent gone : forall s,
  enqueues s (foldl (fun acc p => worldRemove p acc) s gone) [].
Proof.
  induction gone as [|p gone IH]; intros s; cbn [foldl].
  - apply enqueues_refl.
  - exact (enqueues_trans _ _ _ _ _ (worldRemove_silent p s) (IH _)).
Qed.

Lemma cleanupProjectiles_silent s : enqueues s (cleanupProjectiles s) [].
Proof.
  unfold cleanupProjectiles.
  destruct (worldRemove_all_silent
              (filter (fun p => isOutOfBounds p = true) (projectilesRef s)) s)
    as (Ha & Hb & Hc).
  rewrite app_nil_r in Hc. by apply enqueues_silent.
Qed.

Lemma fallCheck_enqueues s :
  exists l, enqueues s (fallCheck s) l
    ∧ (gameStateRef s ≠ playing -> l = [])
    ∧ Forall (fun v => v ≠ playing) l.
Proof.
  unfold fallCheck.
  destruct (Num.gtb _ _); cbn [andb].
  - destruct (bool_decide_reflect (gameStateRef s = playing)).
    + exists [gameOver]. split; [by unfold enqueues|].
      split; [done | by repeat constructor].
    + exists []. split; [apply enqueues_refl | done].
  - exists []. split; [apply enqueues_refl | done].
Qed.

Lemma playerController_silent inp s : enqueues s (playerController inp s) [].
Proof.
  destruct (playerController_frame inp s) as (Ha & Hb & Hc & _).
  by apply enqueues_silent.
Qed.

Lemma aiController_silent inp s : enqueues s (aiController inp s) [].
Proof. by apply enqueues_silent. Qed.

(** A render leaves the last queued value, or the old state if none. *)
Lemma render_last_wins s :
  gameState (render s) = default (gameState s) (last (gameStateQueue s)).
Proof.
  unfold render. cbn [gameState set_gameStateQueue set_gameState].
  generalize (gameState s).
  induction (gameStateQueue s) as [|v l IH]; intros g; [done|].
  cbn [foldl]. rewrite IH. destruct l as [|w l]; [done|].
  change (last (v :: w :: l)) with (last (w :: l)).
  destruct (last (w :: l)) eqn:E; [done|].
  by apply last_None in E.
Qed.

(** What an event other than a React update does to the game state. *)
Lemma step_enqueues s e :
  match e with
  | ReactFlush => True
  | _ => exists l, enqueues s (step s e) l
           ∧ (gameStateRef s ≠ playing -> l = [])
           ∧ Forall (fun v => v ≠ playing) l
  end.
Proof.
  destruct e as [code|code|p|inp|k|pairs| |]; cbn [step]; try done.
  - exists []. by split; [apply enqueues_silent|].
  - exists []. by split; [apply enqueues_silent|].
  - exists []. by split; [apply enqueues_silent|].
  - exists ([] ++ []). split; [|done].
    exact (enqueues_trans _ _ _ _ _ (playerController_silent inp s)
             (aiController_silent inp _)).
  - exists []. by split; [apply enqueues_silent|].
  - exact (collisionStart_enqueues pairs s).
  - unfold afterUpdate.
    pose proof (cleanupProjectiles_silent s) as H1.
    destruct (fallCheck_enqueues (cleanupProjectiles s)) as (l & He & Hno & Hl).
    exists ([] ++ l). split; [exact (enqueues_trans _ _ _ _ _ H1 He)|].
    split; [|done]. destruct H1 as (_ & Hb & _). by rewrite Hb in Hno.
Qed.

Lemma lagging_enqueues s s' l :
  lagging s -> enqueues s s' l -> Forall (fun v => v ≠ playing) l ->
  lagging s'.
Proof.
  intros [Hlag Hq] (Ha & Hb & Hc) Hl. unfold lagging.
  rewrite Ha, Hb, Hc. split; [done|]. by apply Forall_app.
Qed.

Lemma render_terminal s :
  Forall (fun v => v ≠ playing) (gameStateQueue s) ->
  gameState (render s) = playing ->
  gameState s = playing ∧ gameStateQueue s = [].
Proof.
  intros Hq. rewrite render_last_wins.
  destruct (last (gameStateQueue s)) as [v|] eqn:Hlast; cbn [default].
  - intros Hv. apply last_Some_elem_of in Hlast.
    by apply (proj1 (Forall_forall _ _) Hq) in Hlast.
  - apply last_None in Hlast. by intros Hv.
Qed.

Lemma lagging_render s : lagging s -> lagging (render s).
Proof.
  intros [Hlag Hq]. split; [|constructor].
  intros Hr. destruct (render_terminal s Hq Hr) as [Hs _]. by apply Hlag.
Qed.

Lemma lagging_sync s : lagging s -> lagging (syncGameStateRef s).
Proof. by intros [Hlag Hq]. Qed.

Lemma lagging_act s a : lagging s -> lagging (act s a).
Proof.
  intros H. destruct a as [e| | |sub]; cbn [act].
  - pose proof (step_enqueues s e) as He.
    destruct e; try (destruct He as (l & He & _ & Hl);
                     by apply (lagging_enqueues s _ l)).
    cbn [step]. by apply lagging_sync, lagging_render.
  - by apply lagging_render.
  - by apply lagging_sync.
  - done.
Qed.

Lemma lagging_initial props sub : lagging (initial props sub).
Proof. split; [done | constructor]. Qed.

Lemma lagging_play acts : forall s, lagging s -> lagging (play s acts).
Proof.
  unfold play. induction acts as [|a acts IH]; intros s H; cbn [foldl];
    [done|].
  by apply IH, lagging_act.
Qed.

(** The state never returns to [playing]. *)
Lemma terminal_act s a :
  lagging s -> gameState s ≠ playing -> gameState (act s a) ≠ playing.
Proof.
  intros [Hlag Hq] Hs.
  assert (gameState (render s) ≠ playing) as Hr.
  { intros Hr. by destruct (render_terminal s Hq Hr). }
  destruct a as [e| | |sub]; cbn [act]; try done.
  pose proof (step_enqueues s e) as He.
  destruct e; try (destruct He as (l & (Ha & _) & _); by rewrite Ha).
  done.
Qed.

(** Once the mirror ref reads a terminal state and nothing is queued,
    nothing changes the game state any more. *)
Lemma mirrored_act s a :
  lagging s -> mirrored s ->
  mirrored (act s a) ∧ gameState (act s a) = gameState s.
Proof.
  intros [Hlag Hq] [Href Hempty].
  assert (gameState s ≠ playing) as Hs by (intros Hs; by apply Href, Hlag).
  assert (render s = s) as Hrender.
  { unfold render. rewrite Hempty. cbn [foldl]. rewrite <- Hempty.
    by destruct s. }
  destruct a as [e| | |sub]; cbn [act]; try done.
  - pose proof (step_enqueues s e) as He.
    destruct e;
      try (destruct He as (l & (Ha & Hb & Hc) & Hno & _);
           rewrite (Hno Href), app_nil_r in Hc;
           unfold mirrored; by rewrite Ha, Hb, Hc).
    cbn [step]. unfold flush. by rewrite Hrender.
  - by rewrite Hrender.
Qed.

Lemma mirrored_play acts : forall s,
  lagging s -> mirrored s ->
  mirrored (play s acts) ∧ gameState (play s acts) = gameState s.
Proof.
  unfold play. induction acts as [|a acts IH]; intros s Hl Hm; cbn [foldl];
    [done|].
  destruct (mirrored_act s a Hl Hm) as [Hm' Hkeep].
  destruct (IH _ (lagging_act s a Hl) Hm') as [Hm'' Hkeep'].
  split; [done|]. by rewrite Hkeep'.
Qed.

Lemma terminal_play acts : forall s,
  lagging s -> gameState s ≠ playing -> gameState (play s acts) ≠ playing.
Proof.
  unfold play. induction acts as [|a acts IH]; intros s Hl Hs; cbn [foldl];
    [done|].
  apply IH; [by apply lagging_act | by apply terminal_act].
Qed.
End WriteOnce.

(** C1. The code at a tick that falls between React's commit and the
    effect that mirrors the state: a monster contact ends the game and the
    render shows [gameOver]; the mirror ref still reads [playing], so the
    goal contact of the next tick passes the guard; after the effect and
    the next render the state is [won].  The state has changed twice. *)
Theorem terminal_state_changes_before_effect :
  let hit := Matter.mkPair (playerRef Sample.start)
               (SetUp.monster3 Sample.sub) in
  let goal := Matter.mkPair Sample.goalSensor (playerRef Sample.start) in
  let s1 := play Sample.start
              [Deliver (CollisionStart [hit]); Deliver AfterUpdate; Commit] in
  let s2 := play s1
              [Deliver (CollisionStart [goal]); Deliver AfterUpdate;
               RunEffect; Commit; RunEffect] in
  gameState Sample.start = playing
  ∧ gameState s1 = gameOver ∧ gameStateRef s1 = playing
  ∧ gameState s2 = won.
Proof. vm_compute. done. Qed.

(** ** One batch of collision pairs *)

Section Batch.
Lemma handlePair_player s pair :
  playerRef (handlePair s pair) = playerRef s
  ∧ playerHeadRef (handlePair s pair) = playerHeadRef s.
Proof.
  unfold handlePair, guardedTransition.
  repeat match goal with
  | |- context [if ?b then _ else _] => destruct b
  end; done.
Qed.

Lemma verdict_stable s pair q :
  verdict (handlePair s pair) q = verdict s q.
Proof.
  destruct (handlePair_player s pair) as [Ht Hh].
  unfold verdict. unfold handlePair at 1 3.
  cbn [playerRef playerHeadRef set_gameStateQueue set_gameStateRef].
  rewrite Ht, Hh.
  repeat match goal with
  | |- context [if ?b then _ else _] =>
      lazymatch b with
      | context [handlePair] => fail
      | _ => destruct b
      end
  end; reflexivity.
Qed.

Lemma omap_cons_eq {A B} (f : A -> option B) (a : A) (l : list A) :
  omap f (a :: l)
  = match f a with Some b => b :: omap f l | None => omap f l end.
Proof. reflexivity. Qed.

(** While the ref reads [playing], every pair with a verdict queues it:
    the guard does not see the transitions queued earlier in the batch. *)
Lemma collisionStart_queue pairs : forall s,
  gameStateRef s = playing ->
  gameStateQueue (collisionStart pairs s)
  = gameStateQueue s ++ omap (verdict s) pairs.
Proof.
  unfold collisionStart.
  induction pairs as [|pair pairs IH]; intros s Href; cbn [foldl].
  - by rewrite app_nil_r.
  - destruct (handlePair_enqueues s pair) as (_ & Hb & Hc).
    rewrite IH by (by rewrite Hb). rewrite Hc.
    assert (omap (verdict (handlePair s pair)) pairs = omap (verdict s) pairs)
      as ->.
    { clear. induction pairs as [|q pairs IHq]; [done|].
      rewrite !omap_cons_eq. by rewrite verdict_stable, IHq. }
    rewrite omap_cons_eq. unfold accepted. rewrite Href.
    destruct (verdict s pair); [|by rewrite app_nil_r].
    by rewrite <- app_assoc.
Qed.
(** What does hold for a batch: when all its verdicts agree, as for several
    contact pairs with spikes, the update that follows ends in that state. *)
Lemma uniform_batch_result pairs s v :
  gameStateRef s = playing -> gameStateQueue s = [] ->
  (forall pair w, pair ∈ pairs -> verdict s pair = Some w -> w = v) ->
  (exists pair, pair ∈ pairs ∧ verdict s pair = Some v) ->
  gameState (flush (collisionStart pairs s)) = v.
Proof.
  intros Href Hq Hall (pair & Hin & Hv).
  unfold flush, syncGameStateRef. cbn [gameState set_gameStateRef].
  rewrite render_last_wins, (collisionStart_queue pairs s Href), Hq.
  cbn [app].
  assert (v ∈ omap (verdict s) pairs) as Hne.
  { apply list_elem_of_omap. by exists pair. }
  assert (Forall (fun w => w = v) (omap (verdict s) pairs)) as Hsame.
  { apply Forall_forall. intros w Hw.
    apply list_elem_of_omap in Hw as (q & Hq' & Hw). by apply (Hall q). }
  destruct (last (omap (verdict s) pairs)) as [w|] eqn:Hlast.
  - cbn [default]. apply last_Some_elem_of in Hlast.
    by apply (proj1 (Forall_forall _ _) Hsame).
  - apply last_None in Hlast. rewrite Hlast in Hne.
    by apply elem_of_nil in Hne.
Qed.
End Batch.

(** C2. The code at a batch that reports a monster contact and then a goal
    contact while the game is being played: both guards pass, both
    transitions are queued, and the update that follows leaves the state at
    [won], the later of the two. *)
Theorem batch_later_transition_wins :
  let batch := [Matter.mkPair (playerRef Sample.start) (SetUp.monster3 Sample.sub);
                Matter.mkPair (playerRef Sample.start) Sample.goalSensor] in
  let s := collisionStart batch Sample.start in
  gameStateRef s = playing
  ∧ gameStateQueue s = [gameOver; won]
  ∧ gameState (flush s) = won.
Proof. vm_compute. done. Qed.

(** ** The player controller *)

Section PlayerFacts.
Local Open Scope Q_scope.

Lemma key_fireStep s code :
  code ≠ "KeyK" -> key (fireStep s) code = key s code.
Proof.
  intros Hne. unfold fireStep. destruct (key s "KeyK"); [|done].
  unfold key, createProjectile. cbn [keysRef set_keysRef set_projectilesRef
    set_world set_nextId].
  by rewrite lookup_insert_ne.
Qed.

Lemma groundCheck_fireStep inp s :
  groundCheck inp (fireStep s) = groundCheck inp s.
Proof.
  destruct (fireStep_player s) as (Hp & Hh & _).
  unfold groundCheck. f_equal.
  unfold isFooting. by rewrite Hp, Hh.
Qed.

Lemma groundCheck_rayed inp s :
  groundCheck inp (castRay (fireStep s)) = groundCheck inp s.
Proof. exact (groundCheck_fireStep inp s). Qed.

Lemma playerController_split inp s :
  playerController inp s = jumpStep (grounded inp s) (beforeJump inp s).
Proof.
  unfold playerController, beforeJump, grounded.
  by rewrite groundCheck_rayed.
Qed.

Lemma beforeJump_refs inp s :
  jumpDown (beforeJump inp s) = jumpDown s
  ∧ jumpWasDownRef (beforeJump inp s) = jumpWasDownRef s
  ∧ jumpStrengthRef (beforeJump inp s) = jumpStrengthRef s
  ∧ playerGroundedRef (beforeJump inp s) = grounded inp s.
Proof.
  destruct (rayed_player s) as (_ & _ & Hw & Hj).
  unfold beforeJump. cbn zeta.
  set (g := groundCheck inp (castRay (fireStep s))).
  set (a := axisOf _).
  destruct (movement_block_frame g a (castRay (fireStep s)))
    as ((_ & _ & _ & Hk & Hw' & Hj' & _) & Hg).
  rewrite Hw', Hj', Hg, Hw, Hj. repeat split; try done.
  - unfold jumpDown, key. rewrite Hk.
    change (jumpDown (fireStep s) = jumpDown s).
    unfold jumpDown. by rewrite !key_fireStep.
  - unfold g. apply groundCheck_rayed.
Qed.

(** The movement block leaves a horizontal velocity inside the cap alone,
    unless it is the dead-band stop of a grounded player. *)
Lemma beforeJump_keeps_velocity inp s :
  Qabs (Matter.x (Matter.velocity (playerRef s))) <= maxSpeed (grounded inp s) ->
  axisOf (fireStep s) ≠ 0%Z
    ∨ 0.02 < Qabs (Matter.x (Matter.velocity (playerRef s)))
    ∨ grounded inp s = false ->
  Matter.velocity (playerRef (beforeJump inp s))
  = Matter.velocity (playerRef s).
Proof.
  intros Hcap Hlive.
  destruct (rayed_player s) as (Hp & _).
  apply Qabs_Qle_condition in Hcap as [Hlo Hhi].
  unfold beforeJump. rewrite groundCheck_rayed. fold (grounded inp s).
  set (g := grounded inp s) in *.
  set (s2 := set_playerGroundedRef g (castRay (fireStep s))).
  assert (axisOf s2 = axisOf (fireStep s)) as -> by done.
  set (a := axisOf (fireStep s)) in *.
  assert (playerRef (facingStep a s2) = playerRef s) as Hf.
  { unfold facingStep. split_ifs; done. }
  assert (Matter.velocity (playerRef (movementStep g a (facingStep a s2)))
          = Matter.velocity (playerRef s)) as Hm.
  { rewrite <- Hf. unfold movementStep. cbn zeta.
    destruct (a =? 0)%Z eqn:Ha; cbn [negb]; [|done].
    destruct (Num.gtb _ _) eqn:Hband; [done|].
    destruct g; [|done].
    apply Z.eqb_eq in Ha. apply NumFacts.gtb_false in Hband. rewrite Hf in Hband.
    destruct Hlive as [?|[Hb|?]]; [done| |done].
    exfalso. apply (Qlt_not_le _ _ Hb). exact Hband. }
  unfold clampStep. cbn zeta. rewrite Hm.
  destruct (Num.gtb _ _) eqn:Hgt.
  { apply NumFacts.gtb_true in Hgt. exfalso. by apply (Qlt_not_le _ _ Hgt). }
  destruct (Num.ltb _ _) eqn:Hlt; [|done].
  apply NumFacts.ltb_true in Hlt. exfalso. by apply (Qlt_not_le _ _ Hlt).
Qed.

Lemma clampStep_bound g s :
  Qabs (Matter.x (Matter.velocity (playerRef (clampStep g s)))) <= maxSpeed g.
Proof.
  unfold clampStep. cbn zeta.
  destruct (Num.gtb _ _) eqn:Hgt;
    cbn [playerRef set_playerRef Matter.velocity Matter.setVelocity Matter.x].
  { by destruct g. }
  destruct (Num.ltb _ _) eqn:Hlt;
    cbn [playerRef set_playerRef Matter.velocity Matter.setVelocity Matter.x].
  { by destruct g. }
  apply NumFacts.gtb_false in Hgt. apply NumFacts.ltb_false in Hlt.
  by apply Qabs_Qle_condition.
Qed.

(** The jump block, seen from the whole handler call. *)
Lemma playerController_jump inp s :
  Matter.velocity (playerRef (playerController inp s))
  = (if jumpDown s && negb (jumpWasDownRef s) && grounded inp s
     then Matter.mkVector
            (Matter.x (Matter.velocity (playerRef (beforeJump inp s))))
            (- jumpStrengthRef s)
     else Matter.velocity (playerRef (beforeJump inp s)))
  ∧ jumpWasDownRef (playerController inp s) = jumpDown s.
Proof.
  rewrite playerController_split.
  destruct (beforeJump_refs inp s) as (Hd & Hw & Hj & _).
  set (mid := beforeJump inp s) in *. set (g := grounded inp s).
  unfold jumpStep. cbn zeta. rewrite Hd, Hw.
  destruct (jumpDown s && negb (jumpWasDownRef s) && g);
    cbn [playerRef set_playerRef set_jumpWasDownRef jumpStrengthRef
         jumpWasDownRef Matter.velocity Matter.setVelocity];
    by rewrite ?Hj.
Qed.

Lemma aiController_jumpWasDownRef inp s :
  jumpWasDownRef (aiController inp s) = jumpWasDownRef s.
Proof. unfold aiController. reflexivity. Qed.

(** Only the jump block writes [jumpWasDownRef]. *)
Lemma jumpWasDownRef_between_ticks es : forall s,
  Forall (fun e => isBeforeUpdate e = false) es ->
  jumpWasDownRef (run s es) = jumpWasDownRef s.
Proof.
  unfold run. induction es as [|e es IH]; intros s Hes; [done|].
  apply Forall_cons in Hes as [He Hes]. cbn [foldl]. rewrite (IH _ Hes).
  destruct e as [code|code|p|inp|k|pairs| |]; cbn [step]; try done.
  - unfold collisionStart. generalize s. clear.
    induction pairs as [|pair pairs IH]; intros s; cbn [foldl]; [done|].
    rewrite IH. unfold handlePair, guardedTransition. by split_ifs.
  - unfold afterUpdate, fallCheck, cleanupProjectiles.
    transitivity (jumpWasDownRef
      (foldl (fun acc p => worldRemove p acc) s
         (filter (fun p => isOutOfBounds p = true) (projectilesRef s))));
      [by split_ifs|].
    generalize (filter (fun p => isOutOfBounds p = true) (projectilesRef s)).
    intros gone. generalize s. clear.
    induction gone as [|p gone IH]; intros s; cbn [foldl]; [done|].
    by rewrite IH.
Qed.

Lemma jumpStep_x g s :
  Matter.x (Matter.velocity (playerRef (jumpStep g s)))
  = Matter.x (Matter.velocity (playerRef s))
  ∧ playerGroundedRef (jumpStep g s) = playerGroundedRef s.
Proof. unfold jumpStep. split_ifs; done. Qed.
End PlayerFacts.

(** C3. In every tick, relative to the velocity [mid] that the movement and
    clamp block of the same handler call leaves: a press edge of Jump on a
    grounded player sets the velocity to the horizontal component of [mid]
    and the vertical component [-jumpStrength]; an airborne player, a key
    that was already down at the previous tick and a key that is up get
    [mid] unchanged.  The handler records whether Jump was down and nothing
    else writes that flag, so the tick that follows a tick with Jump down
    never jumps, whatever happened in between. *)
Theorem jump_on_press_edge inp s :
  let mid := beforeJump inp s in
  let s' := playerController inp s in
  (jumpDown s = true -> jumpWasDownRef s = false -> grounded inp s = true ->
   Matter.velocity (playerRef s')
   = Matter.mkVector (Matter.x (Matter.velocity (playerRef mid)))
                     (- jumpStrengthRef s)%Q)
  ∧ (grounded inp s = false ->
     Matter.velocity (playerRef s') = Matter.velocity (playerRef mid))
  ∧ (jumpWasDownRef s = true ->
     Matter.velocity (playerRef s') = Matter.velocity (playerRef mid))
  ∧ (jumpDown s = false ->
     Matter.velocity (playerRef s') = Matter.velocity (playerRef mid))
  ∧ jumpWasDownRef s' = jumpDown s
  ∧ (forall es inp2,
       jumpDown s = true ->
       Forall (fun e => isBeforeUpdate e = false) es ->
       let s2 := run (step s (BeforeUpdate inp)) es in
       Matter.velocity (playerRef (playerController inp2 s2))
       = Matter.velocity (playerRef (beforeJump inp2 s2))).
Proof.
  cbn zeta. destruct (playerController_jump inp s) as [Hv Hflag].
  rewrite Hv, Hflag. repeat split.
  - by intros -> -> ->.
  - intros ->. by rewrite andb_false_r.
  - intros ->. by rewrite andb_false_r.
  - by intros ->.
  - intros es inp2 Hdown Hes.
    destruct (playerController_jump inp2 (run (step s (BeforeUpdate inp)) es))
      as [-> _].
    rewrite (jumpWasDownRef_between_ticks es _ Hes). cbn [step].
    rewrite aiController_jumpWasDownRef, Hflag, Hdown.
    by rewrite andb_false_r.
Qed.

Lemma jump_on_press_edge_witness :
  Matter.velocity (playerRef (playerController Sample.onGround SampleJump.beforePress))
  = Matter.mkVector
      (Matter.x (Matter.velocity (playerRef SampleJump.beforePress))) (- (18))%Q.
Proof.
  pose proof (jump_on_press_edge Sample.onGround SampleJump.beforePress) as H.
  cbn zeta in H. destruct H as (Hjump & _).
  rewrite Hjump by (vm_compute; reflexivity).
  rewrite beforeJump_keeps_velocity.
  - vm_compute. reflexivity.
  - vm_compute. discriminate.
  - left. vm_compute. discriminate.
Defined.

(** C4 (as stated, refuted). Holding Right from the start on level ground:
    after the engine step of the twelfth tick the player is grounded and
    its horizontal speed is above the ground cap, because the clamp ran
    before the step that integrates the force applied in the same call. *)
Lemma speed_after_step_exceeds_cap :
  let s := run Sample.start
             (KeyDown "ArrowRight" :: Sample.groundTicks 12) in
  playerGroundedRef s = true
  ∧ (maxRunSpeed < Qabs (Matter.x (Matter.velocity (playerRef s))))%Q.
Proof. vm_compute. done. Qed.

(** C4 (amended). At the end of every [beforeUpdate] call, from any state
    and for any input, the horizontal speed of the player is at most the cap
    that belongs to the ground flag computed in that call: 9.5 on the
    ground and the higher 10.5 in the air. *)
Theorem speed_capped_after_controller inp s :
  let s' := step s (BeforeUpdate inp) in
  playerGroundedRef s' = grounded inp s
  ∧ (Qabs (Matter.x (Matter.velocity (playerRef s')))
     <= maxSpeed (playerGroundedRef s'))%Q
  ∧ (maxSpeed true < maxSpeed false)%Q.
Proof.
  cbn zeta. cbn [step].
  assert (forall t, playerRef (aiController inp t) = playerRef t
                    ∧ playerGroundedRef (aiController inp t)
                      = playerGroundedRef t) as Hai by done.
  destruct (Hai (playerController inp s)) as [-> ->].
  rewrite playerController_split.
  destruct (jumpStep_x (grounded inp s) (beforeJump inp s)) as [-> ->].
  destruct (beforeJump_refs inp s) as (_ & _ & _ & ->).
  split; [done|]. split; [|done].
  unfold beforeJump. rewrite groundCheck_rayed.
  apply clampStep_bound.
Qed.

(** ** The patrol and hover rules *)

Section AIFacts.
Local Open Scope Q_scope.

Lemma clamp_bounds v lo hi : lo <= hi -> lo <= clamp v lo hi <= hi.
Proof.
  intros Hle. unfold clamp. split; [apply Q.le_max_l|].
  apply Q.max_lub; [done | apply Q.le_min_r].
Qed.

Lemma clamp_inside v lo hi : lo <= v -> v <= hi -> clamp v lo hi == v.
Proof.
  intros Hlo Hhi. unfold clamp.
  rewrite (Q.min_l v hi) by done. by apply Q.max_r.
Qed.

Lemma square_le_of_abs_le a b : Qabs a <= b -> a * a <= b * b.
Proof.
  intros H. pose proof (Qabs_nonneg a) as Hn.
  apply Qabs_Qle_condition in H as [Hlo Hhi]. nra.
Qed.
End AIFacts.

(** C5 (as stated, refuted). Monster 1 patrols the window [[1080, 1320]].
    A body at 1321 is still at 1321 after the rule has been applied; and in
    the run from the initial state, after the rule of the 57th tick has
    been applied, monster 1 is to the right of its window. *)
Lemma patrol_position_outside_window :
  let ai := SetUp.monster1AI Sample.sub in
  let hi := (originX ai + range ai / 2)%Q in
  let m := SamplePatrol.overshot in
  let s := run Sample.start
             (Sample.groundTicks 56 ++ [BeforeUpdate Sample.onGround]) in
  (hi < Matter.x (Matter.position (patrolStep ai m).2))%Q
  ∧ (exists m1, monstersRef s !! 0%nat = Some m1
       ∧ Matter.id m1 = Matter.id (SetUp.monster1 Sample.sub)
       ∧ (hi < Matter.x (Matter.position m1))%Q).
Proof.
  cbn zeta. split; [by vm_compute|].
  eexists. split; [vm_compute; reflexivity|]. by vm_compute.
Qed.

(** C5 (amended). For a patrol record with a non-negative range and a
    positive speed, the rule never moves the body; it sets the direction to
    +1 exactly when the position is below [origin - range/2], to -1 exactly
    when it is above [origin + range/2], and keeps it inside the window;
    the horizontal velocity becomes [speed * dir] and the vertical one is
    kept, so a body outside the window is always sent back towards it. *)
Theorem patrol_rule_turns_back ai monster :
  (0 <= range ai)%Q -> (0 < speed ai)%Q ->
  let r := patrolStep ai monster in
  let px := Matter.x (Matter.position monster) in
  let lo := (originX ai - range ai / 2)%Q in
  let hi := (originX ai + range ai / 2)%Q in
  Matter.position r.2 = Matter.position monster
  ∧ Matter.velocity r.2
    = Matter.mkVector (speed ai * dirValue (dir r.1))%Q
                      (Matter.y (Matter.velocity monster))
  ∧ ((px < lo)%Q ->
     dir r.1 = dirPlus ∧ (0 < Matter.x (Matter.velocity r.2))%Q)
  ∧ ((hi < px)%Q ->
     dir r.1 = dirMinus ∧ (Matter.x (Matter.velocity r.2) < 0)%Q)
  ∧ ((lo <= px)%Q -> (px <= hi)%Q -> dir r.1 = dir ai).
Proof.
  intros Hrange Hspeed. cbn zeta. unfold patrolStep. cbn zeta.
  assert (range ai / 2 == range ai * (1 # 2))%Q as E by (by field).
  destruct (Num.ltb _ _) eqn:Hlt; cbn [originX set_dir];
    destruct (Num.gtb _ _) eqn:Hgt;
    rewrite ?NumFacts.ltb_true, ?NumFacts.ltb_false in Hlt;
    rewrite ?NumFacts.gtb_true, ?NumFacts.gtb_false in Hgt;
    rewrite E in Hlt, Hgt; rewrite !E;
    cbn [fst snd Matter.position Matter.velocity Matter.setVelocity Matter.x
         speed dir set_dir dirValue];
    (split; [done|]); (split; [done|]);
    repeat split; intros;
    try done; try lra; exfalso; lra.
Qed.

Lemma patrol_rule_turns_back_witness :
  let ai := SetUp.monster1AI Sample.sub in
  let m := SamplePatrol.overshot in
  dir (patrolStep ai m).1 = dirMinus
  ∧ (Matter.x (Matter.velocity (patrolStep ai m).2) < 0)%Q.
Proof.
  cbn zeta.
  pose proof (patrol_rule_turns_back (SetUp.monster1AI Sample.sub)
                SamplePatrol.overshot) as H.
  cbn zeta in H.
  destruct H as (_ & _ & _ & Hright & _); [by vm_compute | by vm_compute |].
  apply Hright. by vm_compute.
Defined.

(** C6 (as stated, refuted). With the player outside the chase radius the
    flyer is in hover mode, both velocity components are clamped to 2.6 in
    absolute value, and the speed that is set, the length of that vector,
    is above the speed parameter 2.6. *)
Lemma hover_speed_exceeds_parameter :
  let ai := SetUp.monster3AI in
  let v := Matter.velocity
             (flyingStep Sample.onGround ai SampleHover.farPlayer SampleHover.strayFlyer) in
  chasing Sample.onGround ai SampleHover.farPlayer SampleHover.strayFlyer = false
  ∧ (speed ai * speed ai < Matter.x v * Matter.x v + Matter.y v * Matter.y v)%Q.
Proof. by vm_compute. Qed.

(** C6 (amended). In hover mode, for a non-negative speed parameter, each
    component of the velocity that is set is 0.06 times the offset to the
    oscillating target, clamped to [[-speed, speed]]: each component is at
    most [speed] in absolute value and equals the proportional value when
    that lies within the bound, and the squared length of the velocity is
    at most twice the squared speed parameter. *)
Theorem hover_velocity_clamped_per_axis inp ai player monster :
  (0 <= speed ai)%Q ->
  chasing inp ai player monster = false ->
  let v := Matter.velocity (flyingStep inp ai player monster) in
  let targetX := (originX ai + sin (math inp) (timestamp inp * 0.001) * 70)%Q in
  let targetY :=
    (originY ai
     + sin (math inp) (timestamp inp * default 0.002 (hoverFreq ai))
       * default 18 (hoverAmp ai))%Q in
  let toX := (targetX - Matter.x (Matter.position monster))%Q in
  let toY := (targetY - Matter.y (Matter.position monster))%Q in
  Matter.x v = clamp (toX * 0.06) (- speed ai) (speed ai)
  ∧ Matter.y v = clamp (toY * 0.06) (- speed ai) (speed ai)
  ∧ (Qabs (Matter.x v) <= speed ai)%Q
  ∧ (Qabs (Matter.y v) <= speed ai)%Q
  ∧ ((Qabs (toX * 0.06) <= speed ai)%Q -> (Matter.x v == toX * 0.06)%Q)
  ∧ ((Qabs (toY * 0.06) <= speed ai)%Q -> (Matter.y v == toY * 0.06)%Q)
  ∧ (Matter.x v * Matter.x v + Matter.y v * Matter.y v
     <= 2 * (speed ai * speed ai))%Q.
Proof.
  intros Hspeed Hhover. cbn zeta. unfold flyingStep. cbn zeta.
  rewrite Hhover. unfold hoverVelocity. cbn zeta.
  cbn [Matter.velocity Matter.setVelocity Matter.x Matter.y].
  set (vx := clamp _ _ _). set (vy := clamp _ _ _).
  assert (- speed ai <= speed ai)%Q as Hle by lra.
  assert (Qabs vx <= speed ai)%Q as Hx.
  { apply Qabs_Qle_condition. by apply clamp_bounds. }
  assert (Qabs vy <= speed ai)%Q as Hy.
  { apply Qabs_Qle_condition. by apply clamp_bounds. }
  repeat split; try done.
  - intros H. apply Qabs_Qle_condition in H as [? ?]. by apply clamp_inside.
  - intros H. apply Qabs_Qle_condition in H as [? ?]. by apply clamp_inside.
  - pose proof (square_le_of_abs_le _ _ Hx).
    pose proof (square_le_of_abs_le _ _ Hy). lra.
Qed.

Lemma hover_velocity_clamped_per_axis_witness :
  let v := Matter.velocity
             (flyingStep Sample.onGround SetUp.monster3AI
                SampleHover.farPlayer SampleHover.strayFlyer) in
  (Qabs (Matter.x v) <= 2.6)%Q ∧ (Qabs (Matter.y v) <= 2.6)%Q.
Proof.
  cbn zeta.
  pose proof (hover_velocity_clamped_per_axis Sample.onGround
                SetUp.monster3AI SampleHover.farPlayer SampleHover.strayFlyer) as H.
  cbn zeta in H.
  destruct H as (_ & _ & Hx & Hy & _); [by vm_compute | by vm_compute |].
  split; [exact Hx | exact Hy].
Defined.

(** ** Firing *)

Section FireFacts.
Local Open Scope Q_scope.

(** With K down, the fire block tracks exactly one more projectile, placed
    24 units ahead of the torso in the facing direction, moving at 15 along
    the facing axis with no vertical velocity, and clears the key; with K
    up it does nothing. *)
Lemma fireStep_spawns_one s :
  let facing := dirValue (playerFacingRef s) in
  let torso := playerRef s in
  (key s "KeyK" = true ->
   exists projectile,
     projectilesRef (fireStep s) = projectilesRef s ++ [projectile]
     ∧ Matter.label projectile = "projectile"
     ∧ Matter.position projectile
       = Matter.mkVector
           (Matter.x (Matter.position torso) + facing * PLAYER_WIDTH * 0.6)
           (Matter.y (Matter.position torso))
     ∧ Matter.velocity projectile = Matter.mkVector (facing * 15) 0
     ∧ key (fireStep s) "KeyK" = false)
  ∧ (key s "KeyK" = false -> fireStep s = s).
Proof.
  cbn zeta. unfold fireStep. split; intros ->; [|done].
  eexists. split; [reflexivity|]. repeat split.
  unfold key, createProjectile.
  cbn [keysRef set_keysRef set_projectilesRef set_world set_nextId].
  by rewrite lookup_insert_eq.
Qed.
End FireFacts.

(** C7. The code at a key that is held: the browser repeats [keydown] while
    K stays down, the listener stores [true] again, and the next tick fires
    again.  No [keyup] occurs in this run, and two projectiles are tracked
    at its end. *)
Theorem fire_repeats_while_key_held :
  let tick := [BeforeUpdate Sample.onGround; Physics Sample.slide; AfterUpdate] in
  let press := KeyDown "KeyK" :: tick in
  let autoRepeat := KeyDown "KeyK" :: tick in
  length (projectilesRef (run Sample.start press)) = 1%nat
  ∧ length (projectilesRef (run Sample.start (press ++ tick))) = 1%nat
  ∧ length (projectilesRef (run Sample.start (press ++ tick ++ autoRepeat)))
    = 2%nat.
Proof. by vm_compute. Qed.

(** ** Removal of a projectile and the monster it hits *)

Section RemovalFacts.
Import Matter.

Lemma filter_drops_one {A} (f : A -> Z) (k : Z) (l : list A) :
  NoDup (f <$> l) -> k ∈ f <$> l ->
  (length (filter (fun a => f a ≠ k) l) + 1 = length l)%nat.
Proof.
  induction l as [|a l IH]; intros Hnd Hin.
  - by apply elem_of_nil in Hin.
  - rewrite fmap_cons in Hnd, Hin. apply NoDup_cons in Hnd as [Hfresh Hnd].
    rewrite filter_cons. destruct (decide (f a ≠ k)) as [Hne|Heq].
    + cbn [length]. apply elem_of_cons in Hin as [Hin|Hin]; [done|].
      by rewrite <- (IH Hnd Hin).
    + assert (f a = k) as Hk by (by destruct (decide (f a = k))).
      subst k. cbn [length].
      assert (filter (fun b => f b ≠ f a) l = l) as ->; [|lia].
      clear IH Hin Heq Hnd. induction l as [|b l IH]; [done|].
      rewrite fmap_cons in Hfresh. apply not_elem_of_cons in Hfresh as [Hb Hl].
      rewrite filter_cons. destruct (decide (f b ≠ f a)); [|done].
      by rewrite IH.
Qed.

Lemma handlePair_hit s pair projectile monster :
  label projectile = "projectile" -> label monster = "monster" ->
  pair = mkPair projectile monster ∨ pair = mkPair monster projectile ->
  handlePair s pair = removeHit projectile monster s.
Proof.
  intros Hp Hm [-> | ->]; unfold handlePair; cbn [bodyA bodyB];
    rewrite Hp, Hm; reflexivity.
Qed.
End RemovalFacts.

(** C8 (as stated, refuted). A projectile that touches the platform
    patroller and the flyer in the same tick is reported in two pairs.  The
    first pair removes the projectile and the patroller; the second pair
    finds no projectile left to remove and still removes the flyer: two
    monsters for one projectile. *)
Lemma second_pair_removes_no_projectile :
  let s0 := SampleHit.armed in
  let s1 := handlePair s0 (Matter.mkPair SampleHit.projectile SampleHit.patroller) in
  let s2 := handlePair s1 (Matter.mkPair SampleHit.projectile SampleHit.luredFlyer) in
  Matter.id <$> projectilesRef s0 = [Matter.id SampleHit.projectile]
  ∧ (length (monstersRef s0) = 3 ∧ length (projectilesRef s0) = 1)%nat
  ∧ (length (monstersRef s1) = 2 ∧ length (projectilesRef s1) = 0)%nat
  ∧ (length (monstersRef s2) = 1 ∧ length (projectilesRef s2) = 0)%nat.
Proof. by vm_compute. Qed.

(** C8 (amended). A projectile-against-monster pair, in either order, whose
    projectile and monster are both still tracked, in tracking lists
    without repeated ids: exactly the projectile leaves the projectile list
    and exactly the monster leaves the monster list, both ids leave the
    world and nothing else does, the monster has no AI record and no style
    seed afterwards, and the game state, its queue and its ref are
    untouched (no player check is made for the pair). *)
Theorem projectile_hit_removes_both s pair projectile monster :
  Matter.label projectile = "projectile" ->
  Matter.label monster = "monster" ->
  pair = Matter.mkPair projectile monster
    ∨ pair = Matter.mkPair monster projectile ->
  NoDup (Matter.id <$> projectilesRef s) ->
  NoDup (Matter.id <$> monstersRef s) ->
  Matter.id projectile ∈ Matter.id <$> projectilesRef s ->
  Matter.id monster ∈ Matter.id <$> monstersRef s ->
  let s' := handlePair s pair in
  (length (projectilesRef s') + 1 = length (projectilesRef s))%nat
  ∧ (forall q, q ∈ projectilesRef s'
       <-> q ∈ projectilesRef s ∧ Matter.id q ≠ Matter.id projectile)
  ∧ (length (monstersRef s') + 1 = length (monstersRef s))%nat
  ∧ (forall q, q ∈ monstersRef s'
       <-> q ∈ monstersRef s ∧ Matter.id q ≠ Matter.id monster)
  ∧ (forall i, i ∈ world s'
       <-> i ∈ world s ∧ i ≠ Matter.id projectile ∧ i ≠ Matter.id monster)
  ∧ monsterAIRef s' !! Matter.id monster = None
  ∧ monsterStyleSeedRef s' !! Matter.id monster = None
  ∧ (forall k, k ≠ Matter.id monster ->
       monsterAIRef s' !! k = monsterAIRef s !! k
       ∧ monsterStyleSeedRef s' !! k = monsterStyleSeedRef s !! k)
  ∧ gameState s' = gameState s
  ∧ gameStateQueue s' = gameStateQueue s
  ∧ gameStateRef s' = gameStateRef s.
Proof.
  intros Hp Hm Hpair Hndp Hndm Hinp Hinm. cbn zeta.
  rewrite (handlePair_hit s pair projectile monster Hp Hm Hpair).
  unfold removeHit, worldRemove.
  cbn [projectilesRef monstersRef world monsterAIRef monsterStyleSeedRef
       gameState gameStateQueue gameStateRef set_world set_projectilesRef
       set_monstersRef set_monsterAIRef set_monsterStyleSeedRef].
  split; [by apply filter_drops_one|].
  split; [intros q; by rewrite list_elem_of_filter, (comm and)|].
  split; [by apply filter_drops_one|].
  split; [intros q; by rewrite list_elem_of_filter, (comm and)|].
  split.
  { intros i. rewrite !list_elem_of_filter. tauto. }
  split; [apply lookup_delete_eq|].
  split; [apply lookup_delete_eq|].
  split; [|done].
  intros k Hk. by rewrite !lookup_delete_ne.
Qed.

Lemma projectile_hit_removes_both_witness :
  let s' := handlePair SampleHit.armed
              (Matter.mkPair SampleHit.patroller SampleHit.projectile) in
  (length (projectilesRef s') + 1 = length (projectilesRef SampleHit.armed))%nat
  ∧ monsterAIRef s' !! 37%Z = None.
Proof.
  cbn zeta.
  pose proof (projectile_hit_removes_both SampleHit.armed
                (Matter.mkPair SampleHit.patroller SampleHit.projectile)
                SampleHit.projectile SampleHit.patroller) as H.
  cbn zeta in H.
  destruct H as (Hlen & _ & _ & _ & _ & Hai & _).
  - reflexivity.
  - reflexivity.
  - by right.
  - apply (bool_decide_unpack _). by vm_compute.
  - apply (bool_decide_unpack _). by vm_compute.
  - apply (bool_decide_unpack _). by vm_compute.
  - apply (bool_decide_unpack _). by vm_compute.
  - split; [exact Hlen | exact Hai].
Defined.

(** ** The monster registries *)

Section Registry.
Lemma registry_same s s' :
  monstersRef s' = monstersRef s ->
  monsterAIRef s' = monsterAIRef s ->
  monsterStyleSeedRef s' = monsterStyleSeedRef s ->
  registryConsistent s -> registryConsistent s'.
Proof.
  unfold registryConsistent, trackedIds. by intros -> -> ->.
Qed.

Lemma registry_initial props sub : registryConsistent (initial props sub).
Proof.
  unfold registryConsistent, trackedIds.
  cbn [initial SetUp.initial monsterAIRef monsterStyleSeedRef monstersRef].
  rewrite !dom_insert_L, !dom_empty_L, !fmap_cons, !list_to_set_cons.
  cbn [fmap list_fmap list_to_set].
  split; apply set_eq; intros i;
    rewrite !elem_of_union, !elem_of_singleton, elem_of_empty; tauto.
Qed.

Lemma tracked_after_filter (k : Z) (l : list Body) :
  list_to_set (Matter.id <$> filter (fun m => Matter.id m ≠ k) l)
  = (list_to_set (Matter.id <$> l) : gset Z) ∖ {[k]}.
Proof.
  apply set_eq. intros i.
  rewrite elem_of_difference, !elem_of_list_to_set, !list_elem_of_fmap.
  rewrite not_elem_of_singleton. split.
  - intros (m & -> & Hm). apply list_elem_of_filter in Hm as [Hne Hin].
    split; [by exists m | done].
  - intros [(m & -> & Hin) Hne]. exists m. split; [done|].
    by apply list_elem_of_filter.
Qed.

Lemma registry_removeHit p m s :
  registryConsistent s -> registryConsistent (removeHit p m s).
Proof.
  unfold registryConsistent, trackedIds, removeHit, worldRemove.
  cbn [monstersRef monsterAIRef monsterStyleSeedRef set_world
       set_projectilesRef set_monstersRef set_monsterAIRef
       set_monsterStyleSeedRef].
  intros [Hai Hseed].
  by rewrite tracked_after_filter, !dom_delete_L, Hai, Hseed.
Qed.

Lemma registry_handlePair s pair :
  registryConsistent s -> registryConsistent (handlePair s pair).
Proof.
  intros H. unfold handlePair, guardedTransition.
  split_ifs; try (by apply registry_removeHit);
    by apply (registry_same s).
Qed.

Lemma registry_collisionStart pairs : forall s,
  registryConsistent s -> registryConsistent (collisionStart pairs s).
Proof.
  unfold collisionStart.
  induction pairs as [|pair pairs IH]; intros s H; cbn [foldl]; [done|].
  by apply IH, registry_handlePair.
Qed.

(** The monster loop keeps the keys of the AI registry and the ids, in
    order, of the tracked monsters. *)
Lemma monsterStep_keeps inp player acc monster :
  dom (monsterStep inp player acc monster).1 = dom acc.1
  ∧ Matter.id <$> (monsterStep inp player acc monster).2
    = (Matter.id <$> acc.2) ++ [Matter.id monster].
Proof.
  assert (forall ai, Matter.id (flyingStep inp ai player monster)
                     = Matter.id monster) as Hfly.
  { intros ai. unfold flyingStep. by destruct (chasing _ _ _ _). }
  unfold monsterStep.
  destruct (acc.1 !! Matter.id monster) as [ai|] eqn:Hai;
    [destruct (kind ai)|]; cbn [fst snd]; rewrite fmap_app;
    cbn [fmap list_fmap]; rewrite ?Hfly; (split; [|done]); try done.
  rewrite dom_insert_L. apply set_eq. intros i.
  rewrite elem_of_union, elem_of_singleton, !elem_of_dom.
  split; [|by right]. intros [-> | ?]; [by rewrite Hai | done].
Qed.

Lemma monsterLoop_keeps inp player monsters : forall acc,
  dom (foldl (monsterStep inp player) acc monsters).1 = dom acc.1
  ∧ Matter.id <$> (foldl (monsterStep inp player) acc monsters).2
    = (Matter.id <$> acc.2) ++ (Matter.id <$> monsters).
Proof.
  induction monsters as [|m monsters IH]; intros acc; cbn [foldl].
  - by rewrite app_nil_r.
  - destruct (IH (monsterStep inp player acc m)) as [-> ->].
    destruct (monsterStep_keeps inp player acc m) as [-> ->].
    by rewrite <- app_assoc.
Qed.

Lemma registry_aiController inp s :
  registryConsistent s -> registryConsistent (aiController inp s).
Proof.
  unfold registryConsistent, trackedIds, aiController.
  cbn [monstersRef monsterAIRef monsterStyleSeedRef set_monstersRef
       set_monsterAIRef set_movingPlatformRef set_movingPlatformAIRef].
  destruct (monsterLoop_keeps inp (playerRef s) (monstersRef s)
              (monsterAIRef s, [])) as [-> ->].
  done.
Qed.

Lemma registry_physics k s :
  registryConsistent s -> registryConsistent (physics k s).
Proof.
  unfold registryConsistent, trackedIds, physics.
  cbn [monstersRef monsterAIRef monsterStyleSeedRef].
  rewrite <- list_fmap_compose.
  by assert (Matter.id ∘ moveBody k = Matter.id) as -> by done.
Qed.

Lemma registry_afterUpdate s :
  registryConsistent s -> registryConsistent (afterUpdate s).
Proof.
  apply registry_same; unfold afterUpdate, fallCheck, cleanupProjectiles;
    split_ifs; cbn [monstersRef monsterAIRef monsterStyleSeedRef
                    set_projectilesRef setGameState set_gameStateQueue];
    generalize (filter (fun p => isOutOfBounds p = true) (projectilesRef s));
    intros gone; generalize s; clear;
    (induction gone as [|p gone IH]; intros s; cbn [foldl]; [done|]);
    by rewrite IH.
Qed.

Lemma registry_step s e :
  registryConsistent s -> registryConsistent (step s e).
Proof.
  intros H. destruct e as [code|code|p|inp|k|pairs| |]; cbn [step].
  - by apply (registry_same s).
  - by apply (registry_same s).
  - by apply (registry_same s).
  - apply registry_aiController.
    destruct (playerController_registry inp s) as (H1 & H2 & H3).
    by apply (registry_same s).
  - by apply registry_physics.
  - by apply registry_collisionStart.
  - by apply registry_afterUpdate.
  - by apply (registry_same s).
Qed.

Lemma registry_run es : forall s,
  registryConsistent s -> registryConsistent (run s es).
Proof.
  unfold run. induction es as [|e es IH]; intros s H; cbn [foldl]; [done|].
  by apply IH, registry_step.
Qed.
End Registry.

(** C10. The code when the set-up effect runs again, as it does when
    [width] or [height] changes: the effect tracks three new monsters and
    calls [set] for them on the two registries, which are the [Map]
    objects of before and are cleared nowhere.  Every monster that was
    tracked before, at any point of any run, keeps its AI record and its
    style seed although it is tracked no more: the records outlive their
    bodies.  The new monsters have ids of their own, as Matter numbers
    bodies from one counter. *)
Theorem records_outlive_bodies_after_set_up props sub (es : list Event)
    (sub' : Substrate) (i : nat) (m : Body) :
  let s := run (initial props sub) es in
  let s' := act s (SetUpAgain sub') in
  monstersRef s !! i = Some m ->
  Matter.id m ≠ (monster1New sub').1 ->
  Matter.id m ≠ (monster2New sub').1 ->
  Matter.id m ≠ (monster3New sub').1 ->
  is_Some (monsterAIRef s' !! Matter.id m)
  ∧ is_Some (monsterStyleSeedRef s' !! Matter.id m)
  ∧ Matter.id m ∉ (Matter.id <$> monstersRef s').
Proof.
  cbn zeta. intros Hm H1 H2 H3.
  destruct (registry_run es _ (registry_initial props sub)) as [Hai Hseed].
  set (s := run (initial props sub) es) in *.
  assert (Matter.id m ∈ trackedIds s) as Hin.
  { unfold trackedIds. apply elem_of_list_to_set, list_elem_of_fmap.
    exists m. split; [done|]. by apply list_elem_of_lookup_2 in Hm. }
  cbn [act SetUp.setUp monsterAIRef monsterStyleSeedRef monstersRef].
  cbn [SetUp.monster1 SetUp.monster2 SetUp.monster3 SetUp.initMonsterPhysics
       SetUp.newBody Matter.id].
  rewrite !lookup_insert_ne by done.
  split; [apply elem_of_dom; by rewrite Hai|].
  split; [apply elem_of_dom; by rewrite Hseed|].
  cbn [fmap list_fmap Matter.id].
  rewrite !not_elem_of_cons. repeat split; try done. apply not_elem_of_nil.
Qed.

Lemma records_outlive_bodies_after_set_up_witness :
  let s' := act Sample.start (SetUpAgain Sample.again) in
  is_Some (monsterAIRef s' !! 36%Z)
  ∧ is_Some (monsterStyleSeedRef s' !! 36%Z)
  ∧ 36%Z ∉ (Matter.id <$> monstersRef s').
Proof.
  exact (records_outlive_bodies_after_set_up Sample.props Sample.sub []
           Sample.again 0 (SetUp.monster1 Sample.sub) eq_refl
           ltac:(by vm_compute) ltac:(by vm_compute) ltac:(by vm_compute)).
Defined.

(** ** Ids in the tracking lists *)

Section Tracking.
Lemma NoDup_filter_ids (P : Body -> Prop) `{!forall b, Decision (P b)}
    (l : list Body) :
  NoDup (Matter.id <$> l) -> NoDup (Matter.id <$> filter P l).
Proof.
  induction l as [|b l IH]; [done|].
  rewrite fmap_cons. intros [Hb Hl]%NoDup_cons. rewrite filter_cons.
  destruct (decide (P b)); [|by apply IH].
  rewrite fmap_cons. apply NoDup_cons. split; [|by apply IH].
  intros (c & Hc & Hin)%list_elem_of_fmap.
  apply list_elem_of_filter in Hin as [_ Hin].
  apply Hb, list_elem_of_fmap. by exists c.
Qed.

Lemma Forall_filter_keeps {A} (P Q : A -> Prop) `{!forall a, Decision (Q a)}
    (l : list A) :
  Forall P l -> Forall P (filter Q l).
Proof.
  rewrite !Forall_forall. intros Hall a Ha.
  apply list_elem_of_filter in Ha as [_ Ha]. by apply Hall.
Qed.

Lemma tracking_same s s' :
  monstersRef s' = monstersRef s -> projectilesRef s' = projectilesRef s ->
  nextId s' = nextId s -> trackingUnique s -> trackingUnique s'.
Proof. unfold trackingUnique. by intros -> -> ->. Qed.

Lemma tracking_fireStep s : trackingUnique s -> trackingUnique (fireStep s).
Proof.
  intros (Hm & Hp & Hlt). unfold fireStep.
  destruct (key s "KeyK"); [|done].
  unfold trackingUnique, createProjectile.
  cbn [monstersRef projectilesRef nextId set_keysRef set_projectilesRef
       set_world set_nextId Matter.setVelocity Matter.id].
  split; [done|]. split.
  - rewrite fmap_app. apply NoDup_app. split; [done|]. split.
    + intros i (p & -> & Hin)%list_elem_of_fmap Hnew.
      apply list_elem_of_singleton in Hnew.
      apply (proj1 (Forall_forall _ _) Hlt) in Hin. cbn in Hnew. lia.
    + apply NoDup_singleton.
  - apply Forall_app. split.
    + eapply Forall_impl; [exact Hlt|]. intros p Hlp. cbn beta in *. lia.
    + apply Forall_singleton. cbn. lia.
Qed.

Lemma tracking_removeHit p m s :
  trackingUnique s -> trackingUnique (removeHit p m s).
Proof.
  intros (Hm & Hp & Hlt). unfold trackingUnique, removeHit, worldRemove.
  cbn [monstersRef projectilesRef nextId set_world set_projectilesRef
       set_monstersRef set_monsterAIRef set_monsterStyleSeedRef].
  split; [by apply NoDup_filter_ids|]. split; [by apply NoDup_filter_ids|].
  by apply Forall_filter_keeps.
Qed.

Lemma aiController_tracking inp s :
  Matter.id <$> monstersRef (aiController inp s) = Matter.id <$> monstersRef s
  ∧ projectilesRef (aiController inp s) = projectilesRef s
  ∧ nextId (aiController inp s) = nextId s.
Proof.
  unfold aiController.
  cbn [monstersRef projectilesRef nextId set_monstersRef set_monsterAIRef
       set_movingPlatformRef set_movingPlatformAIRef].
  by destruct (monsterLoop_keeps inp (playerRef s) (monstersRef s)
                 (monsterAIRef s, [])) as [_ ->].
Qed.

Lemma tracking_step s e : trackingUnique s -> trackingUnique (step s e).
Proof.
  intros H. destruct e as [code|code|p|inp|k|pairs| |]; cbn [step].
  - by apply (tracking_same s).
  - by apply (tracking_same s).
  - by apply (tracking_same s).
  - destruct (playerController_tracking inp s) as (Hp & Hn).
    destruct (playerController_registry inp s) as (Hm & _).
    destruct (fireStep_registry s) as (Fm & _).
    apply tracking_fireStep in H. destruct H as (H1 & H2 & H3).
    destruct (aiController_tracking inp (playerController inp s))
      as (Am & Ap & An).
    unfold trackingUnique. rewrite Am, Ap, An, Hp, Hn, Hm. rewrite <- Fm.
    split; [done|]. split; [done|].
    eapply Forall_impl; [exact H3|]. cbn beta. intros p0 Hp0. lia.
  - destruct H as (H1 & H2 & H3). unfold trackingUnique, physics.
    cbn [monstersRef projectilesRef nextId].
    rewrite <- !list_fmap_compose.
    assert (Matter.id ∘ moveBody k = Matter.id) as -> by done.
    split; [done|]. split; [done|]. by apply Forall_fmap.
  - unfold collisionStart. generalize dependent s.
    induction pairs as [|pair pairs IH]; intros s H; cbn [foldl]; [done|].
    apply IH. unfold handlePair, guardedTransition.
    split_ifs; try (by apply tracking_removeHit); by apply (tracking_same s).
  - destruct H as (H1 & H2 & H3).
    assert (forall gone t,
              monstersRef (foldl (fun acc p => worldRemove p acc) t gone)
              = monstersRef t
              ∧ nextId (foldl (fun acc p => worldRemove p acc) t gone)
                = nextId t) as Hfold.
    { induction gone as [|p gone IH]; intros t; cbn [foldl]; [done|].
      destruct (IH (worldRemove p t)) as [-> ->]. done. }
    destruct (Hfold (filter (fun p => isOutOfBounds p = true)
                       (projectilesRef s)) s) as [Hm Hn].
    unfold trackingUnique, afterUpdate, fallCheck, cleanupProjectiles.
    split_ifs;
      cbn [monstersRef projectilesRef nextId set_projectilesRef setGameState
           set_gameStateQueue];
      rewrite Hm, Hn;
      (split; [done|]); (split; [by apply NoDup_filter_ids|]);
      by apply Forall_filter_keeps.
  - by apply (tracking_same s).
Qed.

(** When Matter has given the three monsters different ids, no tracking
    list of a run ever holds an id twice. *)
Lemma tracking_run props sub es :
  NoDup [(monster1New sub).1; (monster2New sub).1; (monster3New sub).1] ->
  trackingUnique (run (initial props sub) es).
Proof.
  intros Hids.
  assert (trackingUnique (initial props sub)) as H0.
  { unfold trackingUnique. split; [exact Hids|]. split; [|done].
    apply NoDup_nil_2. }
  generalize dependent (initial props sub). unfold run.
  induction es as [|e es IH]; intros s Hs; cbn [foldl]; [done|].
  by apply IH, tracking_step.
Qed.

(** Every [keydown] of K makes the next tick track one more projectile,
    whether or not the key went up since the last shot. *)
Lemma every_keydown_fires inp s :
  exists projectile,
    projectilesRef (step (step s (KeyDown "KeyK")) (BeforeUpdate inp))
    = projectilesRef s ++ [projectile].
Proof.
  cbn [step].
  destruct (aiController_tracking inp
              (playerController inp (handleKeyDown "KeyK" s))) as (_ & -> & _).
  destruct (playerController_tracking inp (handleKeyDown "KeyK" s)) as [-> _].
  destruct (fireStep_spawns_one (handleKeyDown "KeyK" s)) as [Hfire _].
  destruct Hfire as (projectile & -> & _).
  { unfold key, handleKeyDown. cbn [keysRef set_keysRef].
    by rewrite lookup_insert_eq. }
  by exists projectile.
Qed.
End Tracking.

(** ** Jump strength *)

(** C9. When both props are given the deprecated [jumpHeight] is the
    effective jump strength; with [jumpStrength] alone it is that value;
    with neither it is the default 22, which lies outside [[10, 18]].  No
    range check exists: the ref takes the effective value as it is at mount
    and on every change of the props, and a jump writes its negation into
    the vertical velocity. *)
Theorem jump_strength_from_props :
  (forall js jh, effectiveJumpStrength (mkProps (Some js) (Some jh)) = jh)
  ∧ (forall js, effectiveJumpStrength (mkProps (Some js) None) = js)
  ∧ effectiveJumpStrength (mkProps None None) = 22%Q
  ∧ ¬ (10 <= 22 ∧ 22 <= 18)%Q
  ∧ (forall p sub, jumpStrengthRef (initial p sub) = effectiveJumpStrength p)
  ∧ (forall p s,
       jumpStrengthRef (step s (PropsChanged p)) = effectiveJumpStrength p)
  ∧ (forall p inp s,
       let s1 := step s (PropsChanged p) in
       Matter.y (Matter.velocity (playerRef (playerController inp s1)))
       = if jumpDown s && negb (jumpWasDownRef s) && grounded inp s
         then (- effectiveJumpStrength p)%Q
         else Matter.y (Matter.velocity (playerRef (beforeJump inp s1)))).
Proof.
  repeat split; try done.
  - intros [_ H]. by apply (Qlt_not_le _ _ (eq_refl : (18 < 22)%Q)) in H.
  - intros p inp s. cbn zeta. cbn [step].
    destruct (playerController_jump inp (syncJumpStrengthRef p s)) as [-> _].
    change (jumpDown (syncJumpStrengthRef p s)) with (jumpDown s).
    change (jumpWasDownRef (syncJumpStrengthRef p s)) with (jumpWasDownRef s).
    change (grounded inp (syncJumpStrengthRef p s)) with (grounded inp s).
    by destruct (jumpDown s && negb (jumpWasDownRef s) && grounded inp s).
Qed.

(** * Further properties of the component *)

(** ** The clamp helper and the camera *)

Section CameraFacts.
Local Open Scope Q_scope.

Ltac minmax_case_on f spec a b :=
  let H := fresh "H" in
  let x := fresh "x" in
  destruct (spec a b) as [[? H]|[? H]];
  set (x := f a b) in *; clearbody x.

Ltac minmax_cases :=
  repeat match goal with
  | |- context [Qmin ?a ?b] => minmax_case_on Qmin Q.min_spec a b
  | |- context [Qmax ?a ?b] => minmax_case_on Qmax Q.max_spec a b
  | _ : context [Qmin ?a ?b] |- _ => minmax_case_on Qmin Q.min_spec a b
  | _ : context [Qmax ?a ?b] |- _ => minmax_case_on Qmax Q.max_spec a b
  end.

(** X1. [clamp] returns a value between its bounds when they are in order,
    the value itself when it lies between them, the nearer bound when it
    lies outside, and the lower bound, whatever the value, when the bounds
    are inverted; clamping twice is clamping once. *)
Theorem clamp_behaviour v lo hi :
  (lo <= hi -> lo <= clamp v lo hi <= hi)
  ∧ (lo <= v -> v <= hi -> clamp v lo hi == v)
  ∧ (v <= lo -> clamp v lo hi == lo)
  ∧ (lo <= hi -> hi <= v -> clamp v lo hi == hi)
  ∧ (hi < lo -> clamp v lo hi == lo)
  ∧ clamp (clamp v lo hi) lo hi == clamp v lo hi.
Proof.
  unfold clamp. repeat split; intros; minmax_cases; lra.
Qed.

Lemma clampedTargetX_bounds vw player :
  0 <= clampedTargetX vw player <= Qmax 0 (LEVEL_LENGTH - vw).
Proof.
  unfold clampedTargetX, clamp, LEVEL_LENGTH. cbn zeta.
  split; minmax_cases; lra.
Qed.

(** X2. The camera target is the player's position minus half the viewport
    width wherever that lies between 0 and the level length minus the
    viewport width; it is never negative and never beyond that upper end;
    and it is 0 for a viewport at least as wide as the level. *)
Theorem camera_target_clamped vw player :
  let px := Matter.x (Matter.position player) in
  0 <= clampedTargetX vw player <= Qmax 0 (LEVEL_LENGTH - vw)
  ∧ (vw / 2 <= px -> px <= LEVEL_LENGTH - vw / 2 ->
     clampedTargetX vw player == px - vw / 2)
  ∧ (LEVEL_LENGTH <= vw -> clampedTargetX vw player == 0).
Proof.
  cbn zeta. split; [apply clampedTargetX_bounds|].
  unfold clampedTargetX, clamp. cbn zeta. unfold LEVEL_LENGTH.
  assert (vw / 2 == vw * (1 # 2)) as E by field.
  split; intros; minmax_cases;
    repeat match goal with
    | H : context [vw / 2] |- _ => rewrite E in H
    end; rewrite ?E; lra.
Qed.

Lemma cameraFollow_in_level v player :
  0 <= cameraXRef v <= Qmax 0 (LEVEL_LENGTH - viewportWRef v) ->
  0 <= cameraXRef (cameraFollow v player)
    <= Qmax 0 (LEVEL_LENGTH - viewportWRef v).
Proof.
  intros [Hlo Hhi].
  destruct (clampedTargetX_bounds (viewportWRef v) player) as [Tlo Thi].
  unfold cameraFollow. cbn [cameraXRef].
  set (t := clampedTargetX _ _) in *. set (m := Qmax _ _) in *.
  split; lra.
Qed.

(** X3. A camera that starts inside the level stays inside it, tick after
    tick and wherever the player goes; the viewport size is not touched,
    and the renderer bounds keep the viewport's width and height with their
    lower edge on the world floor. *)
Theorem camera_stays_in_level v players :
  0 <= cameraXRef v <= Qmax 0 (LEVEL_LENGTH - viewportWRef v) ->
  let v' := cameraRun v players in
  viewportWRef v' = viewportWRef v
  ∧ viewportHRef v' = viewportHRef v
  ∧ 0 <= cameraXRef v' <= Qmax 0 (LEVEL_LENGTH - viewportWRef v)
  ∧ minX (renderBounds v') = cameraXRef v'
  ∧ maxX (renderBounds v') - minX (renderBounds v') == viewportWRef v
  ∧ maxY (renderBounds v') = WORLD_HEIGHT
  ∧ maxY (renderBounds v') - minY (renderBounds v') == viewportHRef v.
Proof.
  cbn zeta. unfold cameraRun. revert v.
  induction players as [|player players IH]; intros v Hin; cbn [foldl].
  - unfold renderBounds. cbn [minX maxX minY maxY].
    repeat split; try done; try apply Hin; lra.
  - destruct (IH (cameraFollow v player)) as (Hw & Hh & Hc & Hrest).
    { exact (cameraFollow_in_level v player Hin). }
    change (viewportWRef (cameraFollow v player)) with (viewportWRef v) in *.
    change (viewportHRef (cameraFollow v player)) with (viewportHRef v) in *.
    repeat split; try done; try apply Hc; apply Hrest.
Qed.

Lemma camera_stays_in_level_witness :
  let v := mkView 0 800 600 in
  let v' := cameraRun v [Sample.goalSensor; Sample.spike] in
  0 <= cameraXRef v' <= 7200.
Proof.
  cbn zeta.
  pose proof (camera_stays_in_level (mkView 0 800 600)
                [Sample.goalSensor; Sample.spike]) as H.
  cbn zeta in H. destruct H as (_ & _ & Hc & _); [by vm_compute|].
  destruct Hc as [Hlo Hhi]. split; [exact Hlo|].
  apply (Qle_trans _ _ _ Hhi). by vm_compute.
Defined.

(** X4. With the player standing still, every tick multiplies the
    camera's distance to its target by 0.86: after [n] ticks the offset is
    [0.86 ^ n] times the first one, on the same side of the target, so the
    camera eases in without ever passing the target. *)
Theorem camera_eases_to_target v player (n : nat) :
  let t := clampedTargetX (viewportWRef v) player in
  cameraXRef (cameraRun v (replicate n player)) - t
  == 0.86 ^ Z.of_nat n * (cameraXRef v - t)
  ∧ 0 < 0.86 ^ Z.of_nat n <= 1.
Proof.
  cbn zeta. unfold cameraRun. revert v.
  induction n as [|n IH]; intros v.
  - cbn [replicate foldl]. change (0.86 ^ Z.of_nat 0) with 1. split; lra.
  - cbn [replicate foldl].
    destruct (IH (cameraFollow v player)) as [Hn Hp].
    change (viewportWRef (cameraFollow v player)) with (viewportWRef v) in Hn.
    assert (0.86 ^ Z.of_nat (S n) == 0.86 ^ Z.of_nat n * 0.86) as Hs.
    { rewrite Nat2Z.inj_succ, <- Z.add_1_r, Qpower_plus by done.
      by change (0.86 ^ 1) with 0.86. }
    rewrite Hs, Hn. unfold cameraFollow. cbn [cameraXRef viewportWRef].
    set (p := 0.86 ^ Z.of_nat n) in *. split; [ring|]. nra.
Qed.
End CameraFacts.

(** ** Clean-up and fall detection *)

Section CleanupFacts.
Local Open Scope Q_scope.

Lemma isOutOfBounds_false p : isOutOfBounds p = false <-> inBounds p.
Proof.
  unfold isOutOfBounds, inBounds. cbn zeta.
  rewrite !orb_false_iff, !NumFacts.ltb_false, !NumFacts.gtb_false.
  tauto.
Qed.

Lemma isOutOfBounds_true p : isOutOfBounds p = true <-> ¬ inBounds p.
Proof.
  rewrite <- isOutOfBounds_false. by destruct (isOutOfBounds p).
Qed.

Lemma worldRemove_all_only_world gone : forall s,
  foldl (fun acc p => worldRemove p acc) s gone
  = set_world (world (foldl (fun acc p => worldRemove p acc) s gone)) s.
Proof.
  induction gone as [|p gone IH]; intros s; cbn [foldl].
  - by destruct s.
  - rewrite IH at 1. by destruct s.
Qed.

Lemma worldRemove_all_world gone i : forall s,
  i ∈ world (foldl (fun acc p => worldRemove p acc) s gone)
  <-> i ∈ world s ∧ i ∉ Matter.id <$> gone.
Proof.
  induction gone as [|p gone IH]; intros s; cbn [foldl].
  - rewrite fmap_nil. split; [|tauto]. intros H. split; [done|].
    apply not_elem_of_nil.
  - rewrite IH, fmap_cons, not_elem_of_cons. unfold worldRemove.
    cbn [world set_world]. rewrite list_elem_of_filter. tauto.
Qed.

Lemma cleanup_shape s :
  cleanupProjectiles s
  = set_projectilesRef
      (filter (fun p => isOutOfBounds p = false) (projectilesRef s))
      (set_world (world (cleanupProjectiles s)) s).
Proof.
  unfold cleanupProjectiles at 1. rewrite worldRemove_all_only_world.
  unfold cleanupProjectiles. by destruct s.
Qed.

Lemma list_Forall_filter_self {A} (P : A -> Prop) `{!forall a, Decision (P a)}
    (l : list A) :
  Forall P (filter P l).
Proof.
  apply Forall_forall. intros x Hx. by apply list_elem_of_filter in Hx as [? _].
Qed.

Lemma cleanup_fixed s :
  Forall (fun p => isOutOfBounds p = false) (projectilesRef s) ->
  cleanupProjectiles s = s.
Proof.
  intros Hall. unfold cleanupProjectiles.
  assert (filter (fun p => isOutOfBounds p = true) (projectilesRef s) = [])
    as ->.
  { induction Hall as [|x l Hx _ IH]; [done|].
    rewrite filter_cons_False; [done|]. by rewrite Hx. }
  assert (filter (fun p => isOutOfBounds p = false) (projectilesRef s)
          = projectilesRef s) as ->.
  { induction Hall as [|x l Hx _ IH]; [done|].
    by rewrite filter_cons_True, IH. }
  cbn [foldl]. by destruct s.
Qed.

(** X5. The clean-up keeps exactly the projectiles inside the box
    [0..8000] by [-200..800], edges included, in their order; it removes
    from the world exactly the ids of the projectiles it drops; it touches
    nothing else; and a second clean-up changes nothing. *)
Theorem cleanup_keeps_projectiles_in_bounds s :
  let s' := cleanupProjectiles s in
  (forall p, p ∈ projectilesRef s' <-> p ∈ projectilesRef s ∧ inBounds p)
  ∧ projectilesRef s' `sublist_of` projectilesRef s
  ∧ (forall i, i ∈ world s' <->
       i ∈ world s
       ∧ forall p, p ∈ projectilesRef s -> ¬ inBounds p -> Matter.id p ≠ i)
  ∧ s' = set_projectilesRef (projectilesRef s') (set_world (world s') s)
  ∧ cleanupProjectiles s' = s'.
Proof.
  cbn zeta.
  assert (projectilesRef (cleanupProjectiles s)
          = filter (fun p => isOutOfBounds p = false) (projectilesRef s))
    as HP by done.
  split; [|split; [|split; [|split]]].
  - intros p. rewrite HP, list_elem_of_filter, isOutOfBounds_false. tauto.
  - rewrite HP. apply sublist_filter.
  - intros i. unfold cleanupProjectiles. cbn [world set_projectilesRef].
    rewrite worldRemove_all_world. apply and_iff_compat_l.
    rewrite list_elem_of_fmap. split.
    + intros Hno p Hp Hout <-. apply Hno. exists p. split; [done|].
      apply list_elem_of_filter. split; [|done]. by apply isOutOfBounds_true.
    + intros Hno (p & -> & Hp). apply list_elem_of_filter in Hp as [Hout Hp].
      apply (Hno p Hp); [|done]. by apply isOutOfBounds_true.
  - rewrite cleanup_shape at 1. by rewrite HP.
  - apply cleanup_fixed. rewrite HP. apply list_Forall_filter_self.
Qed.

(** X6. A torso below [y = 860] while the mirror of the game state reads
    [playing] ends the game at the next React update, even over a
    transition queued earlier in the tick; at [y = 860] or above it, or
    once the mirror reads a terminal state, the check queues nothing. *)
Theorem fall_ends_game s :
  let y := Matter.y (Matter.position (playerRef s)) in
  (gameStateRef s = playing -> 860 < y ->
   gameState (flush (afterUpdate s)) = gameOver
   ∧ gameStateRef (flush (afterUpdate s)) = gameOver
   ∧ gameStateQueue (flush (afterUpdate s)) = [])
  ∧ (gameStateRef s ≠ playing ∨ y <= 860 ->
     gameStateQueue (afterUpdate s) = gameStateQueue s
     ∧ gameState (afterUpdate s) = gameState s).
Proof.
  cbn zeta.
  assert (playerRef (cleanupProjectiles s) = playerRef s) as HP
    by (by rewrite cleanup_shape).
  assert (gameStateRef (cleanupProjectiles s) = gameStateRef s) as HR
    by (by rewrite cleanup_shape).
  assert (gameStateQueue (cleanupProjectiles s) = gameStateQueue s) as HQ
    by (by rewrite cleanup_shape).
  assert (gameState (cleanupProjectiles s) = gameState s) as HG
    by (by rewrite cleanup_shape).
  unfold afterUpdate, fallCheck. rewrite HP, HR. split.
  - intros Href Hy.
    assert (Num.gtb (Matter.y (Matter.position (playerRef s)))
              (WORLD_HEIGHT + 260) = true) as ->.
    { apply NumFacts.gtb_true. unfold WORLD_HEIGHT. lra. }
    rewrite bool_decide_eq_true_2 by done. cbn [andb].
    unfold flush, syncGameStateRef.
    cbn [gameState gameStateRef gameStateQueue set_gameStateRef].
    rewrite render_last_wins. unfold setGameState.
    cbn [gameStateQueue set_gameStateQueue]. by rewrite last_snoc.
  - intros [Href|Hy].
    + rewrite bool_decide_eq_false_2 by done. rewrite andb_false_r.
      by rewrite HQ, HG.
    + assert (Num.gtb (Matter.y (Matter.position (playerRef s)))
                (WORLD_HEIGHT + 260) = false) as ->.
      { apply NumFacts.gtb_false. unfold WORLD_HEIGHT. lra. }
      cbn [andb]. by rewrite HQ, HG.
Qed.
End CleanupFacts.

(** ** The AI controller beyond the patrol and hover rules *)

Section AIControllerFacts.
Local Open Scope Q_scope.

(** X7. The moving platform is driven like a patroller, except that its
    vertical velocity is set to 0: for a non-negative range and a positive
    speed the rule never moves the platform, leaves origin, range and speed
    alone, turns the direction to +1 below the window and to -1 above it,
    keeps it inside the window, and sets the velocity to speed times
    direction along x. *)
Theorem platform_rule_turns_back inp s :
  let ai := movingPlatformAIRef s in
  let platform := movingPlatformRef s in
  0 <= pRange ai -> 0 < pSpeed ai ->
  let ai' := movingPlatformAIRef (aiController inp s) in
  let platform' := movingPlatformRef (aiController inp s) in
  let px := Matter.x (Matter.position platform) in
  let lo := pOriginX ai - pRange ai / 2 in
  let hi := pOriginX ai + pRange ai / 2 in
  untouched platform' = untouched platform
  ∧ (pOriginX ai', pRange ai', pSpeed ai') = (pOriginX ai, pRange ai, pSpeed ai)
  ∧ Matter.velocity platform'
    = Matter.mkVector (pSpeed ai * dirValue (pDir ai')) 0
  ∧ (px < lo -> pDir ai' = dirPlus ∧ 0 < Matter.x (Matter.velocity platform'))
  ∧ (hi < px -> pDir ai' = dirMinus ∧ Matter.x (Matter.velocity platform') < 0)
  ∧ (lo <= px -> px <= hi -> pDir ai' = pDir ai).
Proof.
  cbn zeta. intros Hrange Hspeed.
  assert (movingPlatformAIRef (aiController inp s)
          = (platformStep (movingPlatformAIRef s) (movingPlatformRef s)).1
          ∧ movingPlatformRef (aiController inp s)
            = (platformStep (movingPlatformAIRef s) (movingPlatformRef s)).2)
    as [-> ->] by done.
  generalize dependent (movingPlatformAIRef s).
  generalize (movingPlatformRef s). clear s inp. intros platform ai Hrange Hspeed.
  unfold platformStep. cbn zeta.
  assert (pRange ai / 2 == pRange ai * (1 # 2)) as E by (by field).
  destruct (Num.ltb _ _) eqn:Hlt; cbn [pOriginX set_pDir];
    destruct (Num.gtb _ _) eqn:Hgt;
    rewrite ?NumFacts.ltb_true, ?NumFacts.ltb_false in Hlt;
    rewrite ?NumFacts.gtb_true, ?NumFacts.gtb_false in Hgt;
    rewrite E in Hlt, Hgt; rewrite !E;
    cbn [fst snd Matter.position Matter.velocity Matter.setVelocity Matter.x
         pSpeed pDir pRange pOriginX set_pDir dirValue];
    (split; [done|]); (split; [done|]); (split; [done|]);
    repeat split; intros;
    try done; try lra; exfalso; lra.
Qed.

Lemma platform_rule_turns_back_witness :
  let s := physics (fun b => Matter.mkBody (Matter.id b) (Matter.label b)
                        (Matter.isSensor b) (Matter.mass b)
                        (Matter.frictionAir b) (Matter.mkVector 3661 280)
                        (Matter.velocity b) (Matter.force b)) Sample.start in
  let s' := aiController Sample.onGround s in
  pDir (movingPlatformAIRef s') = dirMinus
  ∧ Matter.x (Matter.velocity (movingPlatformRef s')) < 0.
Proof.
  cbn zeta.
  set (s := physics _ Sample.start).
  pose proof (platform_rule_turns_back Sample.onGround s) as H.
  cbn zeta in H.
  destruct H as (_ & _ & _ & _ & Hright & _); [by vm_compute | by vm_compute |].
  apply Hright. by vm_compute.
Defined.

(** X8. A flyer chases only at a distance above 1, so the division by the
    distance is never a division by zero, and below its chase radius; the
    velocity it is given then points from the flyer to the torso, and when
    [Math.hypot] returns the Euclidean distance its length is the speed
    parameter exactly.  The flyer is not moved, and the force that cancels
    gravity is added to what it has accumulated. *)
Theorem chase_velocity_towards_player inp ai player monster :
  chasing inp ai player monster = true ->
  let dx := Matter.x (Matter.position player)
            - Matter.x (Matter.position monster) in
  let dy := Matter.y (Matter.position player)
            - Matter.y (Matter.position monster) in
  let dist := hypot (math inp) dx dy in
  let monster' := flyingStep inp ai player monster in
  let v := Matter.velocity monster' in
  1 < dist ∧ dist < default 320 (chaseRadius ai)
  ∧ v = Matter.mkVector (dx / dist * speed ai) (dy / dist * speed ai)
  ∧ (dist * dist == dx * dx + dy * dy ->
     Matter.x v * Matter.x v + Matter.y v * Matter.y v == speed ai * speed ai)
  ∧ (0 <= speed ai -> 0 <= Matter.x v * dx ∧ 0 <= Matter.y v * dy)
  ∧ untouched monster' = untouched monster
  ∧ Matter.force monster'
    = Matter.mkVector (Matter.x (Matter.force monster) + 0)
        (Matter.y (Matter.force monster)
         + - Matter.mass monster * gravityAccel inp).
Proof.
  intros Hchase. cbn zeta. unfold flyingStep. cbn zeta. rewrite Hchase.
  unfold chasing in Hchase. cbn zeta in Hchase.
  apply andb_true_iff in Hchase as [Hfar Hnear].
  apply NumFacts.gtb_true in Hfar. apply NumFacts.ltb_true in Hnear.
  set (dx := Matter.x (Matter.position player)
             - Matter.x (Matter.position monster)) in *.
  set (dy := Matter.y (Matter.position player)
             - Matter.y (Matter.position monster)) in *.
  set (d := hypot (math inp) dx dy) in *.
  cbn [Matter.velocity Matter.setVelocity Matter.x Matter.y Matter.force
       Matter.applyForce].
  split; [done|]. split; [done|]. split; [done|].
  assert (¬ d == 0) as Hd by lra.
  split; [|split; [|done]].
  - intros Heu.
    transitivity ((dx * dx + dy * dy) * (speed ai * speed ai) / (d * d));
      [by field|].
    rewrite <- Heu. by field.
  - intros Hs.
    assert (0 < / d) as Hinv by (apply Qinv_lt_0_compat; lra).
    unfold Qdiv. set (k := / d) in *.
    assert (0 <= k * speed ai) by nra.
    split; nra.
Qed.

Lemma chase_velocity_towards_player_witness :
  let v := Matter.velocity
             (flyingStep SampleChase.tick SetUp.monster3AI
                SampleChase.nearPlayer SampleHover.strayFlyer) in
  Matter.x v * Matter.x v + Matter.y v * Matter.y v == 2.6 * 2.6.
Proof.
  cbn zeta.
  pose proof (chase_velocity_towards_player SampleChase.tick SetUp.monster3AI
                SampleChase.nearPlayer SampleHover.strayFlyer) as H.
  cbn zeta in H.
  destruct H as (_ & _ & _ & Hlen & _); [by vm_compute|].
  apply Hlen. by vm_compute.
Defined.
End AIControllerFacts.

(** ** The monster loop and what a run keeps *)

Section LoopFacts.
Lemma flyingStep_untouched inp ai player monster :
  untouched (flyingStep inp ai player monster) = untouched monster.
Proof. unfold flyingStep. by destruct (chasing _ _ _ _). Qed.

Lemma monsterLoop_frame inp player (D : gset Z) monsters : forall acc,
  dom acc.1 = D ->
  exists out,
    (foldl (monsterStep inp player) acc monsters).2 = acc.2 ++ out
    ∧ Forall2 (fun m m' => untouched m' = untouched m
                           ∧ (Matter.id m ∉ D -> m' = m)) monsters out.
Proof.
  induction monsters as [|m monsters IH]; intros acc HD; cbn [foldl].
  - exists []. by rewrite app_nil_r.
  - destruct (IH (monsterStep inp player acc m)) as (out & Hout & Hall).
    { by destruct (monsterStep_keeps inp player acc m) as [-> _]. }
    assert (exists m', (monsterStep inp player acc m).2 = acc.2 ++ [m']
                       ∧ untouched m' = untouched m
                       ∧ (Matter.id m ∉ D -> m' = m)) as (m' & Hm' & Hu & Hn).
    { unfold monsterStep.
      destruct (acc.1 !! Matter.id m) as [ai|] eqn:Hai.
      - assert (Matter.id m ∈ D) as Hin by (rewrite <- HD; by apply elem_of_dom).
        destruct (kind ai); cbn [fst snd]; eexists; (split; [reflexivity|]).
        + by split.
        + split; [apply flyingStep_untouched | done].
      - by exists m. }
    exists (m' :: out). rewrite Hout, Hm', <- app_assoc. split; [done|].
    by constructor.
Qed.

(** X9. The AI controller never moves a monster and never changes its id,
    label, mass or air friction: the tracked monsters afterwards are the
    same bodies in the same order, and a monster without an AI record is
    skipped unchanged.  The controller reads the torso and writes nothing
    of the player, the projectiles, the keys, the world or the game
    state. *)
Theorem ai_controller_moves_nothing inp s :
  let s' := aiController inp s in
  Forall2 (fun m m' => untouched m' = untouched m
                       ∧ (monsterAIRef s !! Matter.id m = None -> m' = m))
    (monstersRef s) (monstersRef s')
  ∧ dom (monsterAIRef s') = dom (monsterAIRef s)
  ∧ s' = set_movingPlatformRef (movingPlatformRef s')
           (set_movingPlatformAIRef (movingPlatformAIRef s')
              (set_monstersRef (monstersRef s')
                 (set_monsterAIRef (monsterAIRef s') s))).
Proof.
  cbn zeta. unfold aiController. cbn zeta.
  cbn [monstersRef monsterAIRef movingPlatformRef movingPlatformAIRef
       set_monstersRef set_monsterAIRef set_movingPlatformRef
       set_movingPlatformAIRef].
  destruct (monsterLoop_frame inp (playerRef s) (dom (monsterAIRef s))
              (monstersRef s) (monsterAIRef s, []) eq_refl)
    as (out & -> & Hall).
  destruct (monsterLoop_keeps inp (playerRef s) (monstersRef s)
              (monsterAIRef s, [])) as [-> _].
  cbn [fst snd app]. split; [|split; [done|by destruct s]].
  eapply Forall2_impl; [exact Hall|]. cbn beta.
  intros m m' [Hu Hn]. split; [done|]. intros Hnone. apply Hn.
  by apply not_elem_of_dom.
Qed.

Lemma sameTuning_refl ai : sameTuning ai ai.
Proof. by unfold sameTuning. Qed.

Lemma sameTuning_trans a b c : sameTuning a b -> sameTuning b c -> sameTuning a c.
Proof. unfold sameTuning. intros H1 H2. destruct_and!. repeat split; congruence. Qed.

Lemma patrolStep_tuning ai monster : sameTuning (patrolStep ai monster).1 ai.
Proof.
  unfold patrolStep. cbn zeta. cbn [fst].
  destruct (Num.ltb _ _); destruct (Num.gtb _ _); by unfold sameTuning.
Qed.

Lemma descends_refl s : descends s s.
Proof.
  unfold descends. repeat split; try done.
  intros i ai H. exists ai. split; [done | apply sameTuning_refl].
Qed.

Lemma descends_trans s1 s2 s3 :
  descends s1 s2 -> descends s2 s3 -> descends s1 s3.
Proof.
  intros (A1 & B1 & C1 & D1) (A2 & B2 & C2 & D2). unfold descends.
  split; [|split; [|split]].
  - intros i ai H. destruct (A2 i ai H) as (ai1 & H1 & T1).
    destruct (A1 i ai1 H1) as (ai0 & H0 & T0).
    exists ai0. split; [done|]. by apply (sameTuning_trans _ ai1).
  - by transitivity (monsterStyleSeedRef s2).
  - by transitivity (trackedIds s2).
  - by transitivity (length (monstersRef s2)).
Qed.

Lemma descends_same s s' :
  Matter.id <$> monstersRef s' = Matter.id <$> monstersRef s ->
  monsterAIRef s' = monsterAIRef s ->
  monsterStyleSeedRef s' = monsterStyleSeedRef s ->
  descends s s'.
Proof.
  intros Hm Ha Hs. unfold descends, trackedIds. rewrite Hm, Ha, Hs.
  split; [|split; [done|split; [done|]]].
  - intros i ai H. exists ai. split; [done | apply sameTuning_refl].
  - apply (f_equal length) in Hm. rewrite !length_fmap in Hm. by rewrite Hm.
Qed.

Lemma descends_removeHit p m s : descends s (removeHit p m s).
Proof.
  unfold descends, trackedIds, removeHit, worldRemove.
  cbn [monstersRef monsterAIRef monsterStyleSeedRef set_world
       set_projectilesRef set_monstersRef set_monsterAIRef
       set_monsterStyleSeedRef].
  split; [|split; [|split]].
  - intros i ai H. exists ai. split; [|apply sameTuning_refl].
    apply lookup_delete_Some in H. tauto.
  - apply delete_subseteq.
  - rewrite tracked_after_filter. intros i Hi.
    apply elem_of_difference in Hi. tauto.
  - apply length_filter.
Qed.

Lemma descends_handlePair s pair : descends s (handlePair s pair).
Proof.
  unfold handlePair, guardedTransition.
  split_ifs; try apply descends_removeHit; by apply descends_same.
Qed.

Lemma descends_collisionStart pairs : forall s,
  descends s (collisionStart pairs s).
Proof.
  unfold collisionStart.
  induction pairs as [|pair pairs IH]; intros s; cbn [foldl].
  - apply descends_refl.
  - exact (descends_trans _ _ _ (descends_handlePair s pair) (IH _)).
Qed.

Lemma monsterLoop_tuning inp player monsters : forall acc i ai,
  (foldl (monsterStep inp player) acc monsters).1 !! i = Some ai ->
  exists ai0, acc.1 !! i = Some ai0 ∧ sameTuning ai ai0.
Proof.
  induction monsters as [|m monsters IH]; intros acc i ai; cbn [foldl].
  - intros H. exists ai. split; [done | apply sameTuning_refl].
  - intros H. destruct (IH _ _ _ H) as (ai1 & H1 & T1). clear H IH.
    unfold monsterStep in H1.
    destruct (acc.1 !! Matter.id m) as [aim|] eqn:Hm;
      [destruct (kind aim)|]; cbn [fst snd] in H1;
      try (exists ai1; by split).
    destruct (decide (i = Matter.id m)) as [->|Hne].
    + rewrite lookup_insert_eq in H1. injection H1 as <-.
      exists aim. split; [done|].
      exact (sameTuning_trans _ _ _ T1 (patrolStep_tuning aim m)).
    + rewrite lookup_insert_ne in H1 by done. exists ai1. by split.
Qed.

Lemma descends_aiController inp s : descends s (aiController inp s).
Proof.
  unfold descends, trackedIds, aiController.
  cbn [monstersRef monsterAIRef monsterStyleSeedRef set_monstersRef
       set_monsterAIRef set_movingPlatformRef set_movingPlatformAIRef].
  destruct (monsterLoop_keeps inp (playerRef s) (monstersRef s)
              (monsterAIRef s, [])) as [_ Hids].
  cbn [fst snd fmap list_fmap app] in Hids.
  split; [|split; [done|split]].
  - intros i ai H. exact (monsterLoop_tuning _ _ _ _ _ _ H).
  - by rewrite Hids.
  - apply (f_equal length) in Hids. rewrite !length_fmap in Hids.
    by rewrite Hids.
Qed.

Lemma descends_step s e : descends s (step s e).
Proof.
  destruct e as [code|code|p|inp|k|pairs| |]; cbn [step];
    try (by apply descends_same).
  - apply (descends_trans _ (playerController inp s));
      [|apply descends_aiController].
    destruct (playerController_registry inp s) as (H1 & H2 & H3).
    apply descends_same; [by rewrite H1 | done | done].
  - apply descends_same; [|done..]. unfold physics. cbn [monstersRef].
    rewrite <- list_fmap_compose.
    by assert (Matter.id ∘ moveBody k = Matter.id) as -> by done.
  - apply descends_collisionStart.
  - assert (monstersRef (cleanupProjectiles s) = monstersRef s
            ∧ monsterAIRef (cleanupProjectiles s) = monsterAIRef s
            ∧ monsterStyleSeedRef (cleanupProjectiles s)
              = monsterStyleSeedRef s) as (H1 & H2 & H3)
      by (by rewrite cleanup_shape).
    unfold afterUpdate, fallCheck.
    apply descends_same; destruct (_ && _);
      cbn [monstersRef monsterAIRef monsterStyleSeedRef setGameState
           set_gameStateQueue]; congruence.
Qed.

Lemma descends_run es : forall s, descends s (run s es).
Proof.
  unfold run. induction es as [|e es IH]; intros s; cbn [foldl].
  - apply descends_refl.
  - exact (descends_trans _ _ _ (descends_step s e) (IH _)).
Qed.

(** X10. A monster that has been removed never comes back and none is
    ever added: along every run, from any state, the set of tracked
    monster ids only shrinks and the number of tracked monsters never
    grows. *)
Theorem monsters_never_return s (es1 es2 : list Event) :
  trackedIds (run s (es1 ++ es2)) ⊆ trackedIds (run s es1)
  ∧ (length (monstersRef (run s (es1 ++ es2)))
     <= length (monstersRef (run s es1)))%nat.
Proof.
  unfold run. rewrite foldl_app.
  destruct (descends_run es2 (foldl step s es1)) as (_ & _ & H1 & H2).
  by split.
Qed.

(** X11. In every state of every run from the initial state, each tracked
    monster has an AI record that differs from the one the set-up gave it
    in its direction at most (kind, origin, range, speed, chase radius and
    hover parameters are never written), and its style seed is the one
    computed from its id at set-up, so the renderer's fallback seed is
    never used for a tracked monster. *)
Theorem monster_records_keep_tuning props sub (es : list Event) :
  let s := run (initial props sub) es in
  Forall (fun m =>
    exists ai ai0,
      monsterAIRef s !! Matter.id m = Some ai
      ∧ monsterAIRef (initial props sub) !! Matter.id m = Some ai0
      ∧ sameTuning ai ai0
      ∧ monsterStyleSeedRef s !! Matter.id m
        = Some (SetUp.styleSeed (Matter.id m))) (monstersRef s).
Proof.
  cbn zeta. apply Forall_forall. intros m Hm.
  destruct (registry_run es _ (registry_initial props sub)) as [Hai Hseed].
  destruct (descends_run es (initial props sub)) as (Htun & Hsub & _).
  assert (Matter.id m ∈ trackedIds (run (initial props sub) es)) as Hin.
  { unfold trackedIds. apply elem_of_list_to_set, list_elem_of_fmap.
    by exists m. }
  assert (is_Some (monsterAIRef (run (initial props sub) es) !! Matter.id m))
    as [ai Hlook] by (apply elem_of_dom; by rewrite Hai).
  assert (is_Some (monsterStyleSeedRef (run (initial props sub) es)
                     !! Matter.id m))
    as [seed Hs] by (apply elem_of_dom; by rewrite Hseed).
  destruct (Htun _ _ Hlook) as (ai0 & H0 & T).
  exists ai, ai0. repeat split; try done; try apply T.
  rewrite Hs. f_equal.
  pose proof (lookup_weaken _ _ _ _ Hs Hsub) as Hs0.
  cbn [initial SetUp.initial monsterStyleSeedRef] in Hs0.
  repeat (apply lookup_insert_Some in Hs0 as [[<- <-]|[_ Hs0]]; [done|]).
  by rewrite lookup_empty in Hs0.
Qed.
End LoopFacts.

(** ** The key listeners and the player controller, step by step *)

Section ControllerSteps.
Local Open Scope Q_scope.

Lemma fireStep_facing s : playerFacingRef (fireStep s) = playerFacingRef s.
Proof. unfold fireStep. by destruct (key s "KeyK"). Qed.

Lemma axisOf_fireStep s : axisOf (fireStep s) = axisOf s.
Proof. unfold axisOf. by rewrite !key_fireStep. Qed.

Lemma playerController_unfold inp s :
  playerController inp s
  = jumpStep (grounded inp s)
      (clampStep (grounded inp s)
         (movementStep (grounded inp s) (axisOf s)
            (facingStep (axisOf s)
               (set_playerGroundedRef (grounded inp s) (castRay (fireStep s)))))).
Proof.
  unfold playerController, grounded. cbn zeta. rewrite groundCheck_rayed.
  change (axisOf (set_playerGroundedRef (groundCheck inp s) (castRay (fireStep s))))
    with (axisOf (fireStep s)).
  by rewrite axisOf_fireStep.
Qed.

Lemma playerController_keysRef inp s :
  keysRef (playerController inp s) = keysRef (fireStep s).
Proof.
  rewrite playerController_unfold.
  set (g := grounded inp s). set (a := axisOf s).
  set (s2 := set_playerGroundedRef g (castRay (fireStep s))).
  destruct (facingStep_frame a s2) as ((_ & _ & _ & K1 & _) & _).
  destruct (movementStep_frame g a (facingStep a s2))
    as ((_ & _ & _ & K2 & _) & _).
  destruct (clampStep_frame g (movementStep g a (facingStep a s2)))
    as ((_ & _ & _ & K3 & _) & _).
  transitivity (keysRef (clampStep g (movementStep g a (facingStep a s2)))).
  - unfold jumpStep. by split_ifs.
  - by rewrite K3, K2, K1.
Qed.

Lemma aiController_keysRef inp s : keysRef (aiController inp s) = keysRef s.
Proof. unfold aiController. reflexivity. Qed.

Lemma key_tick inp s code :
  key (step s (BeforeUpdate inp)) code = key (fireStep s) code.
Proof.
  unfold key. cbn [step].
  by rewrite aiController_keysRef, playerController_keysRef.
Qed.

Lemma key_step s e code :
  presses code e = false -> releases code e = false ->
  code ≠ "KeyK" ∨ isBeforeUpdate e = false ->
  key (step s e) code = key s code.
Proof.
  intros Hp Hr Hk.
  destruct e as [c|c|p|inp|k|pairs| |]; try (cbn [step]; done).
  - cbn [presses] in Hp. apply String.eqb_neq in Hp.
    unfold key. cbn [step handleKeyDown keysRef set_keysRef].
    by rewrite lookup_insert_ne.
  - cbn [releases] in Hr. apply String.eqb_neq in Hr.
    unfold key. cbn [step handleKeyUp keysRef set_keysRef].
    by rewrite lookup_insert_ne.
  - destruct Hk as [Hk|Hk]; [|done].
    rewrite key_tick. by apply key_fireStep.
  - cbn [step]. unfold collisionStart. clear. revert s.
    induction pairs as [|pair pairs IH]; intros s; cbn [foldl]; [done|].
    rewrite IH. unfold handlePair, guardedTransition. by split_ifs.
  - cbn [step]. unfold afterUpdate, fallCheck, key.
    assert (keysRef (cleanupProjectiles s) = keysRef s) as H
      by (by rewrite cleanup_shape).
    destruct (_ && _); cbn [keysRef setGameState set_gameStateQueue];
      by rewrite H.
Qed.

(** X12. What the listeners store stays until the next listener call for
    the same key: a key other than K reads down from its [keydown] until
    its [keyup], through any ticks, engine steps, collisions, prop changes
    and React updates and any events of other keys; every key, K included,
    reads up from its [keyup] until its next [keydown]; and K reads up
    after every tick. *)
Theorem key_state_between_listeners s (es : list Event) code :
  (code ≠ "KeyK" -> forallb (fun e => negb (releases code e)) es = true ->
   key (run (step s (KeyDown code)) es) code = true)
  ∧ (forallb (fun e => negb (presses code e)) es = true ->
     key (run (step s (KeyUp code)) es) code = false)
  ∧ (forall inp, key (step s (BeforeUpdate inp)) "KeyK" = false).
Proof.
  split; [|split].
  - intros Hne Hes.
    assert (key (step s (KeyDown code)) code = true) as H0.
    { unfold key. cbn [step handleKeyDown keysRef set_keysRef].
      by rewrite lookup_insert_eq. }
    revert H0. generalize (step s (KeyDown code)). clear s.
    unfold run. induction es as [|e es IH]; intros s H0; cbn [foldl]; [done|].
    cbn [forallb] in Hes. apply andb_true_iff in Hes as [He Hes].
    apply negb_true_iff in He. apply (IH Hes).
    destruct (presses code e) eqn:Hp.
    + destruct e; try done. cbn [presses] in Hp.
      apply String.eqb_eq in Hp as ->.
      unfold key. cbn [step handleKeyDown keysRef set_keysRef].
      by rewrite lookup_insert_eq.
    + rewrite key_step; try done. by left.
  - intros Hes.
    assert (key (step s (KeyUp code)) code = false) as H0.
    { unfold key. cbn [step handleKeyUp keysRef set_keysRef].
      by rewrite lookup_insert_eq. }
    revert H0. generalize (step s (KeyUp code)). clear s.
    unfold run. induction es as [|e es IH]; intros s H0; cbn [foldl]; [done|].
    cbn [forallb] in Hes. apply andb_true_iff in Hes as [He Hes].
    apply negb_true_iff in He. apply (IH Hes).
    destruct (releases code e) eqn:Hr.
    + destruct e; try done. cbn [releases] in Hr.
      apply String.eqb_eq in Hr as ->.
      unfold key. cbn [step handleKeyUp keysRef set_keysRef].
      by rewrite lookup_insert_eq.
    + destruct (decide (code = "KeyK")) as [->|Hne];
        [|rewrite key_step; try done; by left].
      destruct (isBeforeUpdate e) eqn:Hb;
        [|rewrite key_step; try done; by right].
      destruct e as [| | |inp| | | |]; try done.
      rewrite key_tick. unfold fireStep. by rewrite H0.
  - intros inp. rewrite key_tick.
    destruct (fireStep_spawns_one s) as [Hdown Hup]. cbn zeta in Hdown.
    destruct (key s "KeyK") eqn:Hk.
    + by destruct (Hdown eq_refl) as (? & _ & _ & _ & _ & ?).
    + by rewrite (Hup eq_refl).
Qed.
End ControllerSteps.

Section TorsoFacts.
Local Open Scope Q_scope.

Lemma movementStep_torso g a s :
  let p := playerRef s in
  let p' := playerRef (movementStep g a s) in
  let vx := Matter.x (Matter.velocity p) in
  untouched p' = untouched p
  ∧ Matter.y (Matter.velocity p') = Matter.y (Matter.velocity p)
  ∧ Matter.y (Matter.force p') == Matter.y (Matter.force p)
  ∧ (a ≠ 0%Z ->
     Matter.velocity p' = Matter.velocity p
     ∧ Matter.x (Matter.force p')
       = Matter.x (Matter.force p)
         + inject_Z a * accelPerMass g * Matter.mass p)
  ∧ (a = 0%Z -> 0.02 < Qabs vx ->
     Matter.velocity p' = Matter.velocity p
     ∧ Matter.x (Matter.force p')
       = Matter.x (Matter.force p) + - vx * brakePerMass g * Matter.mass p)
  ∧ (a = 0%Z -> Qabs vx <= 0.02 ->
     Matter.force p' = Matter.force p
     ∧ (g = true -> Matter.x (Matter.velocity p') = 0)
     ∧ (g = false -> p' = p)).
Proof.
  cbn zeta. unfold movementStep. cbn zeta.
  destruct (a =? 0)%Z eqn:Ha; cbn [negb].
  - apply Z.eqb_eq in Ha.
    destruct (Num.gtb _ _) eqn:Hband.
    + apply NumFacts.gtb_true in Hband.
      cbn [playerRef set_playerRef Matter.applyForce Matter.velocity
           Matter.force Matter.x Matter.y].
      repeat split; try done; intros; lra.
    + apply NumFacts.gtb_false in Hband.
      destruct g; cbn [playerRef set_playerRef Matter.setVelocity
                       Matter.velocity Matter.force Matter.x Matter.y];
        repeat split; try done; intros; lra.
  - apply Z.eqb_neq in Ha.
    cbn [playerRef set_playerRef Matter.applyForce Matter.velocity
         Matter.force Matter.x Matter.y].
    repeat split; try done; intros; lra.
Qed.

Lemma maxSpeed_pos g : 0 < maxSpeed g.
Proof. by destruct g. Qed.

Lemma clampStep_torso g s :
  let p := playerRef s in
  let p' := playerRef (clampStep g s) in
  untouched p' = untouched p
  ∧ Matter.force p' = Matter.force p
  ∧ Matter.y (Matter.velocity p') = Matter.y (Matter.velocity p)
  ∧ (Qabs (Matter.x (Matter.velocity p)) <= maxSpeed g -> p' = p).
Proof.
  cbn zeta. unfold clampStep. cbn zeta.
  destruct (Num.gtb _ _) eqn:Hgt; [|destruct (Num.ltb _ _) eqn:Hlt];
    cbn [playerRef set_playerRef Matter.setVelocity Matter.velocity
         Matter.force Matter.x Matter.y];
    repeat split; try done; intros Hcap;
    apply Qabs_Qle_condition in Hcap as [Hlo Hhi]; exfalso.
  - apply NumFacts.gtb_true in Hgt. exact (Qlt_not_le _ _ Hgt Hhi).
  - apply NumFacts.ltb_true in Hlt. exact (Qlt_not_le _ _ Hlt Hlo).
Qed.

Lemma jumpStep_torso g s :
  let p := playerRef s in
  let p' := playerRef (jumpStep g s) in
  untouched p' = untouched p
  ∧ Matter.force p' = Matter.force p
  ∧ Matter.x (Matter.velocity p') = Matter.x (Matter.velocity p)
  ∧ (Matter.y (Matter.velocity p') = Matter.y (Matter.velocity p)
     ∨ Matter.y (Matter.velocity p') = - jumpStrengthRef s)
  ∧ (g = false -> p' = p).
Proof.
  cbn zeta. unfold jumpStep. cbn zeta.
  destruct (jumpDown s && negb (jumpWasDownRef s)); destruct g;
    cbn [andb playerRef set_playerRef set_jumpWasDownRef Matter.setVelocity
         Matter.velocity Matter.force Matter.x Matter.y jumpStrengthRef];
    repeat split; try done; by (left + right).
Qed.

(** The torso before the movement block is the torso before the tick. *)
Lemma torso_before_movement g a s :
  playerRef (facingStep a (set_playerGroundedRef g (castRay (fireStep s))))
  = playerRef s.
Proof.
  destruct (facingStep_frame a (set_playerGroundedRef g (castRay (fireStep s))))
    as (_ & -> & _).
  cbn [playerRef set_playerGroundedRef].
  by destruct (rayed_player s) as (-> & _).
Qed.

Lemma untouched_position (p p' : Body) :
  untouched p' = untouched p ->
  Matter.position p' = Matter.position p ∧ Matter.mass p' = Matter.mass p.
Proof. unfold untouched. intros H. by injection H. Qed.

(** X13. The player controller writes nothing of the torso but its
    velocity and its accumulated force: it never moves the torso, never
    moves or changes the head, leaves the vertical force alone, and leaves
    the vertical velocity alone unless it sets it to minus the jump
    strength of the jump-strength ref. *)
Theorem player_controller_sets_velocity_and_force_only inp s :
  let p := playerRef s in
  let p' := playerRef (playerController inp s) in
  untouched p' = untouched p
  ∧ playerHeadRef (playerController inp s) = playerHeadRef s
  ∧ Matter.y (Matter.force p') == Matter.y (Matter.force p)
  ∧ (Matter.y (Matter.velocity p') = Matter.y (Matter.velocity p)
     ∨ Matter.y (Matter.velocity p') = - jumpStrengthRef s).
Proof.
  cbn zeta.
  destruct (playerController_frame inp s) as (_ & _ & _ & Hhead & _).
  destruct (beforeJump_refs inp s) as (_ & _ & Hstrength & _).
  rewrite playerController_unfold in *.
  set (g := grounded inp s) in *. set (a := axisOf s) in *.
  set (s3 := facingStep a (set_playerGroundedRef g (castRay (fireStep s)))) in *.
  pose proof (torso_before_movement g a s) as H3. fold s3 in H3.
  destruct (movementStep_torso g a s3) as (M1 & M2 & M3 & _).
  destruct (clampStep_torso g (movementStep g a s3)) as (C1 & C2 & C3 & _).
  destruct (jumpStep_torso g (clampStep g (movementStep g a s3)))
    as (J1 & J2 & _ & J4 & _).
  cbn zeta in *. rewrite H3 in *.
  split; [congruence|]. split; [done|]. split; [by rewrite J2, C2|].
  destruct J4 as [J4|J4]; [left; congruence|right].
  rewrite J4. f_equal. rewrite <- Hstrength.
  unfold beforeJump. cbn zeta. rewrite groundCheck_rayed.
  change (axisOf (set_playerGroundedRef (groundCheck inp s) (castRay (fireStep s))))
    with (axisOf (fireStep s)).
  by rewrite axisOf_fireStep.
Qed.

(** X14. The horizontal force of a tick is decided by the input: with a
    direction held it is the acceleration per mass times the mass along
    that direction; with none held and the torso faster than 0.02 it is a
    brake against the velocity, proportional to it; with none held and
    the torso slower, no force is applied, a torso on the ground is
    stopped dead and a torso in the air is left as it is. *)
Theorem controller_force_by_input inp s :
  let p := playerRef s in
  let p' := playerRef (playerController inp s) in
  let g := grounded inp s in
  let vx := Matter.x (Matter.velocity p) in
  (axisOf s ≠ 0%Z ->
   Matter.x (Matter.force p')
   = Matter.x (Matter.force p)
     + inject_Z (axisOf s) * accelPerMass g * Matter.mass p)
  ∧ (axisOf s = 0%Z -> 0.02 < Qabs vx ->
     Matter.x (Matter.force p')
     = Matter.x (Matter.force p) + - vx * brakePerMass g * Matter.mass p
     ∧ (0 < Matter.mass p ->
        (Matter.x (Matter.force p') - Matter.x (Matter.force p)) * vx < 0))
  ∧ (axisOf s = 0%Z -> Qabs vx <= 0.02 ->
     Matter.force p' = Matter.force p
     ∧ (g = true -> Matter.x (Matter.velocity p') = 0)
     ∧ (g = false -> p' = p)).
Proof.
  cbn zeta. rewrite playerController_unfold.
  set (g := grounded inp s) in *. set (a := axisOf s) in *.
  set (s3 := facingStep a (set_playerGroundedRef g (castRay (fireStep s)))) in *.
  pose proof (torso_before_movement g a s) as H3. fold s3 in H3.
  destruct (movementStep_torso g a s3) as (_ & _ & _ & Ma & Mb & Mc).
  destruct (clampStep_torso g (movementStep g a s3)) as (_ & C2 & _ & C4).
  destruct (jumpStep_torso g (clampStep g (movementStep g a s3)))
    as (_ & J2 & J3 & _ & J5).
  cbn zeta in *. rewrite H3 in *. rewrite J2, C2.
  split; [|split].
  - intros Ha. by destruct (Ma Ha) as [_ ->].
  - intros Ha Hv. destruct (Mb Ha Hv) as [_ ->]. split; [done|].
    intros Hm.
    assert (0 < brakePerMass g) as Hb by (by destruct g).
    set (vx := Matter.x (Matter.velocity (playerRef s))) in *.
    assert (0 < vx * vx) as Hsq.
    { destruct (Qlt_le_dec vx 0) as [Hn|Hp].
      - rewrite Qabs_neg in Hv by lra. nra.
      - rewrite Qabs_pos in Hv by done. nra. }
    assert (0 < brakePerMass g * Matter.mass (playerRef s)) as Hbm by nra.
    nra.
  - intros Ha Hv. destruct (Mc Ha Hv) as (Mf & Mg & Mn).
    split; [done|]. split.
    + intros Hg. rewrite J3.
      assert (Qabs (Matter.x (Matter.velocity (playerRef (movementStep g a s3))))
              <= maxSpeed g) as Hcap.
      { rewrite (Mg Hg). pose proof (maxSpeed_pos g). by apply Qlt_le_weak. }
      rewrite (C4 Hcap). by apply Mg.
    + intros Hg. rewrite (J5 Hg). rewrite C4; [by apply Mn|].
      rewrite (Mn Hg). pose proof (maxSpeed_pos g).
      apply (Qle_trans _ 0.02); [done|]. by destruct g.
Qed.
End TorsoFacts.

Section FacingFacts.
Local Open Scope Q_scope.

Lemma jumpStep_flags g s :
  playerGroundedRef (jumpStep g s) = playerGroundedRef s
  ∧ playerFacingRef (jumpStep g s) = playerFacingRef s
  ∧ jumpStrengthRef (jumpStep g s) = jumpStrengthRef s.
Proof. unfold jumpStep. by split_ifs. Qed.

Lemma clampStep_facing g s :
  playerFacingRef (clampStep g s) = playerFacingRef s.
Proof. unfold clampStep. by split_ifs. Qed.

Lemma movementStep_facing g a s :
  playerFacingRef (movementStep g a s) = playerFacingRef s.
Proof. unfold movementStep. by split_ifs. Qed.

Lemma playerController_facing inp s :
  playerFacingRef (playerController inp s)
  = playerFacingRef
      (facingStep (axisOf s)
         (set_playerGroundedRef (grounded inp s) (castRay (fireStep s)))).
Proof.
  rewrite playerController_unfold.
  destruct (jumpStep_flags (grounded inp s)
              (clampStep (grounded inp s)
                 (movementStep (grounded inp s) (axisOf s)
                    (facingStep (axisOf s)
                       (set_playerGroundedRef (grounded inp s)
                          (castRay (fireStep s))))))) as (_ & -> & _).
  by rewrite clampStep_facing, movementStep_facing.
Qed.

Lemma playerController_groundFlag inp s :
  playerGroundedRef (playerController inp s) = grounded inp s.
Proof.
  rewrite playerController_split.
  destruct (jumpStep_flags (grounded inp s) (beforeJump inp s)) as (-> & _).
  by destruct (beforeJump_refs inp s) as (_ & _ & _ & ->).
Qed.

(** X15. The facing follows the input: the axis is +1, 0 or -1, and 0
    when both a left and a right key are down; with the axis at +1 or -1
    the facing after the tick is that direction; with the axis at 0 it
    turns to the direction of a horizontal velocity beyond 0.35 and is
    kept otherwise. *)
Theorem facing_follows_input inp s :
  let facing' := playerFacingRef (playerController inp s) in
  let vx := Matter.x (Matter.velocity (playerRef s)) in
  let left := key s "ArrowLeft" || key s "KeyA" in
  let right := key s "ArrowRight" || key s "KeyD" in
  axisOf s = ((if right then 1 else 0) - (if left then 1 else 0))%Z
  ∧ (axisOf s = 1%Z -> facing' = dirPlus)
  ∧ (axisOf s = (-1)%Z -> facing' = dirMinus)
  ∧ (axisOf s = 0%Z -> 0.35 < vx -> facing' = dirPlus)
  ∧ (axisOf s = 0%Z -> vx < -0.35 -> facing' = dirMinus)
  ∧ (axisOf s = 0%Z -> -0.35 <= vx -> vx <= 0.35 ->
     facing' = playerFacingRef s).
Proof.
  cbn zeta. rewrite playerController_facing.
  split; [unfold axisOf; by split_ifs|].
  unfold facingStep. cbn zeta.
  destruct (rayed_player s) as (Hp & _).
  pose proof (fireStep_facing s) as Hf.
  repeat split; intros Ha; rewrite Ha; cbn [Z.eqb Pos.eqb];
    cbn [playerRef playerFacingRef set_playerFacingRef
         set_playerGroundedRef]; try done; rewrite Hp.
  - intros Hv. apply NumFacts.gtb_true in Hv. rewrite Hv.
    destruct (Num.ltb _ _) eqn:Hlt; [|done].
    apply NumFacts.ltb_true in Hlt. apply NumFacts.gtb_true in Hv. lra.
  - intros Hv. apply NumFacts.ltb_true in Hv. by rewrite Hv.
  - intros Hlo Hhi.
    apply NumFacts.ltb_false in Hlo. apply NumFacts.gtb_false in Hhi.
    by rewrite Hlo, Hhi.
Qed.

(** X16. A shot takes the facing of before the tick: with K down the
    handler tracks exactly one more projectile, whose id is the value of
    the id counter on entry, moving at 15 along the facing the player had
    when the handler was entered, whatever direction is held in the same
    tick; and K reads up afterwards.  Every call of the handler advances
    the id counter by one for the body of the ground-check ray, and by one
    more when it fires. *)
Theorem shot_takes_facing_before_tick inp s :
  let s' := playerController inp s in
  nextId s' = (nextId s + (if key s "KeyK" then 2 else 1))%Z
  ∧ (key s "KeyK" = true ->
     exists projectile,
       projectilesRef s' = projectilesRef s ++ [projectile]
       ∧ Matter.id projectile = nextId s
       ∧ Matter.velocity projectile
         = Matter.mkVector (dirValue (playerFacingRef s) * 15) 0
       ∧ key s' "KeyK" = false).
Proof.
  cbn zeta.
  destruct (playerController_tracking inp s) as [-> ->].
  unfold key at 3. rewrite playerController_keysRef.
  unfold fireStep. split.
  - destruct (key s "KeyK");
      cbn [nextId createProjectile set_keysRef set_projectilesRef set_world
           set_nextId]; lia.
  - intros Hk. rewrite Hk. eexists. split; [reflexivity|].
    split; [done|]. split; [done|].
    unfold createProjectile.
    cbn [keysRef set_keysRef set_projectilesRef set_world set_nextId].
    by rewrite lookup_insert_eq.
Qed.

Lemma shot_takes_facing_before_tick_witness :
  let s' := playerController Sample.onGround SampleFire.turning in
  let twice := run Sample.start
                 [KeyDown "KeyK"; BeforeUpdate Sample.onGround;
                  BeforeUpdate Sample.onGround; KeyDown "KeyK";
                  BeforeUpdate Sample.onGround] in
  Matter.id <$> projectilesRef twice = [43%Z; 46%Z]
  ∧ playerFacingRef s' = dirMinus
  ∧ nextId s' = 45%Z
  ∧ exists projectile,
      last (projectilesRef s') = Some projectile
      ∧ Matter.id projectile = 43%Z
      ∧ Matter.x (Matter.velocity projectile) == 15.
Proof.
  cbn zeta. split; [by vm_compute|]. split; [by vm_compute|].
  destruct (shot_takes_facing_before_tick Sample.onGround SampleFire.turning)
    as (Hn & Hshot).
  split; [rewrite Hn; by vm_compute|].
  destruct Hshot as (projectile & Hp & Hi & Hv & _); [by vm_compute|].
  exists projectile. rewrite Hp, last_snoc, Hv, Hi.
  split; [done|]. split; by vm_compute.
Defined.

(** X17. The ground flag of a tick is set exactly when the ray hits a
    body that is neither the torso nor the head, is not a sensor and is
    labelled neither [monster] nor [boundary]; with the flag clear the
    controller leaves the vertical velocity alone whatever keys are down,
    so there is no jump off a monster, a wall or the goal sensor. *)
Theorem ground_flag_needs_footing inp s :
  let s' := playerController inp s in
  (playerGroundedRef s' = true <->
   exists b, b ∈ rayHits inp
     ∧ Matter.id b ≠ Matter.id (playerRef s)
     ∧ Matter.id b ≠ Matter.id (playerHeadRef s)
     ∧ Matter.isSensor b = false
     ∧ Matter.label b ≠ "monster" ∧ Matter.label b ≠ "boundary")
  ∧ (playerGroundedRef s' = false ->
     Matter.y (Matter.velocity (playerRef s'))
     = Matter.y (Matter.velocity (playerRef s))).
Proof.
  cbn zeta. rewrite playerController_groundFlag. split.
  - unfold grounded, groundCheck. rewrite existsb_exists.
    split; intros (b & Hin & Hb); exists b.
    + apply list_elem_of_In in Hin. split; [done|].
      unfold isFooting in Hb.
      destruct (Z.eqb_spec (Matter.id b) (Matter.id (playerRef s))); [done|].
      destruct (Z.eqb_spec (Matter.id b) (Matter.id (playerHeadRef s)));
        [done|].
      destruct (Matter.isSensor b); [done|].
      destruct (String.eqb_spec (Matter.label b) "monster"); [done|].
      destruct (String.eqb_spec (Matter.label b) "boundary"); [done|].
      done.
    + split; [by apply list_elem_of_In|].
      destruct Hb as (H1 & H2 & H3 & H4 & H5). unfold isFooting.
      apply Z.eqb_neq in H1, H2. apply String.eqb_neq in H4, H5.
      by rewrite H1, H2, H3, H4, H5.
  - intros Hg. rewrite playerController_unfold.
    set (g := grounded inp s) in *. set (a := axisOf s) in *.
    set (s3 := facingStep a (set_playerGroundedRef g (castRay (fireStep s)))) in *.
    pose proof (torso_before_movement g a s) as H3. fold s3 in H3.
    destruct (movementStep_torso g a s3) as (_ & M2 & _).
    destruct (clampStep_torso g (movementStep g a s3)) as (_ & _ & C3 & _).
    destruct (jumpStep_torso g (clampStep g (movementStep g a s3)))
      as (_ & _ & _ & _ & J5).
    cbn zeta in *. rewrite (J5 Hg), C3, M2. by rewrite H3.
Qed.
End FacingFacts.

(** ** Scroll suppression, React updates and the jump-strength ref *)

Section ListenerFacts.
(** X18. With the container mounted, the listeners suppress the browser's
    default only while it holds the focus and the mirror ref reads
    [playing].  Under every schedule from the initial state (events,
    renders and effects in any order, set-up re-runs): while the game
    state is [playing] the ref reads [playing] too, so a wheel or touch
    move is suppressed exactly when the container has the focus, and a key
    exactly when it is also an arrow key or Space; once the ref reads a
    terminal state the game state is terminal and nothing is suppressed.
    In between, after the render that ends the game and before its effect,
    keys are still suppressed.  Keys other than those five are never
    suppressed; with no container the ref is not looked at. *)
Theorem scroll_suppression_follows_game_state props sub (acts : list Action)
    (focused : bool) (code : string) :
  let s := play (initial props sub) acts in
  (gameStateRef s ≠ playing ->
   gameState s ≠ playing
   ∧ keyPreventsDefault (Some focused) code s = false
   ∧ scrollPreventsDefault (Some focused) s = false)
  ∧ (gameState s = playing ->
     keyPreventsDefault (Some focused) code s = isScrollKey code && focused
     ∧ scrollPreventsDefault (Some focused) s = focused)
  ∧ (isScrollKey code = false ->
     forall el, keyPreventsDefault el code s = false)
  ∧ keyPreventsDefault None code s = isScrollKey code
  ∧ scrollPreventsDefault None s = true
  ∧ (let hit := Matter.mkPair (playerRef Sample.start)
                  (SetUp.monster3 Sample.sub) in
     let ended := play Sample.start
                    [Deliver (CollisionStart [hit]); Commit] in
     gameState ended = gameOver
     ∧ keyPreventsDefault (Some true) "Space" ended = true).
Proof.
  cbn zeta.
  destruct (lagging_play acts _ (lagging_initial props sub)) as [Hlag _].
  unfold keyPreventsDefault, scrollPreventsDefault, isGameActive.
  split; [|split; [|split; [|split; [|split]]]].
  - intros Href. split; [intros Hs; by apply Href, Hlag|].
    rewrite bool_decide_eq_false_2 by done. by rewrite !andb_false_r.
  - intros Hs. rewrite (Hlag Hs).
    rewrite bool_decide_eq_true_2 by done. by rewrite andb_true_r.
  - by intros ->.
  - by rewrite andb_true_r.
  - done.
  - by vm_compute.
Qed.

(** X19. What the guards do achieve.  Under every schedule from the
    initial state (events, renders and effects in any order, set-up
    re-runs): the game state never returns to [playing]; a mirror ref
    that reads a terminal state means the state is terminal; and from the
    moment the ref reads a terminal state with nothing queued, nothing
    that follows changes the game state. *)
Theorem game_state_final_once_mirrored props sub (acts1 acts2 : list Action) :
  let s1 := play (initial props sub) acts1 in
  let s2 := play s1 acts2 in
  (gameState s1 ≠ playing -> gameState s2 ≠ playing)
  ∧ (gameStateRef s1 ≠ playing -> gameState s1 ≠ playing)
  ∧ (gameStateRef s1 ≠ playing -> gameStateQueue s1 = [] ->
     gameState s2 = gameState s1
     ∧ gameStateRef s2 ≠ playing ∧ gameStateQueue s2 = []).
Proof.
  cbn zeta.
  pose proof (lagging_play acts1 _ (lagging_initial props sub)) as Hl.
  split; [|split].
  - by apply terminal_play.
  - intros Href Hs. by apply Href, (proj1 Hl).
  - intros Href Hq.
    destruct (mirrored_play acts2 _ Hl (conj Href Hq)) as [[H1 H2] H3].
    by repeat split.
Qed.

Lemma aiController_jumpStrengthRef inp s :
  jumpStrengthRef (aiController inp s) = jumpStrengthRef s.
Proof. unfold aiController. reflexivity. Qed.

Lemma jumpStrengthRef_step s e :
  jumpStrengthRef (step s e)
  = match e with
    | PropsChanged p => effectiveJumpStrength p
    | _ => jumpStrengthRef s
    end.
Proof.
  destruct e as [c|c|p|inp|k|pairs| |]; try (cbn [step]; done).
  - cbn [step]. rewrite aiController_jumpStrengthRef.
    rewrite playerController_split.
    destruct (jumpStep_flags (grounded inp s) (beforeJump inp s))
      as (_ & _ & ->).
    by destruct (beforeJump_refs inp s) as (_ & _ & -> & _).
  - cbn [step]. unfold collisionStart. revert s.
    induction pairs as [|pair pairs IH]; intros s; cbn [foldl]; [done|].
    rewrite IH. unfold handlePair, guardedTransition. by split_ifs.
  - cbn [step]. unfold afterUpdate, fallCheck.
    assert (jumpStrengthRef (cleanupProjectiles s) = jumpStrengthRef s) as H
      by (by rewrite cleanup_shape).
    destruct (_ && _);
      cbn [jumpStrengthRef setGameState set_gameStateQueue]; by rewrite H.
Qed.

(** X20. Nothing but the jump-strength effect writes the jump-strength
    ref: in every state of every run from the initial state it holds the
    effective jump strength of the latest props, and a jump in the next
    tick leaves the torso with its negation as vertical velocity. *)
Theorem jump_strength_ref_follows_props props sub (es : list Event) inp :
  let s := run (initial props sub) es in
  let strength := effectiveJumpStrength (latestProps props es) in
  jumpStrengthRef s = strength
  ∧ (jumpDown s && negb (jumpWasDownRef s) && grounded inp s = true ->
     Matter.y (Matter.velocity (playerRef (playerController inp s)))
     = (- strength)%Q).
Proof.
  cbn zeta.
  assert (jumpStrengthRef (run (initial props sub) es)
          = effectiveJumpStrength (latestProps props es)) as Href.
  { assert (jumpStrengthRef (initial props sub) = effectiveJumpStrength props)
      as H0 by done.
    revert H0. generalize (initial props sub). revert props.
    unfold run, latestProps.
    induction es as [|e es IH]; intros props s H0; cbn [foldl]; [done|].
    apply IH. rewrite jumpStrengthRef_step. by destruct e. }
  split; [done|]. intros Hjump.
  destruct (playerController_jump inp (run (initial props sub) es)) as [-> _].
  by rewrite Hjump, Href.
Qed.
End ListenerFacts.

(** ** Collision pairs that do nothing, and the order of a pair *)

Section PairFacts.
Import Matter.

(** X21. A collision pair is a no-op unless it is a projectile meeting a
    monster or it involves the torso or the head: the callback returns the
    state unchanged when neither body is the torso or the head, when the
    body met by the player carries a label other than [spike], [monster]
    or [goal] (ground, platforms, walls, the moving platform, a
    projectile), and, whatever the player meets, once the mirror ref reads
    a terminal state. *)
Theorem uninvolved_pairs_change_nothing s pair :
  projectileMeetsMonster pair = false ->
  (same (bodyA pair) (playerRef s) = false ->
   same (bodyB pair) (playerRef s) = false ->
   same (bodyA pair) (playerHeadRef s) = false ->
   same (bodyB pair) (playerHeadRef s) = false ->
   handlePair s pair = s)
  ∧ (Forall (fun b => label b ≠ "spike" ∧ label b ≠ "monster"
                      ∧ label b ≠ "goal") [bodyA pair; bodyB pair] ->
     handlePair s pair = s)
  ∧ (gameStateRef s ≠ playing -> handlePair s pair = s).
Proof.
  unfold projectileMeetsMonster, handlePair. cbn zeta. intros ->.
  split; [|split].
  - by intros -> -> -> ->.
  - intros Hl. apply Forall_cons in Hl as [(A1 & A2 & A3) Hl].
    apply Forall_cons in Hl as [(B1 & B2 & B3) _].
    apply String.eqb_neq in A1, A2, A3, B1, B2, B3.
    destruct (same (bodyA pair) (playerRef s));
      destruct (same (bodyB pair) (playerRef s));
      destruct (same (bodyA pair) (playerHeadRef s));
      destruct (same (bodyB pair) (playerHeadRef s));
      cbn [orb]; by rewrite ?A1, ?A2, ?A3, ?B1, ?B2, ?B3.
  - intros Href. unfold guardedTransition.
    rewrite decide_False by done.
    destruct (same (bodyA pair) (playerRef s));
      destruct (same (bodyB pair) (playerRef s));
      destruct (same (bodyA pair) (playerHeadRef s));
      destruct (same (bodyB pair) (playerHeadRef s));
      cbn [orb]; by split_ifs.
Qed.

Lemma uninvolved_pairs_change_nothing_witness :
  handlePair Sample.start (mkPair (playerRef Sample.start) Sample.ground)
  = Sample.start.
Proof.
  destruct (uninvolved_pairs_change_nothing Sample.start
              (mkPair (playerRef Sample.start) Sample.ground))
    as (_ & H & _); [by vm_compute|].
  apply H. repeat constructor; by vm_compute.
Defined.

Lemma label_clash (b : Body) l1 l2 :
  (label b =? l1)%string = true -> (label b =? l2)%string = true ->
  l1 ≠ l2 -> False.
Proof.
  intros H1 H2 Hne. apply String.eqb_eq in H1, H2. congruence.
Qed.

(** X22. The callback does not depend on which body of a contact the
    engine reports first: for two bodies with different ids, the pair and
    the pair with its bodies exchanged leave the same state. *)
Theorem pair_order_is_immaterial s pair :
  id (bodyA pair) ≠ id (bodyB pair) ->
  handlePair s (swapPair pair) = handlePair s pair.
Proof.
  destruct pair as [a b]. cbn [bodyA bodyB]. intros Hne.
  unfold handlePair, swapPair, same. cbn [bodyA bodyB]. cbn zeta.
  destruct (label a =? "projectile")%string eqn:PA;
    destruct (label a =? "monster")%string eqn:MA;
    try (exfalso; by apply (label_clash a _ _ PA MA));
    destruct (label b =? "projectile")%string eqn:PB;
    destruct (label b =? "monster")%string eqn:MB;
    try (exfalso; by apply (label_clash b _ _ PB MB));
    cbn [andb orb]; try reflexivity;
    destruct (Z.eqb_spec (id a) (id (playerRef s))) as [TA|TA];
    destruct (Z.eqb_spec (id b) (id (playerRef s))) as [TB|TB];
    try (exfalso; congruence);
    cbn [andb orb]; try reflexivity;
    destruct (Z.eqb_spec (id a) (id (playerHeadRef s))) as [HA|HA];
    destruct (Z.eqb_spec (id b) (id (playerHeadRef s))) as [HB|HB];
    try (exfalso; congruence);
    cbn [andb orb]; reflexivity.
Qed.

Lemma pair_order_is_immaterial_witness :
  handlePair SampleHit.armed (mkPair SampleHit.luredFlyer SampleHit.projectile)
  = handlePair SampleHit.armed
      (mkPair SampleHit.projectile SampleHit.luredFlyer).
Proof.
  apply (pair_order_is_immaterial SampleHit.armed
           (mkPair SampleHit.projectile SampleHit.luredFlyer)).
  by vm_compute.
Defined.
End PairFacts.

(** ** The ground of the level *)

Section GroundFacts.
Local Open Scope Q_scope.

Lemma segment_in_tiling L w (i : Z) :
  (0 <= i < Qceiling (L / w))%Z ->
  mkSegment (inject_Z i * w + w / 2) (w + 2) ∈ groundSegmentsOf L w.
Proof.
  intros [H0 H1]. unfold groundSegmentsOf. cbn zeta.
  apply list_elem_of_fmap. exists (Z.to_nat i). split.
  - by rewrite Z2Nat.id.
  - apply elem_of_seq. lia.
Qed.

Lemma covers_tile w (i : Z) x :
  inject_Z i * w - 1 <= x -> x <= inject_Z i * w + w + 1 ->
  covers (mkSegment (inject_Z i * w + w / 2) (w + 2)) x.
Proof.
  intros Hlo Hhi. unfold covers. cbn [segX segW].
  assert (inject_Z i * w + w / 2 - (w + 2) / 2 == inject_Z i * w - 1) as ->
    by field.
  assert (inject_Z i * w + w / 2 + (w + 2) / 2 == inject_Z i * w + w + 1) as ->
    by field.
  by split.
Qed.

(** X23. The ground leaves no gap: for any positive segment width and
    level length, the loop builds as many segments as the width goes into
    the length, rounded up, and every abscissa from 0 to the level length
    lies over one of them (each segment being 2 wider than the spacing,
    neighbours overlap). *)
Theorem ground_spans_level L w x :
  0 < w -> 0 < L -> 0 <= x -> x <= L ->
  length (groundSegmentsOf L w) = Z.to_nat (Qceiling (L / w))
  ∧ exists g, g ∈ groundSegmentsOf L w ∧ covers g x.
Proof.
  intros Hw HL Hx0 HxL. split.
  { unfold groundSegmentsOf. cbn zeta. by rewrite length_fmap, length_seq. }
  assert (x == x / w * w) as Ex by (field; lra).
  assert (L == L / w * w) as EL by (field; lra).
  set (q := x / w) in *. set (l := L / w) in *.
  assert (0 <= q) as Hq0 by nra.
  assert (q <= l) as Hql by nra.
  assert (0 < l) as Hl0 by nra.
  pose proof (Qle_ceiling l) as Hc1.
  pose proof (Qfloor_le q) as Hf1. pose proof (Qlt_floor q) as Hf2.
  rewrite inject_Z_plus in Hf2. change (inject_Z 1) with 1 in Hf2.
  set (n := Qceiling l) in *. set (f := Qfloor q) in *.
  assert (0 < n)%Z as Hn.
  { rewrite Zlt_Qlt. change (inject_Z 0) with 0. lra. }
  assert (0 <= f)%Z as Hf.
  { apply Z.lt_succ_r. rewrite Zlt_Qlt. unfold Z.succ.
    rewrite inject_Z_plus. change (inject_Z 0) with 0.
    change (inject_Z 1) with 1. lra. }
  assert (forall i, (0 <= i <= n - 1)%Z -> (0 <= i < Qceiling (L / w))%Z)
    as Hdom.
  { intros i. change (Qceiling (L / w)) with n. clearbody n. lia. }
  destruct (Z.le_gt_cases f (n - 1)) as [Hin|Hout].
  - exists (mkSegment (inject_Z f * w + w / 2) (w + 2)). split.
    + apply segment_in_tiling, Hdom. clearbody n f. lia.
    + clearbody n f q l.
      assert (0 <= (q - inject_Z f) * w) as H1
        by (apply Qmult_le_0_compat; lra).
      assert (0 <= (inject_Z f + 1 - q) * w) as H2
        by (apply Qmult_le_0_compat; lra).
      apply covers_tile; lra.
  - exists (mkSegment (inject_Z (n - 1) * w + w / 2) (w + 2)). split.
    + apply segment_in_tiling, Hdom. clearbody n f. lia.
    + assert (inject_Z n <= inject_Z f) as Hnf
        by (rewrite <- Zle_Qle; clearbody n f; lia).
      clearbody n f q l.
      assert (0 <= (q - inject_Z n) * w) as H1
        by (apply Qmult_le_0_compat; lra).
      assert (0 <= (inject_Z n - q) * w) as H2
        by (apply Qmult_le_0_compat; lra).
      assert (inject_Z (n - 1) = inject_Z n - 1) as Hsub.
      { unfold Z.sub. by rewrite inject_Z_plus, inject_Z_opp. }
      apply covers_tile; rewrite Hsub; lra.
Qed.

Lemma ground_spans_level_witness :
  length groundSegments = 9%nat
  ∧ exists g, g ∈ groundSegments ∧ covers g LEVEL_LENGTH.
Proof.
  destruct (ground_spans_level LEVEL_LENGTH 900 LEVEL_LENGTH)
    as [Hlen Hcov]; [by vm_compute..|].
  split; [|exact Hcov].
  unfold groundSegments. rewrite Hlen. by vm_compute.
Defined.
End GroundFacts.

(** ** Labels of the tracked bodies, and the viewport *)

Section LabelFacts.
Local Open Scope Q_scope.

Lemma labelled_same s s' :
  monstersRef s' = monstersRef s -> projectilesRef s' = projectilesRef s ->
  labelled s -> labelled s'.
Proof. unfold labelled. by intros -> ->. Qed.

Lemma labelled_fireStep s : labelled s -> labelled (fireStep s).
Proof.
  intros [Hm Hp]. unfold fireStep. destruct (key s "KeyK"); [|done].
  unfold labelled, createProjectile.
  cbn [monstersRef projectilesRef set_keysRef set_projectilesRef set_world
       set_nextId].
  split; [done|]. apply Forall_app. split; [done|]. by repeat constructor.
Qed.

Lemma labelled_aiController inp s : labelled s -> labelled (aiController inp s).
Proof.
  intros [Hm Hp]. split; [|done].
  destruct (monsterLoop_frame inp (playerRef s) (dom (monsterAIRef s))
              (monstersRef s) (monsterAIRef s, []) eq_refl)
    as (out & Hout & Hall).
  unfold aiController.
  cbn [monstersRef set_monstersRef set_monsterAIRef set_movingPlatformRef
       set_movingPlatformAIRef].
  rewrite Hout. cbn [fst snd app]. clear Hout.
  induction Hall as [|m m' ms out' [Hu _] _ IH]; [done|].
  apply Forall_cons in Hm as [[Hl Hf] Hm].
  constructor; [|by apply IH].
  unfold untouched in Hu. injection Hu as _ -> _ _ -> _. by split.
Qed.

Lemma labelled_step s e : labelled s -> labelled (step s e).
Proof.
  intros H. destruct e as [c|c|p|inp|k|pairs| |]; cbn [step];
    try (by apply (labelled_same s)).
  - apply labelled_aiController.
    destruct (playerController_registry inp s) as (H1 & _).
    destruct (playerController_tracking inp s) as (H2 & _).
    destruct (labelled_fireStep s H) as [Hm Hp].
    destruct (fireStep_registry s) as (H3 & _).
    unfold labelled. rewrite H1, H2. by rewrite H3 in Hm.
  - destruct H as [Hm Hp]. unfold labelled, physics.
    cbn [monstersRef projectilesRef]. split; apply Forall_fmap.
    + eapply Forall_impl; [exact Hm|]. by intros m [? ?].
    + eapply Forall_impl; [exact Hp|]. by intros p ?.
  - unfold collisionStart. revert s H.
    induction pairs as [|pair pairs IH]; intros s H; cbn [foldl]; [done|].
    apply IH. unfold handlePair, guardedTransition.
    split_ifs; try (by apply (labelled_same s));
      destruct H as [Hm Hp]; unfold labelled, removeHit, worldRemove;
      cbn [monstersRef projectilesRef set_world set_projectilesRef
           set_monstersRef set_monsterAIRef set_monsterStyleSeedRef];
      by split; apply Forall_filter_keeps.
  - destruct H as [Hm Hp].
    assert (monstersRef (cleanupProjectiles s) = monstersRef s) as Hc
      by (by rewrite cleanup_shape).
    assert (monstersRef (afterUpdate s) = monstersRef s) as H1.
    { unfold afterUpdate, fallCheck.
      destruct (_ && _); cbn [monstersRef setGameState set_gameStateQueue];
        by rewrite Hc. }
    assert (projectilesRef (afterUpdate s)
            = filter (fun p => isOutOfBounds p = false) (projectilesRef s))
      as H2.
    { unfold afterUpdate, fallCheck. by destruct (_ && _). }
    unfold labelled. rewrite H1, H2. split; [done|].
    by apply Forall_filter_keeps.
Qed.

(** X24. [initMonsterPhysics] never lowers the air friction and leaves it
    at 0.02 at least, so the 0.01 configured for the flyer becomes 0.02;
    and in every state of every run from the initial state every tracked
    monster is still labelled [monster] with an air friction of 0.02 at
    least, and every tracked projectile is labelled [projectile]: the
    label tests of the ground check and of the collision callback apply to
    every tracked body. *)
Theorem tracked_bodies_keep_labels props sub (es : list Event) :
  (forall b, let b' := SetUp.initMonsterPhysics b in
     0.02 <= Matter.frictionAir b'
     ∧ Matter.frictionAir b <= Matter.frictionAir b'
     ∧ (0.02 <= Matter.frictionAir b -> b' = b)
     ∧ SetUp.initMonsterPhysics b' = b'
     ∧ untouched b' = (Matter.id b, Matter.label b, Matter.isSensor b,
                       Matter.mass b, Matter.frictionAir b',
                       Matter.position b))
  ∧ Matter.frictionAir (SetUp.monster3 sub) = 0.02
  ∧ labelled (run (initial props sub) es).
Proof.
  assert (forall a, Qmax (Qmax a 0.02) 0.02 = Qmax a 0.02) as Hidem.
  { intros a. unfold Qmax, GenericMinMax.gmax.
    destruct (a ?= 0.02) eqn:E; try done; by rewrite E. }
  split; [|split; [done|]].
  - intros b. cbn zeta. unfold SetUp.initMonsterPhysics.
    cbn [Matter.frictionAir Matter.id Matter.label Matter.isSensor
         Matter.mass Matter.position Matter.velocity Matter.force untouched].
    rewrite Hidem.
    split; [apply Q.le_max_r|]. split; [apply Q.le_max_l|].
    split; [|done]. intros Hb. destruct b as [i l sn m fa p v f].
    cbn [Matter.frictionAir Matter.id Matter.label Matter.isSensor
         Matter.mass Matter.position Matter.velocity Matter.force] in *.
    f_equal. unfold Qmax, GenericMinMax.gmax.
    destruct (fa ?= 0.02) eqn:E; try done.
    apply Qlt_alt in E. exfalso. exact (Qlt_not_le _ _ E Hb).
  - assert (labelled (initial props sub)) as H0.
    { unfold labelled. split; [|constructor].
      repeat constructor; by vm_compute. }
    revert H0. generalize (initial props sub). unfold run.
    induction es as [|e es IH]; intros s H; cbn [foldl]; [done|].
    by apply IH, labelled_step.
Qed.

(** X25. The viewport takes each dimension from its prop at mount, and
    from the window when the prop is missing.  A resize changes nothing
    when both props are given; otherwise it sets both dimensions to the
    window's, so a dimension fixed by a single prop is lost at the first
    resize.  A resize never moves the camera, and resizing twice to the
    same window is resizing once. *)
Theorem viewport_follows_props_or_window vp win win' v :
  cameraXRef (mountView vp win) = 0
  ∧ viewportWRef (mountView vp win) = default (innerWidth win) (propWidth vp)
  ∧ viewportHRef (mountView vp win) = default (innerHeight win) (propHeight vp)
  ∧ (is_Some (propWidth vp) -> is_Some (propHeight vp) ->
     handleResize vp win' v = v)
  ∧ (propWidth vp = None ∨ propHeight vp = None ->
     handleResize vp win' v
     = mkView (cameraXRef v) (innerWidth win') (innerHeight win'))
  ∧ cameraXRef (handleResize vp win' v) = cameraXRef v
  ∧ handleResize vp win' (handleResize vp win' v) = handleResize vp win' v.
Proof.
  unfold mountView, handleResize.
  destruct (propWidth vp) as [w|], (propHeight vp) as [h|];
    cbn [default cameraXRef viewportWRef viewportHRef];
    repeat split; try done;
    try (by intros [? ?]); try (by intros [? ?] [? ?]);
    try (by intros [?|?]); by destruct v.
Qed.
End LabelFacts.

(** ** The registries across set-up re-runs *)

Section LifecycleFacts.
Import Matter.

(** The initial state is the set-up effect run on the refs as React
    creates them. *)
Lemma initial_is_first_set_up props sub rest :
  initial props sub = SetUp.setUp sub (SetUp.unmounted props rest).
Proof. reflexivity. Qed.

Lemma covered_of_consistent s : registryConsistent s -> covered s.
Proof. unfold covered. by intros [-> ->]. Qed.

Lemma covered_same s s' :
  trackedIds s' = trackedIds s ->
  dom (monsterAIRef s') = dom (monsterAIRef s) ->
  dom (monsterStyleSeedRef s') = dom (monsterStyleSeedRef s) ->
  covered s -> covered s'.
Proof. unfold covered. by intros -> -> ->. Qed.

Lemma covered_removeHit p m s : covered s -> covered (removeHit p m s).
Proof.
  unfold covered, trackedIds, removeHit, worldRemove.
  cbn [monstersRef monsterAIRef monsterStyleSeedRef set_world
       set_projectilesRef set_monstersRef set_monsterAIRef
       set_monsterStyleSeedRef].
  intros [Hai Hseed]. rewrite tracked_after_filter, !dom_delete_L.
  split; intros k Hk; apply elem_of_difference in Hk as [Hk Hne];
    apply elem_of_difference; (split; [|done]); [by apply Hai|by apply Hseed].
Qed.

Lemma covered_aiController inp s : covered s -> covered (aiController inp s).
Proof.
  unfold covered, trackedIds, aiController.
  cbn [monstersRef monsterAIRef monsterStyleSeedRef set_monstersRef
       set_monsterAIRef set_movingPlatformRef set_movingPlatformAIRef].
  destruct (monsterLoop_keeps inp (playerRef s) (monstersRef s)
              (monsterAIRef s, [])) as [-> ->].
  done.
Qed.

Lemma covered_step s e : covered s -> covered (step s e).
Proof.
  intros H. destruct e as [code|code|p|inp|k|pairs| |]; cbn [step];
    try (by apply (covered_same s)).
  - apply covered_aiController.
    destruct (playerController_registry inp s) as (H1 & H2 & H3).
    apply (covered_same s); [unfold trackedIds| | |done]; congruence.
  - apply (covered_same s); try done. unfold trackedIds, physics.
    cbn [monstersRef]. rewrite <- list_fmap_compose.
    by assert (Matter.id ∘ moveBody k = Matter.id) as -> by done.
  - unfold collisionStart. revert s H.
    induction pairs as [|pair pairs IH]; intros s H; cbn [foldl]; [done|].
    apply IH. unfold handlePair, guardedTransition.
    split_ifs; try (by apply covered_removeHit);
      by apply (covered_same s).
  - assert (monstersRef (cleanupProjectiles s) = monstersRef s
            ∧ monsterAIRef (cleanupProjectiles s) = monsterAIRef s
            ∧ monsterStyleSeedRef (cleanupProjectiles s)
              = monsterStyleSeedRef s) as (H1 & H2 & H3)
      by (by rewrite cleanup_shape).
    assert (trackedIds (afterUpdate s) = trackedIds s
            ∧ monsterAIRef (afterUpdate s) = monsterAIRef s
            ∧ monsterStyleSeedRef (afterUpdate s) = monsterStyleSeedRef s)
      as (A1 & A2 & A3).
    { unfold afterUpdate, fallCheck, trackedIds. destruct (_ && _);
        cbn [monstersRef monsterAIRef monsterStyleSeedRef setGameState
             set_gameStateQueue]; by rewrite H1, H2, H3. }
    apply (covered_same s); [done|by rewrite A2|by rewrite A3|done].
Qed.

Lemma covered_setUp sub s : covered (SetUp.setUp sub s).
Proof.
  unfold covered, trackedIds.
  cbn [SetUp.setUp monstersRef monsterAIRef monsterStyleSeedRef].
  rewrite !dom_insert_L, !fmap_cons, !list_to_set_cons.
  cbn [fmap list_fmap list_to_set].
  split; intros k; rewrite !elem_of_union, !elem_of_singleton, elem_of_empty;
    tauto.
Qed.

Lemma covered_act s a : covered s -> covered (act s a).
Proof.
  intros H. destruct a as [e| | |sub]; cbn [act].
  - by apply covered_step.
  - by apply (covered_same s).
  - by apply (covered_same s).
  - apply covered_setUp.
Qed.

Lemma covered_play acts : forall s, covered s -> covered (play s acts).
Proof.
  unfold play. induction acts as [|a acts IH]; intros s H; cbn [foldl];
    [done|].
  by apply IH, covered_act.
Qed.

Lemma registry_play acts : forall s,
  forallb (fun a => negb (isSetUpAgain a)) acts = true ->
  registryConsistent s -> registryConsistent (play s acts).
Proof.
  unfold play. induction acts as [|a acts IH]; intros s Hall H; cbn [foldl];
    [done|].
  cbn [forallb] in Hall. apply andb_true_iff in Hall as [Ha Hall].
  apply (IH _ Hall). destruct a as [e| | |sub]; cbn [act]; try done.
  by apply registry_step.
Qed.

(** X26. What holds of the registries.  Under every schedule from the
    initial state, set-up re-runs included, every tracked monster has an
    AI record and a style seed under its id.  As long as the set-up has
    not run again, the keys of both registries are exactly the ids of the
    tracked monsters.  And the collision callback, at any pair of a body
    labelled [projectile] and a body labelled [monster], leaves that
    monster with no AI record, no style seed and no entry in the tracked
    list, in one step. *)
Theorem tracked_monsters_have_records props sub (acts : list Action) :
  let s := play (initial props sub) acts in
  Forall (fun m => is_Some (monsterAIRef s !! id m)
                   ∧ is_Some (monsterStyleSeedRef s !! id m))
    (monstersRef s)
  ∧ (forallb (fun a => negb (isSetUpAgain a)) acts = true ->
     registryConsistent s)
  ∧ (forall pair, projectileMeetsMonster pair = true ->
       let monster :=
         if (label (bodyA pair) =? "projectile")%string
         then bodyB pair else bodyA pair in
       let s' := handlePair s pair in
       monsterAIRef s' !! id monster = None
       ∧ monsterStyleSeedRef s' !! id monster = None
       ∧ (Matter.id monster ∉ (Matter.id <$> monstersRef s'))
       ∧ covered s').
Proof.
  cbn zeta.
  pose proof (covered_play acts _
                (covered_of_consistent _ (registry_initial props sub)))
    as Hcov.
  split; [|split].
  - destruct Hcov as [Hai Hseed]. apply Forall_forall. intros m Hm.
    assert (id m ∈ trackedIds (play (initial props sub) acts)) as Hin.
    { unfold trackedIds. apply elem_of_list_to_set, list_elem_of_fmap.
      by exists m. }
    split; apply elem_of_dom; [by apply Hai | by apply Hseed].
  - intros Hall. by apply registry_play, registry_initial.
  - intros pair Hpair.
    set (s := play (initial props sub) acts) in *.
    unfold handlePair. unfold projectileMeetsMonster in Hpair.
    cbn zeta in Hpair. rewrite Hpair.
    set (projectile := if (label (bodyA pair) =? "projectile")%string
                       then bodyA pair else bodyB pair).
    set (monster := if (label (bodyA pair) =? "projectile")%string
                    then bodyB pair else bodyA pair).
    split; [|split; [|split]]; try apply covered_removeHit; try done;
      unfold removeHit, worldRemove;
      cbn [monstersRef monsterAIRef monsterStyleSeedRef set_world
           set_projectilesRef set_monstersRef set_monsterAIRef
           set_monsterStyleSeedRef].
    + apply lookup_delete_eq.
    + apply lookup_delete_eq.
    + intros (m & Hid & Hm)%list_elem_of_fmap.
      by apply list_elem_of_filter in Hm as [Hne _].
Qed.
End LifecycleFacts.
